(** * Emissary: tool invoker, two-tier memory and the agent execution loop

    A shallow embedding of the TypeScript sources
      - domain/entities/memory.ts and tool.ts,
      - the in-memory and the file-based memory stores,
      - infrastructure/agents/memory/memory-manager.ts,
      - the tool registry and the built-in calculator tool,
      - application/use-cases/execute-agent.use-case.ts,
    followed by the properties established about them.

    Conventions of the embedding.
    - Asynchronous methods run to completion one after the other (the
      sources await every call), so they are functions that thread the
      state of the objects they mutate.
    - A [Date] is its epoch time in milliseconds, an integer.  An
      operation receives the reading [now] of the wall clock; every
      [new Date()] evaluated during one operation yields that reading.
    - A JavaScript string is a [string] whose characters are code units
      below 256.
    - A thrown JavaScript value is a [Thrown]; code that may throw returns
      an [Exc]; [try_catch] is the [try { } catch { }] statement. *)

From Stdlib Require Import ZArith Lia List String Ascii Bool Sorted Permutation.
From stdpp Require Import base tactics option strings gmap pretty.
Import ListNotations.

Local Open Scope string_scope.
Local Open Scope Z_scope.
Set Warnings "-register-all".

(** ** Exceptions and results *)

(** A thrown value: an [Error] object (its message and stack), or any other
    value (its [String(...)] rendering). *)
Inductive Thrown : Type :=
| ErrorObject (message stack : string)
| NonError (text : string).

(** [error instanceof Error ? error.message : String(error)] *)
Definition thrown_message (e : Thrown) : string :=
  match e with
  | ErrorObject m _ => m
  | NonError t => t
  end.

(** [error instanceof Error ? error.stack : undefined] *)
Definition thrown_stack (e : Thrown) : option string :=
  match e with
  | ErrorObject _ s => Some s
  | NonError _ => None
  end.

(** [error instanceof Error ? error : new Error(String(error))] *)
Definition as_error (e : Thrown) : Thrown :=
  match e with
  | ErrorObject m s => ErrorObject m s
  | NonError t => ErrorObject t ""
  end.

Inductive Exc (A : Type) : Type :=
| Normal (a : A)
| Raise (e : Thrown).
Arguments Normal {A} a.
Arguments Raise {A} e.

Definition exc_bind {A B : Type} (c : Exc A) (k : A -> Exc B) : Exc B :=
  match c with
  | Normal a => k a
  | Raise e => Raise e
  end.

Definition try_catch {A : Type} (body : Exc A) (handler : Thrown -> Exc A) : Exc A :=
  match body with
  | Normal a => Normal a
  | Raise e => handler e
  end.

Notation "x <- c ;; k" := (exc_bind c (fun x => k))
  (at level 100, c at next level, right associativity).

(** shared/types/result.ts *)
Inductive Result (A : Type) : Type :=
| Ok (value : A)
| Err (error : Thrown).
Arguments Ok {A} value.
Arguments Err {A} error.

Definition isOk {A : Type} (r : Result A) : bool :=
  match r with Ok _ => true | Err _ => false end.

(** The other methods of [Ok] and [Err], and [trySync]; a callback may
    throw, and so may [unwrap]. *)
Module ResultType.

Definition isErr {A : Type} (r : Result A) : bool := negb (isOk r).

Definition map {A B : Type} (fn : A -> Exc B) (r : Result A) : Exc (Result B) :=
  match r with
  | Ok value => y <- fn value ;; Normal (Ok y)
  | Err error => Normal (Err error)
  end.

Definition mapErr {A : Type} (fn : Thrown -> Exc Thrown) (r : Result A) : Exc (Result A) :=
  match r with
  | Ok value => Normal (Ok value)
  | Err error => e <- fn error ;; Normal (Err e)
  end.

Definition flatMap {A B : Type} (fn : A -> Exc (Result B)) (r : Result A)
    : Exc (Result B) :=
  match r with
  | Ok value => fn value
  | Err error => Normal (Err error)
  end.

Definition unwrap {A : Type} (r : Result A) : Exc A :=
  match r with
  | Ok value => Normal value
  | Err error => Raise error
  end.

Definition unwrapOr {A : Type} (defaultValue : A) (r : Result A) : A :=
  match r with
  | Ok value => value
  | Err _ => defaultValue
  end.

Definition unwrapOrElse {A : Type} (fn : Thrown -> Exc A) (r : Result A) : Exc A :=
  match r with
  | Ok value => Normal value
  | Err error => fn error
  end.

(** [trySync(fn)], for what the call [fn()] does. *)
Definition trySync {A : Type} (fn : Exc A) : Result A :=
  match fn with
  | Normal value => Ok value
  | Raise error => Err error
  end.

End ResultType.

(** ** JSON values and the host's string functions *)

(** [JsonValue]; numbers are the integers among the JSON numbers, meant for
    the safe integers (below 2^53 in absolute value), which are doubles and
    which [JSON.stringify] writes in plain decimal. *)
Inductive JsonValue : Type :=
| JNull
| JBool (b : bool)
| JNumber (n : Z)
| JString (s : string)
| JArray (items : list JsonValue)
| JObject (fields : list (string * JsonValue)).

Fixpoint join (sep : string) (parts : list string) : string :=
  match parts with
  | [] => ""
  | [p] => p
  | p :: rest => p +:+ sep +:+ join sep rest
  end.

Definition dquote : ascii := ascii_of_N 34.

Definition hex_digit (n : N) : ascii :=
  ascii_of_N (if (n <? 10)%N then 48 + n else 87 + n).

(** The escape [JSON.stringify] writes for one character of a string. *)
Definition json_escape (c : ascii) : string :=
  let n := N_of_ascii c in
  if (n =? 34)%N then String "\" (String dquote EmptyString)
  else if (n =? 92)%N then "\\"
  else if (n =? 8)%N then "\b"
  else if (n =? 12)%N then "\f"
  else if (n =? 10)%N then "\n"
  else if (n =? 13)%N then "\r"
  else if (n =? 9)%N then "\t"
  else if (n <? 32)%N then
    "\u00" +:+ String (hex_digit (n / 16)) (String (hex_digit (n mod 16)) "")
  else String c "".

Fixpoint json_escape_all (s : string) : string :=
  match s with
  | EmptyString => ""
  | String c rest => json_escape c +:+ json_escape_all rest
  end.

Definition json_quote (s : string) : string :=
  String dquote (json_escape_all s) +:+ String dquote EmptyString.

(** [JSON.stringify(v)] without indentation; a number is written in plain
    decimal, as the code writes the safe integers (the exponent form the
    code writes from 1e21 on is not modelled). *)
Fixpoint JSON_stringify (v : JsonValue) : string :=
  match v with
  | JNull => "null"
  | JBool true => "true"
  | JBool false => "false"
  | JNumber n => pretty n
  | JString s => json_quote s
  | JArray items => "[" +:+ join "," (map JSON_stringify items) +:+ "]"
  | JObject fields =>
      "{" +:+ join "," (map (fun kv => match kv with
                                     | (k, x) => json_quote k +:+ ":" +:+ JSON_stringify x
                                     end) fields) +:+ "}"
  end.

(** [String(v)] for a value read out of a JSON record ([undefined] when the
    key is missing). *)
Fixpoint js_String (v : JsonValue) : string :=
  match v with
  | JNull => "null"
  | JBool true => "true"
  | JBool false => "false"
  | JNumber n => pretty n
  | JString s => s
  | JArray items =>
      join "," (map (fun x => match x with JNull => "" | _ => js_String x end) items)
  | JObject _ => "[object Object]"
  end.

Definition js_String_opt (v : option JsonValue) : string :=
  match v with
  | Some x => js_String x
  | None => "undefined"
  end.

(** [c.toLowerCase()] on one code unit below 256. *)
Definition lower_char (c : ascii) : ascii :=
  let n := N_of_ascii c in
  if ((65 <=? n) && (n <=? 90))%N then ascii_of_N (n + 32)
  else if ((192 <=? n) && (n <=? 222) && negb (n =? 215))%N then ascii_of_N (n + 32)
  else c.

Fixpoint toLowerCase (s : string) : string :=
  match s with
  | EmptyString => ""
  | String c rest => String (lower_char c) (toLowerCase rest)
  end.

(** [s.includes(sub)] *)
Fixpoint includes (s sub : string) : bool :=
  String.prefix sub s ||
  match s with
  | EmptyString => false
  | String _ rest => includes rest sub
  end.

(** [xs.includes(x)] on an array of strings. *)
Definition list_includes (xs : list string) (x : string) : bool :=
  existsb (String.eqb x) xs.

(** ** domain/entities/memory.ts *)

Inductive MemoryType : Type := ShortTerm | LongTerm | Episodic | Semantic.

Inductive MemoryImportance : Type := Low | Medium | High | Critical.

(** The numeric value of the enum member. *)
Definition importance_value (i : MemoryImportance) : Z :=
  match i with
  | Low => 1
  | Medium => 2
  | High => 3
  | Critical => 4
  end.

Definition MemoryType_eqb (a b : MemoryType) : bool :=
  match a, b with
  | ShortTerm, ShortTerm | LongTerm, LongTerm
  | Episodic, Episodic | Semantic, Semantic => true
  | _, _ => false
  end.

Record MemoryMetadata : Type := {
  createdAt : Z;
  accessedAt : Z;
  accessCount : Z;
  importance : MemoryImportance;
  tags : list string
}.

Record MemoryEntry : Type := {
  id : string;
  type : MemoryType;
  content : JsonValue;
  metadata : MemoryMetadata
}.

(** [MemoryEntry.recordAccess] *)
Definition recordAccess (now : Z) (e : MemoryEntry) : MemoryEntry :=
  {| id := id e;
     type := type e;
     content := content e;
     metadata :=
       {| createdAt := createdAt (metadata e);
          accessedAt := now;
          accessCount := accessCount (metadata e) + 1;
          importance := importance (metadata e);
          tags := tags (metadata e) |} |}.

Record MemoryQuery : Type := {
  q_type : option MemoryType;
  q_tags : option (list string);
  q_minImportance : option MemoryImportance;
  q_maxAge : option Z;
  q_limit : option Z;
  q_searchText : option string
}.

(** Truthiness of an optional number: [undefined] and [0] are falsy. *)
Definition truthy_number (o : option Z) : option Z :=
  match o with
  | Some n => if n =? 0 then None else Some n
  | None => None
  end.

(** Truthiness of an optional string: [undefined] and [""] are falsy. *)
Definition truthy_string (o : option string) : option string :=
  match o with
  | Some s => if String.eqb s "" then None else Some s
  | None => None
  end.

(** [`mem-${n}`] *)
Definition mem_id (n : Z) : string := "mem-" +:+ pretty n.

(** ** The host's stable [Array.prototype.sort], most recently accessed first

    [results.sort((a, b) => key(b) - key(a))]: descending in the key, and
    elements with equal keys keep their relative order. *)
Section SortDescending.
Context {A : Type} (key : A -> Z).

Fixpoint insert_desc (x : A) (l : list A) : list A :=
  match l with
  | [] => [x]
  | y :: rest =>
      if key y <=? key x then x :: y :: rest else y :: insert_desc x rest
  end.

Fixpoint sort_desc (l : list A) : list A :=
  match l with
  | [] => []
  | x :: rest => insert_desc x (sort_desc rest)
  end.
End SortDescending.

(** [results.slice(0, limit)] guarded by [if (limit && limit > 0)]. *)
Definition apply_limit {A : Type} (limit : option Z) (results : list A) : list A :=
  match limit with
  | Some l => if 0 <? l then firstn (Z.to_nat l) results else results
  | None => results
  end.

(** The test of the loop body of [prune], the same in both stores; it reads
    the creation time and the importance of the entry.  [minImportance]
    defaults to [Low]. *)
Definition shouldPrune (maxAge : option Z) (minImportance : option MemoryImportance)
    (now : Z) (created : Z) (imp : MemoryImportance) : bool :=
  let minImp := default Low minImportance in
  match truthy_number maxAge with
  | Some m =>
      (m <? now - created) && (importance_value imp <? importance_value minImp)
  | None => importance_value imp <? importance_value minImp
  end.

(** ** The in-memory store (short-term tier) *)
Module InMemoryMemoryStore.

(** [memories] is the [Map<string, MemoryEntry>] in insertion order; the
    key of an entry is its [id] (the only write is [set(id, entry)] with
    [entry.id = id]).  The entries are the objects the store hands out:
    what a call changes in an entry it returns is changed in the map. *)
Record t : Type := {
  memories : list MemoryEntry;
  nextId : Z
}.

Definition empty : t := {| memories := []; nextId := 1 |}.

(** [Map.prototype.get] *)
Definition map_get (i : string) (m : list MemoryEntry) : option MemoryEntry :=
  find (fun e => String.eqb (id e) i) m.

(** [Map.prototype.has] *)
Definition map_has (i : string) (m : list MemoryEntry) : bool :=
  existsb (fun e => String.eqb (id e) i) m.

(** [Map.prototype.set]: an existing key keeps its position. *)
Definition map_set (entry : MemoryEntry) (m : list MemoryEntry) : list MemoryEntry :=
  if map_has (id entry) m
  then map (fun e => if String.eqb (id e) (id entry) then entry else e) m
  else m ++ [entry].

(** [Map.prototype.delete] *)
Definition map_delete (i : string) (m : list MemoryEntry) : list MemoryEntry :=
  List.filter (fun e => negb (String.eqb (id e) i)) m.

Definition store (ty : MemoryType) (c : JsonValue) (imp : MemoryImportance)
    (tgs : list string) (now : Z) (s : t) : Result MemoryEntry * t :=
  let i := mem_id (nextId s) in
  let entry :=
    {| id := i; type := ty; content := c;
       metadata := {| createdAt := now; accessedAt := now; accessCount := 0;
                      importance := imp; tags := tgs |} |} in
  (Ok entry, {| memories := map_set entry (memories s); nextId := nextId s + 1 |}).

(** The entries whose id is in [ids] record an access. *)
Definition touch (ids : list string) (now : Z) (m : list MemoryEntry) : list MemoryEntry :=
  map (fun e => if list_includes ids (id e) then recordAccess now e else e) m.

Definition retrieve (i : string) (now : Z) (s : t) : Result (option MemoryEntry) * t :=
  match map_get i (memories s) with
  | Some entry =>
      (Ok (Some (recordAccess now entry)),
       {| memories := touch [i] now (memories s); nextId := nextId s |})
  | None => (Ok None, s)
  end.

(** The filters of [query], in the order of the source. *)
Definition filter_type (q : MemoryQuery) (results : list MemoryEntry) :=
  match q_type q with
  | Some ty => List.filter (fun e => MemoryType_eqb (type e) ty) results
  | None => results
  end.

Definition filter_tags (q : MemoryQuery) (results : list MemoryEntry) :=
  match q_tags q with
  | Some ts =>
      if (0 <? length ts)%nat
      then List.filter
             (fun e => existsb (fun tag => list_includes (tags (metadata e)) tag) ts)
             results
      else results
  | None => results
  end.

Definition filter_importance (q : MemoryQuery) (results : list MemoryEntry) :=
  match q_minImportance q with
  | Some mi =>
      List.filter
        (fun e => importance_value mi <=? importance_value (importance (metadata e)))
        results
  | None => results
  end.

Definition filter_age (q : MemoryQuery) (now : Z) (results : list MemoryEntry) :=
  match truthy_number (q_maxAge q) with
  | Some maxAge =>
      List.filter (fun e => now - createdAt (metadata e) <=? maxAge) results
  | None => results
  end.

Definition filter_text (q : MemoryQuery) (results : list MemoryEntry) :=
  match truthy_string (q_searchText q) with
  | Some searchText =>
      let searchLower := toLowerCase searchText in
      List.filter
        (fun e => includes (toLowerCase (JSON_stringify (content e))) searchLower)
        results
  | None => results
  end.

Definition query (q : MemoryQuery) (now : Z) (s : t)
    : Result (list MemoryEntry) * t :=
  let results := memories s in
  let results := filter_type q results in
  let results := filter_tags q results in
  let results := filter_importance q results in
  let results := filter_age q now results in
  let results := filter_text q results in
  let results := sort_desc (fun e => accessedAt (metadata e)) results in
  let results := apply_limit (q_limit q) results in
  (Ok (map (recordAccess now) results),
   {| memories := touch (map id results) now (memories s); nextId := nextId s |}).

Definition delete (i : string) (s : t) : Result bool * t :=
  (Ok (map_has i (memories s)),
   {| memories := map_delete i (memories s); nextId := nextId s |}).

Definition prune (maxAge : option Z) (minImportance : option MemoryImportance)
    (now : Z) (s : t) : Result Z * t :=
  let doomed e :=
    shouldPrune maxAge minImportance now (createdAt (metadata e))
                (importance (metadata e)) in
  (Ok (Z.of_nat (length (List.filter doomed (memories s)))),
   {| memories := List.filter (fun e => negb (doomed e)) (memories s);
      nextId := nextId s |}).

(** [getStats().totalEntries] *)
Definition totalEntries (s : t) : Z := Z.of_nat (length (memories s)).

(** [clear(type?)]: with a type, the entries of that type are deleted one by
    one and counted; without, the count is the size and the map is
    emptied. *)
Definition clear (ty : option MemoryType) (s : t) : Result Z * t :=
  match ty with
  | Some ty' =>
      (Ok (Z.of_nat (length (List.filter (fun e => MemoryType_eqb (type e) ty')
                                         (memories s)))),
       {| memories := List.filter (fun e => negb (MemoryType_eqb (type e) ty'))
                        (memories s);
          nextId := nextId s |})
  | None =>
      (Ok (Z.of_nat (length (memories s))), {| memories := []; nextId := nextId s |})
  end.

(** [consolidate()]: nothing to do in the store itself. *)
Definition consolidate (s : t) : Result Z * t := (Ok 0, s).

(** [getAll()] and [size()] *)
Definition getAll (s : t) : list MemoryEntry := memories s.
Definition size (s : t) : Z := Z.of_nat (length (memories s)).

End InMemoryMemoryStore.

(** ** The file-based store (long-term tier) *)
Module FileMemoryStore.

(** One row of [index.json]. *)
Record IndexEntry : Type := {
  ix_id : string;
  ix_type : MemoryType;
  ix_importance : MemoryImportance;
  ix_tags : list string;
  ix_createdAt : Z;
  ix_accessedAt : Z;
  ix_accessCount : Z
}.

(** An initialised store: [index] is [this.index.memories]; [files] maps
    an id to the entry its file [<id>.json] holds (an entry read back from
    its file is the entry that was written).  The map stands for the
    directory of the store for the ids that name their own file, as the ids
    [mem-<k>] the store hands out do.  An id that holds a path (as
    [./mem-1]) or the name of the index file ([index]) reaches another file
    than one of its own through [path.join(storageDir, id + '.json')]; the
    map does not follow such ids, and the statements about [retrieve] and
    [delete] are made for ids of the stores' form. *)
Record t : Type := {
  index : list IndexEntry;
  files : gmap string MemoryEntry;
  nextId : Z
}.

Definition empty : t := {| index := []; files := ∅; nextId := 1 |}.

(** What the file system does to the writes of one [store] call: both
    succeed, [writeFile] of the entry throws, or the entry is written and
    [saveIndex] throws.  The other file operations of this model succeed
    whenever the file they need exists. *)
Inductive WriteFault : Type := NoFault | EntryWriteFails | IndexWriteFails.

Definition io_error : Thrown := ErrorObject "EIO: i/o error, write" "".

Definition store (ty : MemoryType) (c : JsonValue) (imp : MemoryImportance)
    (tgs : list string) (now : Z) (fault : WriteFault) (s : t)
    : Result MemoryEntry * t :=
  let i := mem_id (nextId s) in
  let entry :=
    {| id := i; type := ty; content := c;
       metadata := {| createdAt := now; accessedAt := now; accessCount := 0;
                      importance := imp; tags := tgs |} |} in
  let row :=
    {| ix_id := i; ix_type := ty; ix_importance := imp; ix_tags := tgs;
       ix_createdAt := now; ix_accessedAt := now; ix_accessCount := 0 |} in
  match fault with
  | EntryWriteFails =>
      (Err io_error, {| index := index s; files := files s; nextId := nextId s + 1 |})
  | IndexWriteFails =>
      (Err io_error,
       {| index := index s ++ [row]; files := <[i := entry]> (files s);
          nextId := nextId s + 1 |})
  | NoFault =>
      (Ok entry,
       {| index := index s ++ [row]; files := <[i := entry]> (files s);
          nextId := nextId s + 1 |})
  end.

(** [this.index.memories.find((m) => m.id === id)] followed by the update
    of the row found. *)
Fixpoint touch_index (i : string) (accessed : Z) (count : Z) (rows : list IndexEntry)
    : list IndexEntry :=
  match rows with
  | [] => []
  | r :: rest =>
      if String.eqb (ix_id r) i
      then {| ix_id := ix_id r; ix_type := ix_type r;
              ix_importance := ix_importance r; ix_tags := ix_tags r;
              ix_createdAt := ix_createdAt r;
              ix_accessedAt := accessed; ix_accessCount := count |} :: rest
      else r :: touch_index i accessed count rest
  end.

Definition retrieve (i : string) (now : Z) (s : t) : Result (option MemoryEntry) * t :=
  match files s !! i with
  | Some parsed =>
      let entry := recordAccess now parsed in
      (Ok (Some entry),
       {| index := touch_index i (accessedAt (metadata entry))
                     (accessCount (metadata entry)) (index s);
          files := <[i := entry]> (files s);
          nextId := nextId s |})
  | None => (Ok None, s)
  end.

(** The filters of [query] on the rows of the index. *)
Definition filter_type (q : MemoryQuery) (results : list IndexEntry) :=
  match q_type q with
  | Some ty => List.filter (fun r => MemoryType_eqb (ix_type r) ty) results
  | None => results
  end.

Definition filter_tags (q : MemoryQuery) (results : list IndexEntry) :=
  match q_tags q with
  | Some ts =>
      if (0 <? length ts)%nat
      then List.filter
             (fun r => existsb (fun tag => list_includes (ix_tags r) tag) ts) results
      else results
  | None => results
  end.

Definition filter_importance (q : MemoryQuery) (results : list IndexEntry) :=
  match q_minImportance q with
  | Some mi =>
      List.filter
        (fun r => importance_value mi <=? importance_value (ix_importance r)) results
  | None => results
  end.

Definition filter_age (q : MemoryQuery) (now : Z) (results : list IndexEntry) :=
  match truthy_number (q_maxAge q) with
  | Some maxAge => List.filter (fun r => now - ix_createdAt r <=? maxAge) results
  | None => results
  end.

(** The test on the loaded entry inside the loading loop. *)
Definition text_matches (q : MemoryQuery) (entry : MemoryEntry) : bool :=
  match truthy_string (q_searchText q) with
  | Some searchText =>
      includes (toLowerCase (JSON_stringify (content entry))) (toLowerCase searchText)
  | None => true
  end.

(** [for (const indexEntry of results) { ... this.retrieve(indexEntry.id) ... }] *)
Fixpoint load_entries (q : MemoryQuery) (now : Z) (rows : list IndexEntry) (s : t)
    : list MemoryEntry * t :=
  match rows with
  | [] => ([], s)
  | r :: rest =>
      match retrieve (ix_id r) now s with
      | (Ok (Some entry), s1) =>
          let '(entries, s2) := load_entries q now rest s1 in
          if text_matches q entry then (entry :: entries, s2) else (entries, s2)
      | (_, s1) => load_entries q now rest s1
      end
  end.

Definition query (q : MemoryQuery) (now : Z) (s : t) : Result (list MemoryEntry) * t :=
  let results := index s in
  let results := filter_type q results in
  let results := filter_tags q results in
  let results := filter_importance q results in
  let results := filter_age q now results in
  let results := sort_desc ix_accessedAt results in
  let results := apply_limit (q_limit q) results in
  let '(entries, s') := load_entries q now results s in
  (Ok entries, s').

Definition delete (i : string) (s : t) : Result bool * t :=
  match files s !! i with
  | Some _ =>
      (Ok true,
       {| index := List.filter (fun r => negb (String.eqb (ix_id r) i)) (index s);
          files := base.delete i (files s);
          nextId := nextId s |})
  | None => (Ok false, s)
  end.

(** [for (const id of toDelete) { try { unlink; count++ } catch { } }] *)
Fixpoint unlink_all (ids : list string) (fs : gmap string MemoryEntry)
    : Z * gmap string MemoryEntry :=
  match ids with
  | [] => (0, fs)
  | i :: rest =>
      match fs !! i with
      | Some _ =>
          let '(n, fs') := unlink_all rest (base.delete i fs) in (n + 1, fs')
      | None => unlink_all rest fs
      end
  end.

Definition prune (maxAge : option Z) (minImportance : option MemoryImportance)
    (now : Z) (s : t) : Result Z * t :=
  let toDelete :=
    map ix_id
      (List.filter
         (fun r => shouldPrune maxAge minImportance now
                     (ix_createdAt r) (ix_importance r))
         (index s)) in
  let '(count, fs) := unlink_all toDelete (files s) in
  (Ok count,
   {| index := List.filter (fun r => negb (list_includes toDelete (ix_id r))) (index s);
      files := fs;
      nextId := nextId s |}).

Definition totalEntries (s : t) : Z := Z.of_nat (length (index s)).

(** [clear(type?)]: the files of the rows concerned are unlinked (a missing
    file is only logged); with a type the count is the number of files
    unlinked and the rows of that type leave the index, without a type the
    count is the number of rows and the index is emptied. *)
Definition clear (ty : option MemoryType) (s : t) : Result Z * t :=
  match ty with
  | Some ty' =>
      let toDelete := List.filter (fun r => MemoryType_eqb (ix_type r) ty') (index s) in
      let '(count, fs) := unlink_all (map ix_id toDelete) (files s) in
      (Ok count,
       {| index := List.filter (fun r => negb (MemoryType_eqb (ix_type r) ty')) (index s);
          files := fs;
          nextId := nextId s |})
  | None =>
      let '(_, fs) := unlink_all (map ix_id (index s)) (files s) in
      (Ok (Z.of_nat (length (index s))),
       {| index := []; files := fs; nextId := nextId s |})
  end.

(** [consolidate()]: nothing to do in the store itself. *)
Definition consolidate (s : t) : Result Z * t := (Ok 0, s).

End FileMemoryStore.

(** ** infrastructure/agents/memory/memory-manager.ts

    The manager over the two stores it is constructed with in [index.ts]:
    the in-memory store as [shortTermStore], the file store as
    [longTermStore]. *)
Module MemoryManager.

Record t : Type := {
  shortTermStore : InMemoryMemoryStore.t;
  longTermStore : FileMemoryStore.t;
  consolidationThreshold : Z;
  consolidationImportance : MemoryImportance
}.

(** The constructor, with the defaults of the configuration. *)
Definition create (st : InMemoryMemoryStore.t) (lt : FileMemoryStore.t)
    (threshold : option Z) (imp : option MemoryImportance) : t :=
  {| shortTermStore := st;
     longTermStore := lt;
     consolidationThreshold := default 100 threshold;
     consolidationImportance := default High imp |}.

Definition with_stores (m : t) (st : InMemoryMemoryStore.t) (lt : FileMemoryStore.t) : t :=
  {| shortTermStore := st;
     longTermStore := lt;
     consolidationThreshold := consolidationThreshold m;
     consolidationImportance := consolidationImportance m |}.

Definition retrieve (i : string) (now : Z) (m : t) : Result (option MemoryEntry) * t :=
  let '(shortTermResult, st) := InMemoryMemoryStore.retrieve i now (shortTermStore m) in
  match shortTermResult with
  | Ok (Some entry) => (Ok (Some entry), with_stores m st (longTermStore m))
  | _ =>
      let '(longTermResult, lt) := FileMemoryStore.retrieve i now (longTermStore m) in
      (longTermResult, with_stores m st lt)
  end.

Definition delete (i : string) (m : t) : Result bool * t :=
  let '(shortTermResult, st) := InMemoryMemoryStore.delete i (shortTermStore m) in
  let '(longTermResult, lt) := FileMemoryStore.delete i (longTermStore m) in
  match shortTermResult with
  | Ok true => (Ok true, with_stores m st lt)
  | _ => (longTermResult, with_stores m st lt)
  end.

(** The loop of [consolidate] over the queried memories.  [faults i] is
    what the file system does to the writes of the copy of the memory
    whose id is [i]. *)
Fixpoint consolidate_loop (faults : string -> FileMemoryStore.WriteFault) (now : Z)
    (memories : list MemoryEntry)
    (st : InMemoryMemoryStore.t) (lt : FileMemoryStore.t) (consolidated : Z)
    : Z * InMemoryMemoryStore.t * FileMemoryStore.t :=
  match memories with
  | [] => (consolidated, st, lt)
  | memory :: rest =>
      let '(storeResult, lt1) :=
        FileMemoryStore.store LongTerm (content memory)
          (importance (metadata memory)) (tags (metadata memory))
          now (faults (id memory)) lt in
      if isOk storeResult
      then
        let '(_, st1) := InMemoryMemoryStore.delete (id memory) st in
        consolidate_loop faults now rest st1 lt1 (consolidated + 1)
      else consolidate_loop faults now rest st lt1 consolidated
  end.

Definition consolidation_query (m : t) : MemoryQuery :=
  {| q_type := Some ShortTerm;
     q_tags := None;
     q_minImportance := Some (consolidationImportance m);
     q_maxAge := None;
     q_limit := None;
     q_searchText := None |}.

Definition consolidate (faults : string -> FileMemoryStore.WriteFault) (now : Z) (m : t)
    : Result Z * t :=
  let '(result, st) :=
    InMemoryMemoryStore.query (consolidation_query m) now (shortTermStore m) in
  match result with
  | Err e => (Err e, with_stores m st (longTermStore m))
  | Ok memories =>
      let '(consolidated, st', lt') :=
        consolidate_loop faults now memories st (longTermStore m) 0 in
      (Ok consolidated, with_stores m st' lt')
  end.

Definition maybeConsolidate (faults : string -> FileMemoryStore.WriteFault) (now : Z)
    (m : t) : t :=
  if consolidationThreshold m <=? InMemoryMemoryStore.totalEntries (shortTermStore m)
  then snd (consolidate faults now m)
  else m.

(** [store]: [fault] is what the file system does to the writes of this
    entry when it is routed to the long-term store. *)
Definition store (ty : MemoryType) (c : JsonValue) (imp : MemoryImportance)
    (tgs : list string) (now : Z) (fault : FileMemoryStore.WriteFault)
    (faults : string -> FileMemoryStore.WriteFault) (m : t)
    : Result MemoryEntry * t :=
  let '(result, m1) :=
    match ty with
    | LongTerm | Semantic =>
        let '(r, lt) := FileMemoryStore.store ty c imp tgs now fault (longTermStore m) in
        (r, with_stores m (shortTermStore m) lt)
    | ShortTerm | Episodic =>
        let '(r, st) := InMemoryMemoryStore.store ty c imp tgs now (shortTermStore m) in
        (r, with_stores m st (longTermStore m))
    end in
  if isOk result then (result, maybeConsolidate faults now m1) else (result, m1).

(** [{ ...query }] with [type] set to [ty]. *)
Definition with_type (q : MemoryQuery) (ty : option MemoryType) : MemoryQuery :=
  {| q_type := ty; q_tags := q_tags q; q_minImportance := q_minImportance q;
     q_maxAge := q_maxAge q; q_limit := q_limit q; q_searchText := q_searchText q |}.

Definition shouldQueryShortTerm (q : MemoryQuery) : bool :=
  match q_type q with
  | None | Some ShortTerm | Some Episodic => true
  | Some LongTerm | Some Semantic => false
  end.

Definition shouldQueryLongTerm (q : MemoryQuery) : bool :=
  match q_type q with
  | None | Some LongTerm | Some Semantic => true
  | Some ShortTerm | Some Episodic => false
  end.

(** [results.push(...result.unwrap())] when the result is ok. *)
Definition push_ok {A : Type} (results : list A) (r : Result (list A)) : list A :=
  match r with
  | Ok l => (results ++ l)%list
  | Err _ => results
  end.

(** [query]: both stores are asked with the limit of the query, the answers
    are put together, sorted again and cut to the limit. *)
Definition query (q : MemoryQuery) (now : Z) (m : t) : Result (list MemoryEntry) * t :=
  let results := [] in
  let '(results, st) :=
    if shouldQueryShortTerm q
    then
      let shortTermQuery :=
        match q_type q with
        | Some LongTerm | Some Semantic => with_type q None
        | _ => q
        end in
      let '(shortTermResult, st) :=
        InMemoryMemoryStore.query shortTermQuery now (shortTermStore m) in
      (push_ok results shortTermResult, st)
    else (results, shortTermStore m) in
  let '(results, lt) :=
    if shouldQueryLongTerm q
    then
      let longTermQuery :=
        match q_type q with
        | Some ShortTerm | Some Episodic => with_type q None
        | _ => q
        end in
      let '(longTermResult, lt) :=
        FileMemoryStore.query longTermQuery now (longTermStore m) in
      (push_ok results longTermResult, lt)
    else (results, longTermStore m) in
  let results := sort_desc (fun e => accessedAt (metadata e)) results in
  let results :=
    match truthy_number (q_limit q) with
    | Some limit =>
        if (0 <? limit) && (limit <? Z.of_nat (length results))
        then firstn (Z.to_nat limit) results
        else results
    | None => results
    end in
  (Ok results, with_stores m st lt).

(** [total += result.unwrap()] when the result is ok. *)
Definition add_ok (total : Z) (r : Result Z) : Z :=
  match r with
  | Ok n => total + n
  | Err _ => total
  end.

Definition clear (ty : option MemoryType) (m : t) : Result Z * t :=
  let total := 0 in
  let '(total, st) :=
    match ty with
    | None | Some ShortTerm | Some Episodic =>
        let '(result, st) := InMemoryMemoryStore.clear ty (shortTermStore m) in
        (add_ok total result, st)
    | Some LongTerm | Some Semantic => (total, shortTermStore m)
    end in
  let '(total, lt) :=
    match ty with
    | None | Some LongTerm | Some Semantic =>
        let '(result, lt) := FileMemoryStore.clear ty (longTermStore m) in
        (add_ok total result, lt)
    | Some ShortTerm | Some Episodic => (total, longTermStore m)
    end in
  (Ok total, with_stores m st lt).

(** [prune]: [minImportance] defaults to [Low] here and is handed to both
    stores. *)
Definition prune (maxAge : option Z) (minImportance : option MemoryImportance)
    (now : Z) (m : t) : Result Z * t :=
  let minImportance := default Low minImportance in
  let total := 0 in
  let '(shortTermResult, st) :=
    InMemoryMemoryStore.prune maxAge (Some minImportance) now (shortTermStore m) in
  let total := add_ok total shortTermResult in
  let '(longTermResult, lt) :=
    FileMemoryStore.prune maxAge (Some minImportance) now (longTermStore m) in
  let total := add_ok total longTermResult in
  (Ok total, with_stores m st lt).

End MemoryManager.

(** ** domain/entities/tool.ts *)

(** [Record<string, JsonValue>]: the own keys of the record in the order of
    [Object.keys], each with its value. *)
Definition ToolParams : Type := list (string * JsonValue).

Definition keys {V : Type} (o : list (string * V)) : list string := map fst o.

(** The names every record inherits from [Object.prototype]. *)
Definition object_prototype_names : list string :=
  ["constructor"; "__defineGetter__"; "__defineSetter__"; "hasOwnProperty";
   "__lookupGetter__"; "__lookupSetter__"; "isPrototypeOf"; "propertyIsEnumerable";
   "toString"; "valueOf"; "__proto__"; "toLocaleString"].

(** [k in o]: the operator finds the own keys of the record and the names
    the record inherits. *)
Definition has_key {V : Type} (k : string) (o : list (string * V)) : bool :=
  list_includes (keys o) k || list_includes object_prototype_names k.

Fixpoint get_key {V : Type} (k : string) (o : list (string * V)) : option V :=
  match o with
  | [] => None
  | (k', v) :: rest => if String.eqb k' k then Some v else get_key k rest
  end.

Record ToolResult : Type := {
  success : bool;
  output : option JsonValue;
  error : option string;
  result_metadata : option (list (string * option string))
}.

Record ToolSchema : Type := {
  properties : list (string * JsonValue);
  required : option (list string)
}.

Definition ToolExecutor : Type := ToolParams -> Exc ToolResult.

Record Tool : Type := {
  tool_id : string;
  name : string;
  description : string;
  schema : ToolSchema;
  executor : ToolExecutor
}.

Record Validation : Type := {
  valid : bool;
  errors : option (list string)
}.

Module ToolEntity.

(** The messages [validate] pushes: first one per required parameter that
    is missing, then one per supplied key the schema does not declare. *)
Definition validation_errors (t : Tool) (params : ToolParams) : list string :=
  let missing :=
    match required (schema t) with
    | Some req =>
        map (fun requiredParam => "Missing required parameter: " +:+ requiredParam)
            (List.filter (fun requiredParam => negb (has_key requiredParam params)) req)
    | None => []
    end in
  let unknown :=
    map (fun key => "Unknown parameter: " +:+ key)
        (List.filter (fun key => negb (has_key key (properties (schema t))))
                     (keys params)) in
  missing ++ unknown.

Definition validate (t : Tool) (params : ToolParams) : Validation :=
  let errs := validation_errors t params in
  {| valid := (length errs =? 0)%nat;
     errors := if (0 <? length errs)%nat then Some errs else None |}.

(** [errors?.join(', ')] inside the template string. *)
Definition joined_errors (v : Validation) : string :=
  match errors v with
  | Some errs => join ", " errs
  | None => "undefined"
  end.

Definition execute (t : Tool) (params : ToolParams) : Exc ToolResult :=
  try_catch
    (let validation := validate t params in
     if negb (valid validation)
     then Normal {| success := false;
                    output := None;
                    error := Some ("Invalid parameters: " +:+ joined_errors validation);
                    result_metadata := None |}
     else
       result <- executor t params ;;
       Normal result)
    (fun error =>
       Normal {| success := false;
                 output := None;
                 error := Some (thrown_message error);
                 result_metadata := Some [("stack", thrown_stack error)] |}).

End ToolEntity.

(** ** The tool registry *)
Module ToolRegistryImpl.

(** [tools] is the [Map] keyed by tool id, in insertion order ([list()]
    reads it in that order); [toolsByName] is the [Map] keyed by name. *)
Record t : Type := {
  tools : list (string * Tool);
  toolsByName : gmap string Tool
}.

Definition empty : t := {| tools := []; toolsByName := ∅ |}.

(** [Map.prototype.set] on the insertion-ordered map. *)
Fixpoint ordered_set (k : string) (v : Tool) (m : list (string * Tool))
    : list (string * Tool) :=
  match m with
  | [] => [(k, v)]
  | (k', v') :: rest =>
      if String.eqb k' k then (k, v) :: rest else (k', v') :: ordered_set k v rest
  end.

Definition register (tool : Tool) (r : t) : t :=
  {| tools := ordered_set (tool_id tool) tool (tools r);
     toolsByName := <[name tool := tool]> (toolsByName r) |}.

Definition list (r : t) : list Tool := map snd (tools r).

(** [Map.prototype.get], [has] and [delete] on the insertion-ordered map. *)
Fixpoint ordered_get (k : string) (m : Datatypes.list (string * Tool)) : option Tool :=
  match m with
  | [] => None
  | (k', v) :: rest => if String.eqb k' k then Some v else ordered_get k rest
  end.

Definition ordered_has (k : string) (m : Datatypes.list (string * Tool)) : bool :=
  existsb (fun kv => String.eqb (fst kv) k) m.

Definition ordered_delete (k : string) (m : Datatypes.list (string * Tool))
    : Datatypes.list (string * Tool) :=
  List.filter (fun kv => negb (String.eqb (fst kv) k)) m.

Definition get (i : string) (r : t) : option Tool := ordered_get i (tools r).

Definition has (i : string) (r : t) : bool := ordered_has i (tools r).

(** [unregister]: the answer is that of [tools.delete]. *)
Definition unregister (i : string) (r : t) : bool * t :=
  match get i r with
  | None => (false, r)
  | Some tool =>
      (ordered_has i (tools r),
       {| tools := ordered_delete i (tools r);
          toolsByName := base.delete (name tool) (toolsByName r) |})
  end.

Definition getByName (nm : string) (r : t) : option Tool := toolsByName r !! nm.

Definition execute (r : t) (nm : string) (params : ToolParams) : Exc ToolResult :=
  match toolsByName r !! nm with
  | None =>
      Normal {| success := false;
                output := None;
                error := Some ("Tool not found: " +:+ nm);
                result_metadata := None |}
  | Some tool =>
      try_catch
        (result <- ToolEntity.execute tool params ;;
         Normal result)
        (fun error =>
           Normal {| success := false;
                     output := None;
                     error := Some (thrown_message error);
                     result_metadata := None |})
  end.

End ToolRegistryImpl.

(** ** The built-in calculator tool *)
Module Calculator.

(** A character of the class [[\d+\-*/().\s]]: a digit, one of
    [+ - * / ( ) .], or white space (among the code units below 256: 9 to
    13, 32 and 160). *)
Definition allowed_char (c : ascii) : bool :=
  let n := N_of_ascii c in
  (((48 <=? n) && (n <=? 57))
   || (n =? 43) || (n =? 45) || (n =? 42) || (n =? 47)
   || (n =? 40) || (n =? 41) || (n =? 46)
   || ((9 <=? n) && (n <=? 13)) || (n =? 32) || (n =? 160))%N.

(** [/^[\d+\-*/().\s]+$/.test(expression)] *)
Definition regex_test (expression : string) : bool :=
  match expression with
  | EmptyString => false
  | _ => forallb allowed_char (list_ascii_of_string expression)
  end.

Definition invalid_expression : ToolResult :=
  {| success := false;
     output := None;
     error := Some "Invalid expression. Only numbers and basic operators are allowed.";
     result_metadata := None |}.

Definition calculatorSchema : ToolSchema :=
  {| properties := [("expression", JObject [("type", JString "string")])];
     required := Some ["expression"] |}.

Section Executor.
(** The host: [Function(`'use strict'; return (${expression})`)()], the
    value returned or the exception thrown. *)
Variable hostEval : string -> Exc JsonValue.

Definition calculatorExecutor (params : ToolParams) : Exc ToolResult :=
  try_catch
    (let expression := js_String_opt (get_key "expression" params) in
     if negb (regex_test expression)
     then Normal invalid_expression
     else
       result <- hostEval expression ;;
       Normal {| success := true;
                 output := Some result;
                 error := None;
                 result_metadata := None |})
    (fun error =>
       Normal {| success := false;
                 output := None;
                 error := Some (thrown_message error);
                 result_metadata := None |}).

Definition createCalculatorTool : Tool :=
  {| tool_id := "tool-calculator";
     name := "calculator";
     description :=
       "Perform basic mathematical calculations. Supports +, -, *, /, and parentheses.";
     schema := calculatorSchema;
     executor := calculatorExecutor |}.
End Executor.

(** *** What the host does on integer arithmetic

    A reference for the host on the source text [`(${expression})`] when
    the expression is made of decimal integer literals without leading
    zero, [+], [-], [*], parentheses, spaces and tabs, and every number
    met stays within the integers a double holds exactly.  Outside this
    fragment (division, decimal points, line breaks, [**], [++], [--],
    calls such as [2 (3)]) the reference says nothing: [Unmodelled]. *)
Inductive Token : Type :=
| TNum (n : Z) | TPlus | TMinus | TStar | TLParen | TRParen.

Inductive Evaluation : Type :=
| Value (v : Z)
| SyntaxError
| Unmodelled.

Definition starts_with (c : ascii) (s : string) : bool :=
  match s with
  | String d _ => Ascii.eqb c d
  | EmptyString => false
  end.

Definition flush (cur : option Z) (ts : list Token) : list Token :=
  match cur with
  | Some n => TNum n :: ts
  | None => ts
  end.

(** [cur] is the value of the digits of the literal being read. *)
Fixpoint lex (s : string) (cur : option Z) : option (list Token) :=
  match s with
  | EmptyString => Some (flush cur [])
  | String c rest =>
      let n := N_of_ascii c in
      if ((48 <=? n) && (n <=? 57))%N then
        match cur with
        | Some 0 => None
        | Some v => lex rest (Some (10 * v + Z.of_N (n - 48)))
        | None => lex rest (Some (Z.of_N (n - 48)))
        end
      else
        let continue (t : list Token) :=
          match lex rest None with
          | Some ts => Some (flush cur (t ++ ts))
          | None => None
          end in
        if ((n =? 32) || (n =? 9))%N then continue []
        else if (n =? 43)%N then if starts_with c rest then None else continue [TPlus]
        else if (n =? 45)%N then if starts_with c rest then None else continue [TMinus]
        else if (n =? 42)%N then if starts_with c rest then None else continue [TStar]
        else if (n =? 40)%N then continue [TLParen]
        else if (n =? 41)%N then continue [TRParen]
        else None
  end.

(** A literal or a closing parenthesis directly followed by an opening
    one would be a call. *)
Fixpoint has_call (ts : list Token) : bool :=
  match ts with
  | TNum _ :: TLParen :: _ => true
  | TRParen :: TLParen :: _ => true
  | _ :: rest => has_call rest
  | [] => false
  end.

Definition max_safe : Z := 9007199254740992.

Definition in_range (v : Z) : bool := (- max_safe <=? v) && (v <=? max_safe).

Inductive Mode : Type :=
| Additive
| AdditiveTail (acc : Z)
| Multiplicative
| MultiplicativeTail (acc : Z)
| Unary.

Inductive ParseOutcome : Type :=
| Parsed (v : Z) (rest : list Token)
| ParseError
| GaveUp.

Definition checked (v : Z) (rest : list Token) : ParseOutcome :=
  if in_range v then Parsed v rest else GaveUp.

Fixpoint parse (fuel : nat) (mode : Mode) (ts : list Token) : ParseOutcome :=
  match fuel with
  | O => GaveUp
  | S f =>
      match mode with
      | Additive =>
          match parse f Multiplicative ts with
          | Parsed v rest => parse f (AdditiveTail v) rest
          | other => other
          end
      | AdditiveTail acc =>
          match ts with
          | TPlus :: rest =>
              match parse f Multiplicative rest with
              | Parsed v rest' =>
                  if in_range (acc + v) then parse f (AdditiveTail (acc + v)) rest'
                  else GaveUp
              | other => other
              end
          | TMinus :: rest =>
              match parse f Multiplicative rest with
              | Parsed v rest' =>
                  if in_range (acc - v) then parse f (AdditiveTail (acc - v)) rest'
                  else GaveUp
              | other => other
              end
          | _ => Parsed acc ts
          end
      | Multiplicative =>
          match parse f Unary ts with
          | Parsed v rest => parse f (MultiplicativeTail v) rest
          | other => other
          end
      | MultiplicativeTail acc =>
          match ts with
          | TStar :: rest =>
              match parse f Unary rest with
              | Parsed v rest' =>
                  if in_range (acc * v) then parse f (MultiplicativeTail (acc * v)) rest'
                  else GaveUp
              | other => other
              end
          | _ => Parsed acc ts
          end
      | Unary =>
          match ts with
          | TPlus :: rest => parse f Unary rest
          | TMinus :: rest =>
              match parse f Unary rest with
              | Parsed v rest' => Parsed (- v) rest'
              | other => other
              end
          | TNum n :: rest => checked n rest
          | TLParen :: rest =>
              match parse f Additive rest with
              | Parsed v (TRParen :: rest') => Parsed v rest'
              | Parsed _ _ => ParseError
              | other => other
              end
          | _ => ParseError
          end
      end
  end.

Definition evalArithmetic (expression : string) : Evaluation :=
  match lex ("(" +:+ expression +:+ ")") None with
  | None => Unmodelled
  | Some ts =>
      if has_call ts then Unmodelled
      else
        match parse (4 * length ts + 8) Additive ts with
        | Parsed v [] => Value v
        | Parsed _ (_ :: _) => SyntaxError
        | ParseError => SyntaxError
        | GaveUp => Unmodelled
        end
  end.

(** A host that behaves as the reference says wherever it says
    something.  The text of the exception is the engine's own. *)
Definition agrees (hostEval : string -> Exc JsonValue) : Prop :=
  forall expression,
    match evalArithmetic expression with
    | Value v => hostEval expression = Normal (JNumber v)
    | SyntaxError => exists message stack, hostEval expression = Raise (ErrorObject message stack)
    | Unmodelled => True
    end.

(** One such host. *)
Definition referenceHost (expression : string) : Exc JsonValue :=
  match evalArithmetic expression with
  | Value v => Normal (JNumber v)
  | SyntaxError => Raise (ErrorObject "Unexpected token" "SyntaxError: Unexpected token")
  | Unmodelled => Raise (ErrorObject "unmodelled expression" "")
  end.

End Calculator.

(** ** domain/entities/task.ts (the part the agent loop uses) *)

Inductive TaskStatus : Type := Pending | Running | Completed | Failed | Cancelled.

Record TaskResult : Type := {
  task_success : bool;
  task_output : option JsonValue;
  task_error : option string
}.

Record Task : Type := {
  task_description : string;
  status : TaskStatus;
  result : option TaskResult
}.

(** White space as [String.prototype.trim] sees it, among the code units
    below 256. *)
Definition is_space (c : ascii) : bool :=
  let n := N_of_ascii c in
  (((9 <=? n) && (n <=? 13)) || (n =? 32) || (n =? 160))%N.

(** [!description || description.trim().length === 0] *)
Definition is_blank (s : string) : bool :=
  forallb is_space (list_ascii_of_string s).

Module TaskEntity.

(** The constructor throws an [InvalidEntityError] on a blank description. *)
Definition create (description : string) : Exc Task :=
  if is_blank description
  then Raise (ErrorObject "Task description cannot be empty" "InvalidEntityError")
  else Normal {| task_description := description; status := Pending; result := None |}.

Definition updateStatus (st : TaskStatus) (t : Task) : Task :=
  {| task_description := task_description t; status := st; result := result t |}.

Definition setResult (r : TaskResult) (t : Task) : Task :=
  updateStatus (if task_success r then Completed else Failed)
    {| task_description := task_description t; status := status t; result := Some r |}.

End TaskEntity.

(** The times a task keeps in its metadata. *)
Record TaskMetadata : Type := {
  task_createdAt : Z;
  task_updatedAt : Z;
  task_startedAt : option Z;
  task_completedAt : option Z;
  task_duration : option Z
}.

(** A task with its metadata; [now] is the reading of the clock during the
    call. *)
Record TimedTask : Type := {
  entity : Task;
  task_metadata : TaskMetadata
}.

(** [!x] on an optional date. *)
Definition absent {A : Type} (o : option A) : bool :=
  match o with
  | None => true
  | Some _ => false
  end.

Definition is_terminal (st : TaskStatus) : bool :=
  match st with
  | Completed | Failed | Cancelled => true
  | Pending | Running => false
  end.

Module TimedTaskEntity.

(** The constructor, called without metadata. *)
Definition create (description : string) (now : Z) : Exc TimedTask :=
  task <- TaskEntity.create description ;;
  Normal {| entity := task;
            task_metadata := {| task_createdAt := now; task_updatedAt := now;
                                task_startedAt := None; task_completedAt := None;
                                task_duration := None |} |}.

(** What [updateStatus] does to the metadata. *)
Definition update_times (st : TaskStatus) (now : Z) (m : TaskMetadata) : TaskMetadata :=
  let startedAt :=
    match st, task_startedAt m with
    | Running, None => Some now
    | _, started => started
    end in
  if is_terminal st && absent (task_completedAt m)
  then {| task_createdAt := task_createdAt m;
          task_updatedAt := now;
          task_startedAt := startedAt;
          task_completedAt := Some now;
          task_duration :=
            match startedAt with
            | Some started => Some (now - started)
            | None => task_duration m
            end |}
  else {| task_createdAt := task_createdAt m;
          task_updatedAt := now;
          task_startedAt := startedAt;
          task_completedAt := task_completedAt m;
          task_duration := task_duration m |}.

Definition updateStatus (st : TaskStatus) (now : Z) (t : TimedTask) : TimedTask :=
  {| entity := TaskEntity.updateStatus st (entity t);
     task_metadata := update_times st now (task_metadata t) |}.

Definition setResult (r : TaskResult) (now : Z) (t : TimedTask) : TimedTask :=
  {| entity := TaskEntity.setResult r (entity t);
     task_metadata :=
       update_times (if task_success r then Completed else Failed) now (task_metadata t) |}.

Definition isComplete (t : TimedTask) : bool := is_terminal (status (entity t)).

Definition isRunning (t : TimedTask) : bool :=
  match status (entity t) with
  | Running => true
  | _ => false
  end.

End TimedTaskEntity.

(** ** application/ports: the collaborators of the agent loop *)

Inductive MessageRole : Type := RoleSystem | RoleUser | RoleAssistant | RoleTool.

Record Message : Type := {
  role : MessageRole;
  message_content : string
}.

Record ToolCall : Type := {
  call_id : string;
  call_name : string;
  arguments : ToolParams
}.

Record ToolDefinition : Type := {
  def_name : string;
  def_description : string;
  def_parameters : ToolSchema
}.

Record CompletionRequest : Type := {
  messages : list Message;
  request_tools : option (list ToolDefinition);
  toolChoice : option string
}.

Record CompletionResponse : Type := {
  response_content : string;
  toolCalls : option (list ToolCall)
}.

Record Iteration : Type := {
  number : Z;
  thought : string;
  action : string;
  actionInput : ToolParams;
  observation : option string;
  timestamp : Z
}.

Record ExecuteAgentResponse : Type := {
  executionId : string;
  response_success : bool;
  response_output : JsonValue;
  response_error : option string;
  iterations : list Iteration;
  metadata_iterations : Z
}.

Record Agent : Type := {
  agent_name : string;
  agent_description : string;
  systemPrompt : option string;
  capabilities : list string
}.

(** The memory port as the agent loop uses it: [store] and [query] of a
    [MemoryStore], on the state [M] of the store behind it. *)
Class MemoryStore (M : Type) : Type := {
  port_store : MemoryType -> JsonValue -> MemoryImportance -> list string -> Z -> M ->
               Result MemoryEntry * M;
  port_query : MemoryQuery -> Z -> M -> Result (list MemoryEntry) * M
}.

#[export] Instance InMemory_MemoryStore : MemoryStore InMemoryMemoryStore.t := {
  port_store := InMemoryMemoryStore.store;
  port_query := InMemoryMemoryStore.query
}.

(** shared/constants.ts *)
Definition DEFAULT_MAX_ITERATIONS : Z := 5.

Fixpoint map_exc {A B : Type} (f : A -> Exc B) (l : list A) : Exc (list B) :=
  match l with
  | [] => Normal []
  | x :: rest =>
      y <- f x ;;
      ys <- map_exc f rest ;;
      Normal (y :: ys)
  end.

(** Truthiness of a property read out of a JSON record. *)
Definition js_truthy (v : option JsonValue) : bool :=
  match v with
  | None | Some JNull | Some (JBool false) => false
  | Some (JNumber n) => negb (n =? 0)
  | Some (JString s) => negb (String.eqb s "")
  | Some _ => true
  end.

Definition newline : string := String (ascii_of_N 10) EmptyString.

(** ** application/use-cases/execute-agent.use-case.ts *)
Module ExecuteAgentUseCaseImpl.

Record ExecutionOptions : Type := {
  maxIterations : option Z;
  option_tools : option (list string)
}.

(** The request; [found_agent] is what [agentRepository.findById] returns
    for its [agentId]. *)
Record ExecuteAgentRequest : Type := {
  agentId : string;
  found_agent : option Agent;
  taskDescription : string;
  options : option ExecutionOptions
}.

(** The local variables of the loop; [memory] is the state of the store
    behind [this.memoryStore], when there is one. *)
Record LoopVars (M : Type) : Type := {
  iterationCount : Z;
  completed : bool;
  finalOutput : option string;
  recorded : list Iteration;
  memory : option M
}.
Arguments iterationCount {M} _.
Arguments completed {M} _.
Arguments finalOutput {M} _.
Arguments recorded {M} _.
Arguments memory {M} _.

(** How a block of statements ends: normally, or by a throw; in both
    cases with the variables as they are at that point. *)
Inductive Ending (M : Type) : Type :=
| Finished (vars : LoopVars M)
| Threw (e : Thrown) (vars : LoopVars M).
Arguments Finished {M} vars.
Arguments Threw {M} e vars.

(** What a call of [execute] leaves behind: the value it returns, the
    [task] object and the [iterations] array of the call, and the memory
    store. *)
Record Execution (M : Type) : Type := {
  returned : Result ExecuteAgentResponse;
  final_task : option Task;
  final_iterations : list Iteration;
  final_memory : option M
}.
Arguments returned {M} _.
Arguments final_task {M} _.
Arguments final_iterations {M} _.
Arguments final_memory {M} _.

Section UseCase.
Context {M : Type} `{MemoryStore M}.

(** [llmProvider k request]: what [generateCompletion(request)] does
    when called in iteration [k]. *)
Variable llmProvider : Z -> CompletionRequest -> Exc CompletionResponse.
Variable toolRegistry : ToolRegistryImpl.t.
(** [clock k]: the reading of the wall clock during iteration [k]. *)
Variable clock : Z -> Z.
(** [Date.prototype.toISOString] *)
Variable toISOString : Z -> string.
(** [ExecutionId.create().toString()] *)
Variable newExecutionId : string.

Definition default_prompt (agent : Agent) : string :=
  "You are " +:+ agent_name agent +:+ ". " +:+ agent_description agent
  +:+ newline +:+ newline
  +:+ "When solving tasks:" +:+ newline
  +:+ "1. Think step by step about what you need to do" +:+ newline
  +:+ "2. Use available tools when needed" +:+ newline
  +:+ "3. When you have the final answer, respond directly without using tools"
  +:+ newline +:+ newline
  +:+ "Your capabilities: " +:+ join ", " (capabilities agent).

(** The line for one remembered tool execution; reading [content.tool]
    off a [null] content throws a [TypeError]. *)
Definition memory_line (mem : MemoryEntry) : Exc string :=
  match content mem with
  | JNull =>
      Raise (ErrorObject "Cannot read properties of null (reading 'tool')" "TypeError")
  | JObject fields =>
      Normal ("Past observation: Used " +:+ js_String_opt (get_key "tool" fields)
              +:+ " - "
              +:+ (if js_truthy (get_key "success" fields) then "succeeded" else "failed"))
  | _ => Normal "Past observation: Used undefined - failed"
  end.

Definition memory_query : MemoryQuery :=
  {| q_type := Some Episodic;
     q_tags := None;
     q_minImportance := Some Medium;
     q_maxAge := None;
     q_limit := Some 5;
     q_searchText := None |}.

Definition replay (iteration : Iteration) : list Message :=
  {| role := RoleAssistant; message_content := thought iteration |}
  :: (if String.eqb (action iteration) "final_answer" then []
      else [{| role := RoleUser;
               message_content :=
                 "Tool result: " +:+ default "undefined" (observation iteration) |}]).

Definition buildMessages (agent : Agent) (task : Task) (its : list Iteration)
    (now : Z) (mem : option M) : Exc (list Message) * option M :=
  let head :=
    [ {| role := RoleSystem;
         message_content :=
           default (default_prompt agent) (truthy_string (systemPrompt agent)) |};
      {| role := RoleUser; message_content := task_description task |} ] in
  let tail := concat (map replay its) in
  match mem with
  | None => (Normal (head ++ tail)%list, None)
  | Some m =>
      let '(memoryResult, m') := port_query memory_query now m in
      match memoryResult with
      | Ok ((_ :: _) as memories) =>
          (lines <- map_exc memory_line memories ;;
           Normal (head
                   ++ [{| role := RoleSystem;
                          message_content :=
                            "Relevant past experience:" +:+ newline
                            +:+ join newline lines |}]
                   ++ tail)%list,
           Some m')
      | _ => (Normal (head ++ tail)%list, Some m')
      end
  end.

(** The content of the episodic memory of one tool execution. *)
Definition tool_memory (toolCall : ToolCall) (toolResult : ToolResult) (now : Z)
    : JsonValue :=
  JObject
    ([("type", JString "tool_execution");
      ("tool", JString (call_name toolCall));
      ("input", JObject (arguments toolCall))]
     ++ match output toolResult with
        | Some o => [("output", o)]
        | None => []
        end
     ++ [("success", JBool (success toolResult));
         ("timestamp", JString (toISOString now))])%list.

(** The body of the [while] loop, from [iterationCount++] on. *)
Definition iterate (agent : Agent) (task : Task)
    (toolDefinitions : list ToolDefinition) (vars : LoopVars M) : Ending M :=
  let count := iterationCount vars + 1 in
  let now := clock count in
  let at_throw (mem : option M) (its : list Iteration) :=
    {| iterationCount := count; completed := completed vars;
       finalOutput := finalOutput vars; recorded := its; memory := mem |} in
  let '(built, mem1) := buildMessages agent task (recorded vars) now (memory vars) in
  match built with
  | Raise e => Threw e (at_throw mem1 (recorded vars))
  | Normal msgs =>
      let request :=
        {| messages := msgs;
           request_tools :=
             if (0 <? length toolDefinitions)%nat then Some toolDefinitions else None;
           toolChoice :=
             if (0 <? length toolDefinitions)%nat then Some "auto" else None |} in
      match llmProvider count request with
      | Raise e => Threw e (at_throw mem1 (recorded vars))
      | Normal response =>
          let thought := response_content response in
          match toolCalls response with
          | Some (toolCall :: _) =>
              match ToolRegistryImpl.execute toolRegistry (call_name toolCall)
                      (arguments toolCall) with
              | Raise e => Threw e (at_throw mem1 (recorded vars))
              | Normal toolResult =>
                  let observation :=
                    if success toolResult
                    then option_map JSON_stringify (output toolResult)
                    else Some ("Error: " +:+ default "undefined" (error toolResult)) in
                  let its :=
                    (recorded vars
                     ++ [{| number := count; thought := thought;
                            action := call_name toolCall;
                            actionInput := arguments toolCall;
                            observation := observation;
                            timestamp := now |}])%list in
                  let mem2 :=
                    match mem1 with
                    | Some m =>
                        Some (snd (port_store Episodic
                                     (tool_memory toolCall toolResult now)
                                     (if success toolResult then Medium else Low)
                                     ["tool"; call_name toolCall; newExecutionId]
                                     now m))
                    | None => None
                    end in
                  Finished {| iterationCount := count; completed := false;
                              finalOutput := finalOutput vars;
                              recorded := its; memory := mem2 |}
              end
          | _ =>
              Finished
                {| iterationCount := count; completed := true;
                   finalOutput := Some thought;
                   recorded :=
                     (recorded vars
                      ++ [{| number := count; thought := thought;
                             action := "final_answer"; actionInput := [];
                             observation := Some thought; timestamp := now |}])%list;
                   memory := mem1 |}
          end
      end
  end.

(** [while (iterationCount < maxIterations && !completed) { ... }];
    [remaining] is the number of iterations the bound still allows,
    [maxIterations - iterationCount]. *)
Fixpoint agentLoop (agent : Agent) (task : Task)
    (toolDefinitions : list ToolDefinition) (remaining : nat) (vars : LoopVars M)
    : Ending M :=
  match remaining with
  | O => Finished vars
  | S remaining' =>
      if completed vars then Finished vars
      else
        match iterate agent task toolDefinitions vars with
        | Finished vars' => agentLoop agent task toolDefinitions remaining' vars'
        | Threw e vars' => Threw e vars'
        end
  end.

Definition getToolDefinition (tool : Tool) : ToolDefinition :=
  {| def_name := name tool;
     def_description := description tool;
     def_parameters := schema tool |}.

Definition availableTools (request : ExecuteAgentRequest) : list Tool :=
  match options request with
  | Some {| option_tools := Some names |} =>
      omap (fun nm => ToolRegistryImpl.getByName nm toolRegistry) names
  | _ => ToolRegistryImpl.list toolRegistry
  end.

Definition requested_maxIterations (request : ExecuteAgentRequest) : Z :=
  match options request with
  | Some {| maxIterations := Some n |} => n
  | _ => DEFAULT_MAX_ITERATIONS
  end.

(** The variables of the loop before its first iteration. *)
Definition initial_vars (mem : option M) : LoopVars M :=
  {| iterationCount := 0; completed := false; finalOutput := None;
     recorded := []; memory := mem |}.

Definition execute (request : ExecuteAgentRequest) (mem : option M) : Execution M :=
  match found_agent request with
  | None =>
      {| returned := Err (ErrorObject ("Agent not found: " +:+ agentId request) "");
         final_task := None; final_iterations := []; final_memory := mem |}
  | Some agent =>
      match TaskEntity.create (taskDescription request) with
      | Raise e =>
          {| returned := Err (as_error e);
             final_task := None; final_iterations := []; final_memory := mem |}
      | Normal task0 =>
          let task := TaskEntity.updateStatus Running task0 in
          let toolDefinitions := map getToolDefinition (availableTools request) in
          let maxIter := requested_maxIterations request in
          match agentLoop agent task toolDefinitions (Z.to_nat maxIter)
                  (initial_vars mem) with
          | Threw e vars =>
              {| returned := Err (as_error e);
                 final_task := Some task;
                 final_iterations := recorded vars;
                 final_memory := memory vars |}
          | Finished vars =>
              let task' :=
                if completed vars
                then TaskEntity.setResult
                       {| task_success := true;
                          task_output := option_map JString (finalOutput vars);
                          task_error := None |}
                       (TaskEntity.updateStatus Completed task)
                else TaskEntity.setResult
                       {| task_success := false;
                          task_output := None;
                          task_error :=
                            Some "Maximum iterations reached without completion" |}
                       (TaskEntity.updateStatus Failed task) in
              {| returned :=
                   Ok {| executionId := newExecutionId;
                         response_success := completed vars;
                         response_output :=
                           match finalOutput vars with
                           | Some text => JString text
                           | None => JNull
                           end;
                         response_error :=
                           if completed vars then None
                           else Some "Maximum iterations reached";
                         iterations := recorded vars;
                         metadata_iterations := iterationCount vars |};
                 final_task := Some task';
                 final_iterations := recorded vars;
                 final_memory := memory vars |}
          end
      end
  end.

End UseCase.
End ExecuteAgentUseCaseImpl.

(** ** infrastructure/workflows/engine/step-executor.ts: the agent step *)

Inductive StepStatus : Type :=
  StepPending | StepRunning | StepCompleted | StepFailed | StepSkipped.

Record StepResult : Type := {
  stepId : string;
  step_status : StepStatus;
  step_output : option JsonValue;
  step_error : option string;
  step_startedAt : Z;
  step_completedAt : Z;
  step_duration : Z
}.

(** [Id]'s constructor behind [AgentId.from]. *)
Definition AgentId_from (value : string) : Exc string :=
  if is_blank value
  then Raise (ErrorObject "ID cannot be empty" "InvalidValueObjectError")
  else Normal value.

Module AgentStepExecutor.

(** The entries of [step.config] the agent step reads, each with the type
    its cast gives it; an entry is [None] when the record lacks it. *)
Record AgentStepConfig : Type := {
  cfg_agentId : option string;
  cfg_taskDescription : option string;
  cfg_maxIterations : option Z;
  cfg_tools : option (list string)
}.

Record WorkflowStepConfig : Type := {
  step_id : string;
  step_name : string;
  config : option AgentStepConfig
}.

Section Step.
Context {M : Type} `{MemoryStore M}.
Variable llmProvider : Z -> CompletionRequest -> Exc CompletionResponse.
Variable toolRegistry : ToolRegistryImpl.t.
Variable clock : Z -> Z.
Variable toISOString : Z -> string.
Variable newExecutionId : string.
(** [agentRepository.findById] of the use case. *)
Variable findById : string -> option Agent.

(** The request the step hands to the use case. *)
Definition agent_request (step : WorkflowStepConfig) (agentId taskDescription : string)
    : ExecuteAgentUseCaseImpl.ExecuteAgentRequest :=
  {| ExecuteAgentUseCaseImpl.agentId := agentId;
     ExecuteAgentUseCaseImpl.found_agent := findById agentId;
     ExecuteAgentUseCaseImpl.taskDescription := taskDescription;
     ExecuteAgentUseCaseImpl.options :=
       Some {| ExecuteAgentUseCaseImpl.maxIterations :=
                 Some (default 5 (config step ≫= cfg_maxIterations));
               ExecuteAgentUseCaseImpl.option_tools := config step ≫= cfg_tools |} |}.

(** The body of the [try] block: what it returns or throws, and the memory
    store after it.  [result.unwrap()] on an error result throws the
    error. *)
Definition attempt (step : WorkflowStepConfig) (startedAt completedAt : Z)
    (mem : option M) : Exc StepResult * option M :=
  match truthy_string (config step ≫= cfg_agentId) with
  | None => (Raise (ErrorObject "Agent step requires agentId in config" ""), mem)
  | Some agentIdStr =>
      match AgentId_from agentIdStr with
      | Raise e => (Raise e, mem)
      | Normal agentId =>
          match truthy_string (config step ≫= cfg_taskDescription) with
          | None =>
              (Raise (ErrorObject "Agent step requires taskDescription in config" ""), mem)
          | Some taskDescription =>
              let ex :=
                ExecuteAgentUseCaseImpl.execute llmProvider toolRegistry clock
                  toISOString newExecutionId
                  (agent_request step agentId taskDescription) mem in
              match ExecuteAgentUseCaseImpl.returned ex with
              | Ok response =>
                  (Normal {| stepId := step_id step;
                             step_status :=
                               if response_success response
                               then StepCompleted else StepFailed;
                             step_output := Some (response_output response);
                             step_error := response_error response;
                             step_startedAt := startedAt;
                             step_completedAt := completedAt;
                             step_duration := completedAt - startedAt |},
                   ExecuteAgentUseCaseImpl.final_memory ex)
              | Err error => (Raise error, ExecuteAgentUseCaseImpl.final_memory ex)
              end
          end
      end
  end.

Definition execute (step : WorkflowStepConfig) (startedAt completedAt : Z)
    (mem : option M) : Exc StepResult * option M :=
  let '(outcome, mem') := attempt step startedAt completedAt mem in
  (try_catch outcome
     (fun error =>
        Normal {| stepId := step_id step;
                  step_status := StepFailed;
                  step_output := None;
                  step_error := Some (thrown_message error);
                  step_startedAt := startedAt;
                  step_completedAt := completedAt;
                  step_duration := completedAt - startedAt |}),
   mem').

End Step.
End AgentStepExecutor.

(** ** The file store when it starts: [initialize] *)

(** [String.prototype.split('-')] *)
Fixpoint split_dash (s : string) : list string :=
  match s with
  | EmptyString => [EmptyString]
  | String c rest =>
      if Ascii.eqb c "-" then EmptyString :: split_dash rest
      else match split_dash rest with
           | first :: others => String c first :: others
           | [] => [String c EmptyString]
           end
  end.

Definition digit_value (c : ascii) : option Z :=
  let n := N_of_ascii c in
  if ((48 <=? n) && (n <=? 57))%N then Some (Z.of_N n - 48) else None.

(** The digits at the head of [s], read in base ten after [acc]. *)
Fixpoint parse_digits (acc : Z) (s : string) : Z :=
  match s with
  | EmptyString => acc
  | String c rest =>
      match digit_value c with
      | Some d => parse_digits (10 * acc + d) rest
      | None => acc
      end
  end.

Fixpoint skip_space (s : string) : string :=
  match s with
  | EmptyString => EmptyString
  | String c rest => if is_space c then skip_space rest else s
  end.

Definition starts_with_digit (s : string) : bool :=
  match s with
  | String c _ => match digit_value c with Some _ => true | None => false end
  | EmptyString => false
  end.

(** [parseInt(s, 10)], [None] for [NaN]: leading white space, a sign, then
    the digits up to the first other character. *)
Definition parseInt (s : string) : option Z :=
  let s := skip_space s in
  let '(negative, digits) :=
    match s with
    | String c rest =>
        if Ascii.eqb c "-" then (true, rest)
        else if Ascii.eqb c "+" then (false, rest)
        else (false, s)
    | EmptyString => (false, s)
    end in
  if starts_with_digit digits
  then Some (if negative then - parse_digits 0 digits else parse_digits 0 digits)
  else None.

(** [Number.MAX_SAFE_INTEGER]: up to it, and down to its opposite, every
    integer is a double, and adding 1 to such a number is exact. *)
Definition MAX_SAFE_INTEGER : Z := 2 ^ 53 - 1.

(** [Number.isSafeInteger(n)] *)
Definition isSafeInteger (n : Z) : bool :=
  (- MAX_SAFE_INTEGER <=? n) && (n <=? MAX_SAFE_INTEGER).

Module FileMemoryStoreStart.

(** [parseInt(mem.id.split('-')[1] ?? '0', 10)], the integer the digits
    spell. *)
Definition idNum (i : string) : option Z := parseInt (nth 1 (split_dash i) "0").

(** One turn of the loop over the rows of the index loaded.  The numbers of
    the code are doubles: where the digits spell an integer that is not
    safe, the code holds a rounded number, and the turn is left undefined
    ([None]). *)
Definition next_step (nextId : Z) (mem : FileMemoryStore.IndexEntry) : option Z :=
  match idNum (FileMemoryStore.ix_id mem) with
  | Some n =>
      if isSafeInteger n
      then Some (if nextId <=? n then n + 1 else nextId)
      else None
  | None => Some nextId
  end.

(** The loop: [nextId] after it. *)
Fixpoint next_after (rows : list FileMemoryStore.IndexEntry) (nextId : Z) : option Z :=
  match rows with
  | [] => Some nextId
  | mem :: rest =>
      match next_step nextId mem with
      | Some next => next_after rest next
      | None => None
      end
  end.

(** [initialize] of a store not yet initialised, over the files [fs] of
    its directory; [saved] is the index parsed from [index.json], [None]
    when the file cannot be read. *)
Definition initialize (saved : option (list FileMemoryStore.IndexEntry))
    (fs : gmap string MemoryEntry) : option FileMemoryStore.t :=
  match saved with
  | Some rows =>
      match next_after rows 1 with
      | Some next =>
          Some {| FileMemoryStore.index := rows;
                  FileMemoryStore.files := fs;
                  FileMemoryStore.nextId := next |}
      | None => None
      end
  | None =>
      Some {| FileMemoryStore.index := [];
              FileMemoryStore.files := fs;
              FileMemoryStore.nextId := 1 |}
  end.

End FileMemoryStoreStart.

(** * Predicates of the statements and example objects *)

Definition failure (message : string) : ToolResult :=
  {| success := false; output := None; error := Some message; result_metadata := None |}.

(** What [Tool.execute] returns when validation fails: a function of the
    schema and the parameters alone. *)
Definition invalid_parameters (t : Tool) (params : ToolParams) : ToolResult :=
  failure ("Invalid parameters: " +:+ join ", " (ToolEntity.validation_errors t params)).

(** What [Tool.execute] makes of an exception of the executor. *)
Definition caught (e : Thrown) : ToolResult :=
  {| success := false; output := None; error := Some (thrown_message e);
     result_metadata := Some [("stack", thrown_stack e)] |}.

(** A required name that [in] does not find in the parameters; a supplied
    key that [in] does not find in the properties of the schema. *)
Definition missing_required (t : Tool) (params : ToolParams) : Prop :=
  exists k, In k (default [] (required (schema t))) /\ has_key k params = false.

Definition unknown_key (t : Tool) (params : ToolParams) : Prop :=
  exists k, In k (keys params) /\ has_key k (properties (schema t)) = false.

(** The tool [t] with another executor. *)
Definition with_executor (ex : ToolExecutor) (t : Tool) : Tool :=
  {| tool_id := tool_id t; name := name t; description := description t;
     schema := schema t; executor := ex |}.

(** A tool whose executor throws. *)
Definition throwing_tool : Tool :=
  {| tool_id := "tool-boom";
     name := "boom";
     description := "Always throws.";
     schema := {| properties := [("x", JObject [])]; required := None |};
     executor := fun _ => Raise (ErrorObject "kaboom" "Error: kaboom") |}.

Definition echo_tool : Tool :=
  {| tool_id := "tool-echo";
     name := "echo";
     description := "Echo back the input message. Useful for testing.";
     schema := {| properties := [("message", JObject [("type", JString "string")])];
                  required := Some ["message"] |};
     executor := fun params =>
       Normal {| success := true; output := get_key "message" params;
                 error := None; result_metadata := None |} |}.

(** A tool whose one parameter, required, has a name every record
    inherits. *)
Definition class_tool : Tool :=
  {| tool_id := "tool-class";
     name := "describe_class";
     description := "Describe a class by its constructor.";
     schema := {| properties := [("constructor", JObject [("type", JString "string")])];
                  required := Some ["constructor"] |};
     executor := fun _ =>
       Normal {| success := true; output := Some (JString "described");
                 error := None; result_metadata := None |} |}.

Definition example_registry : ToolRegistryImpl.t :=
  ToolRegistryImpl.register echo_tool
    (ToolRegistryImpl.register throwing_tool ToolRegistryImpl.empty).

(** The calculator tool, run through [Tool.execute] on the parameter record
    [{ expression }]. *)
Definition calculator (hostEval : string -> Exc JsonValue) (expression : string)
    : Exc ToolResult :=
  ToolEntity.execute (Calculator.createCalculatorTool hostEval)
    [("expression", JString expression)].

Definition succeeded (v : JsonValue) : ToolResult :=
  {| success := true; output := Some v; error := None; result_metadata := None |}.

(** The expression has a character outside the class the tool allows. *)
Definition has_forbidden_char (expression : string) : Prop :=
  exists c, In c (list_ascii_of_string expression) /\ Calculator.allowed_char c = false.

(** The iteration records a returned value carries: those of the response,
    none for an error (an [Err] holds the [Error] alone). *)
Definition carried_iterations (r : Result ExecuteAgentResponse) : option (list Iteration) :=
  match r with
  | Ok response => Some (iterations response)
  | Err _ => None
  end.




Definition example_agent : Agent :=
  {| agent_name := "helper";
     agent_description := "Answers questions.";
     systemPrompt := None;
     capabilities := ["custom"] |}.

Definition example_request (bound : option Z) : ExecuteAgentUseCaseImpl.ExecuteAgentRequest :=
  {| ExecuteAgentUseCaseImpl.agentId := "agent-1";
     ExecuteAgentUseCaseImpl.found_agent := Some example_agent;
     ExecuteAgentUseCaseImpl.taskDescription := "Say hi twice";
     ExecuteAgentUseCaseImpl.options :=
       Some {| ExecuteAgentUseCaseImpl.maxIterations := bound;
               ExecuteAgentUseCaseImpl.option_tools := None |} |}.

Definition echo_call : CompletionResponse :=
  {| response_content := "I will echo.";
     toolCalls := Some [{| call_id := "call-1"; call_name := "echo";
                           arguments := [("message", JString "hi")] |}] |}.

(** A model that always asks for the echo tool. *)
Definition tool_loving_llm (k : Z) (request : CompletionRequest) : Exc CompletionResponse :=
  Normal echo_call.

(** A model that asks for the echo tool once; its second call fails. *)
Definition flaky_llm (k : Z) (request : CompletionRequest) : Exc CompletionResponse :=
  if k =? 1 then Normal echo_call
  else Raise (ErrorObject "socket hang up" "Error: socket hang up").

Definition example_clock (k : Z) : Z := 1000 + k.



(** [execute] on the example registry. *)
Definition run_example (llm : Z -> CompletionRequest -> Exc CompletionResponse)
    (bound : option Z) (mem : option InMemoryMemoryStore.t)
    : ExecuteAgentUseCaseImpl.Execution InMemoryMemoryStore.t :=
  ExecuteAgentUseCaseImpl.execute llm example_registry example_clock pretty "exec-1"
    (example_request bound) mem.

(** ** Pruning, in the words of the specification *)

Definition below (imp : MemoryImportance) (minImportance : option MemoryImportance) : Prop :=
  importance_value imp < importance_value (default Low minImportance).

(** "(maxAge is given AND the entry's age exceeds maxAge AND its importance
    is below minImportance) OR (maxAge is absent AND its importance is below
    minImportance)", for an entry created at [created] with importance
    [imp], when [prune] runs at [now]. *)
Definition stated_prune (maxAge : option Z) (minImportance : option MemoryImportance)
    (now created : Z) (imp : MemoryImportance) : Prop :=
  (exists m, maxAge = Some m /\ m < now - created /\ below imp minImportance)
  \/ (maxAge = None /\ below imp minImportance).

(** The same with a [maxAge] of zero counted as absent. *)
Definition amended_prune (maxAge : option Z) (minImportance : option MemoryImportance)
    (now created : Z) (imp : MemoryImportance) : Prop :=
  (exists m, maxAge = Some m /\ m <> 0 /\ m < now - created /\ below imp minImportance)
  \/ ((maxAge = None \/ maxAge = Some 0) /\ below imp minImportance).

(** The ids of the rows of an index. *)
Definition index_ids (rows : list FileMemoryStore.IndexEntry) : list string :=
  map FileMemoryStore.ix_id rows.

(** A short-term store and a long-term store, each with one entry of low
    importance created at time 1000. *)
Definition fresh_low_memory : InMemoryMemoryStore.t :=
  snd (InMemoryMemoryStore.store ShortTerm (JString "scratch") Low [] 1000
         InMemoryMemoryStore.empty).

Definition fresh_low_files : FileMemoryStore.t :=
  snd (FileMemoryStore.store LongTerm (JString "scratch") Low [] 1000
         FileMemoryStore.NoFault FileMemoryStore.empty).

Definition fresh_low_entry : MemoryEntry :=
  {| id := "mem-1"; type := ShortTerm; content := JString "scratch";
     metadata := {| createdAt := 1000; accessedAt := 1000; accessCount := 0;
                    importance := Low; tags := [] |} |}.

Definition fresh_low_row : FileMemoryStore.IndexEntry :=
  {| FileMemoryStore.ix_id := "mem-1"; FileMemoryStore.ix_type := LongTerm;
     FileMemoryStore.ix_importance := Low; FileMemoryStore.ix_tags := [];
     FileMemoryStore.ix_createdAt := 1000; FileMemoryStore.ix_accessedAt := 1000;
     FileMemoryStore.ix_accessCount := 0 |}.




(** ** Sequences of operations on the in-memory store *)

Inductive StoreOp : Type :=
| OpStore (ty : MemoryType) (c : JsonValue) (imp : MemoryImportance) (tgs : list string)
| OpRetrieve (i : string)
| OpQuery (q : MemoryQuery).

(** One operation at the clock reading [now]: the ids of the entries it
    hits (the entry [retrieve] returns, the entries [query] returns) and the
    store after it. *)
Definition apply_op (now : Z) (op : StoreOp) (s : InMemoryMemoryStore.t)
    : list string * InMemoryMemoryStore.t :=
  match op with
  | OpStore ty c imp tgs => ([], snd (InMemoryMemoryStore.store ty c imp tgs now s))
  | OpRetrieve i =>
      match InMemoryMemoryStore.retrieve i now s with
      | (Ok (Some e), s') => ([id e], s')
      | (_, s') => ([], s')
      end
  | OpQuery q =>
      match InMemoryMemoryStore.query q now s with
      | (Ok results, s') => (map id results, s')
      | (_, s') => ([], s')
      end
  end.

Fixpoint run_ops (trace : list (Z * StoreOp)) (s : InMemoryMemoryStore.t)
    : InMemoryMemoryStore.t :=
  match trace with
  | [] => s
  | (now, op) :: rest => run_ops rest (snd (apply_op now op s))
  end.

(** The number of operations of the trace that hit the id [i]. *)
Fixpoint hit_count (i : string) (trace : list (Z * StoreOp)) (s : InMemoryMemoryStore.t)
    : Z :=
  match trace with
  | [] => 0
  | (now, op) :: rest =>
      (if list_includes (fst (apply_op now op s)) i then 1 else 0)
      + hit_count i rest (snd (apply_op now op s))
  end.

(** The clock does not run backwards: the readings of the trace do not
    decrease, from [t0] on. *)
Fixpoint clock_monotone (t0 : Z) (trace : list (Z * StoreOp)) : Prop :=
  match trace with
  | [] => True
  | (now, _) :: rest => t0 <= now /\ clock_monotone now rest
  end.

(** The ids of the store are ids it has handed out. *)
Definition ids_handed_out (s : InMemoryMemoryStore.t) : Prop :=
  forall e, In e (InMemoryMemoryStore.memories s) ->
    exists k, id e = mem_id k /\ k < InMemoryMemoryStore.nextId s.

(** Every entry was created no later than it was last accessed, and last
    accessed no later than [t]. *)
Definition accessed_by (t : Z) (l : list MemoryEntry) : Prop :=
  Forall (fun e => createdAt (metadata e) <= accessedAt (metadata e)
                   /\ accessedAt (metadata e) <= t) l.

Definition example_trace : list (Z * StoreOp) :=
  [(1010, OpStore ShortTerm (JString "a") Medium ["x"]);
   (1011, OpRetrieve "mem-1");
   (1012, OpQuery {| q_type := Some ShortTerm; q_tags := None; q_minImportance := None;
                   q_maxAge := None; q_limit := None; q_searchText := None |});
   (1012, OpRetrieve "mem-7")].

(** ** Queries, in the words of the specification *)

(** The conjunction of the predicates a query supplies, for an entry with
    the given type, tags, importance, creation time and content.  A
    predicate is supplied when the guard of its filter holds: a type, a
    non-empty list of tags, a minimal importance, a non-zero [maxAge], a
    non-empty [searchText]. *)
Definition satisfies (q : MemoryQuery) (now : Z) (e : MemoryEntry) : bool :=
  match q_type q with
  | Some ty => MemoryType_eqb (type e) ty
  | None => true
  end
  && match q_tags q with
     | Some (t :: ts) =>
         existsb (fun tag => list_includes (tags (metadata e)) tag) (t :: ts)
     | _ => true
     end
  && match q_minImportance q with
     | Some mi => importance_value mi <=? importance_value (importance (metadata e))
     | None => true
     end
  && match truthy_number (q_maxAge q) with
     | Some maxAge => now - createdAt (metadata e) <=? maxAge
     | None => true
     end
  && match truthy_string (q_searchText q) with
     | Some searchText =>
         includes (toLowerCase (JSON_stringify (content e))) (toLowerCase searchText)
     | None => true
     end.

(** A list is in descending order of [key]. *)
Definition descending {A : Type} (key : A -> Z) (l : list A) : Prop :=
  StronglySorted (fun a b => key b <= key a) l.

(** Two long-term entries in the file store, and the same two as short-term
    entries in the in-memory store: "apple", then "banana" one millisecond
    later. *)
Definition fruit_files : FileMemoryStore.t :=
  snd (FileMemoryStore.store LongTerm (JString "banana") Medium [] 1001
         FileMemoryStore.NoFault
         (snd (FileMemoryStore.store LongTerm (JString "apple") Medium [] 1000
                 FileMemoryStore.NoFault FileMemoryStore.empty))).

Definition fruit_memory : InMemoryMemoryStore.t :=
  snd (InMemoryMemoryStore.store ShortTerm (JString "banana") Medium [] 1001
         (snd (InMemoryMemoryStore.store ShortTerm (JString "apple") Medium [] 1000
                 InMemoryMemoryStore.empty))).

Definition apple_file : MemoryEntry :=
  {| id := "mem-1"; type := LongTerm; content := JString "apple";
     metadata := {| createdAt := 1000; accessedAt := 1000; accessCount := 0;
                    importance := Medium; tags := [] |} |}.

Definition banana_file : MemoryEntry :=
  {| id := "mem-2"; type := LongTerm; content := JString "banana";
     metadata := {| createdAt := 1001; accessedAt := 1001; accessCount := 0;
                    importance := Medium; tags := [] |} |}.

Definition apple_memory : MemoryEntry :=
  {| id := "mem-1"; type := ShortTerm; content := JString "apple";
     metadata := {| createdAt := 1000; accessedAt := 1000; accessCount := 0;
                    importance := Medium; tags := [] |} |}.

(** [{ searchText: 'apple', limit: 1 }] *)
Definition one_apple : MemoryQuery :=
  {| q_type := None; q_tags := None; q_minImportance := None; q_maxAge := None;
     q_limit := Some 1; q_searchText := Some "apple" |}.

(** ** Consolidation, in the words of the specification *)

(** The entry is one [consolidate] asks the short-term store for: its type
    is short-term and its importance is at least the threshold. *)
Definition selected (threshold : MemoryImportance) (e : MemoryEntry) : bool :=
  MemoryType_eqb (type e) ShortTerm
  && (importance_value threshold <=? importance_value (importance (metadata e))).

Definition write_ok (fault : FileMemoryStore.WriteFault) : bool :=
  match fault with
  | FileMemoryStore.NoFault => true
  | _ => false
  end.

(** The long-term store holds a long-term entry with the content, the
    importance and the tags of [e]: a file under an id the store has handed
    out, and its row in the index. *)
Definition long_term_copy (lt : FileMemoryStore.t) (e : MemoryEntry) : Prop :=
  exists k d r,
    k < FileMemoryStore.nextId lt
    /\ FileMemoryStore.files lt !! mem_id k = Some d
    /\ id d = mem_id k
    /\ type d = LongTerm
    /\ content d = content e
    /\ importance (metadata d) = importance (metadata e)
    /\ tags (metadata d) = tags (metadata e)
    /\ In r (FileMemoryStore.index lt)
    /\ FileMemoryStore.ix_id r = mem_id k
    /\ FileMemoryStore.ix_type r = LongTerm
    /\ FileMemoryStore.ix_importance r = importance (metadata e)
    /\ FileMemoryStore.ix_tags r = tags (metadata e).

Definition no_faults (i : string) : FileMemoryStore.WriteFault := FileMemoryStore.NoFault.

(** A manager, with the default thresholds, that was given one episodic
    entry of high importance. *)
Definition episodic_manager : MemoryManager.t :=
  snd (MemoryManager.store Episodic (JString "lesson") High ["tool"] 1000
         FileMemoryStore.NoFault no_faults
         (MemoryManager.create InMemoryMemoryStore.empty FileMemoryStore.empty None None)).

Definition episodic_lesson : MemoryEntry :=
  {| id := "mem-1"; type := Episodic; content := JString "lesson";
     metadata := {| createdAt := 1000; accessedAt := 1000; accessCount := 0;
                    importance := High; tags := ["tool"] |} |}.

(** A manager that was given two short-term entries of high importance; the
    file system will fail the write of the copy of the second. *)
Definition busy_manager : MemoryManager.t :=
  let m0 := MemoryManager.create InMemoryMemoryStore.empty FileMemoryStore.empty None None in
  let m1 := snd (MemoryManager.store ShortTerm (JString "first") High ["a"] 1000
                   FileMemoryStore.NoFault no_faults m0) in
  snd (MemoryManager.store ShortTerm (JString "second") Critical ["b"] 1001
         FileMemoryStore.NoFault no_faults m1).

Definition second_write_fails (i : string) : FileMemoryStore.WriteFault :=
  if String.eqb i "mem-2" then FileMemoryStore.EntryWriteFails else FileMemoryStore.NoFault.

Definition first_note : MemoryEntry :=
  {| id := "mem-1"; type := ShortTerm; content := JString "first";
     metadata := {| createdAt := 1000; accessedAt := 1000; accessCount := 0;
                    importance := High; tags := ["a"] |} |}.

Definition second_note : MemoryEntry :=
  {| id := "mem-2"; type := ShortTerm; content := JString "second";
     metadata := {| createdAt := 1001; accessedAt := 1001; accessCount := 0;
                    importance := Critical; tags := ["b"] |} |}.

(** ** Sequences of operations on the file store *)

Inductive FileOp : Type :=
| FStore (ty : MemoryType) (c : JsonValue) (imp : MemoryImportance) (tgs : list string)
         (fault : FileMemoryStore.WriteFault)
| FRetrieve (i : string)
| FQuery (q : MemoryQuery)
| FDelete (i : string)
| FPrune (maxAge : option Z) (minImportance : option MemoryImportance)
| FClear (ty : option MemoryType).

Definition apply_file_op (now : Z) (op : FileOp) (s : FileMemoryStore.t)
    : FileMemoryStore.t :=
  match op with
  | FStore ty c imp tgs fault => snd (FileMemoryStore.store ty c imp tgs now fault s)
  | FRetrieve i => snd (FileMemoryStore.retrieve i now s)
  | FQuery q => snd (FileMemoryStore.query q now s)
  | FDelete i => snd (FileMemoryStore.delete i s)
  | FPrune maxAge minImportance => snd (FileMemoryStore.prune maxAge minImportance now s)
  | FClear ty => snd (FileMemoryStore.clear ty s)
  end.

Fixpoint run_file_ops (trace : list (Z * FileOp)) (s : FileMemoryStore.t)
    : FileMemoryStore.t :=
  match trace with
  | [] => s
  | (now, op) :: rest => run_file_ops rest (apply_file_op now op s)
  end.

(** An id of the form the stores hand out, [mem-<k>].  Such an id names its
    own file [<id>.json] in the directory of the file store. *)
Definition store_id (i : string) : Prop := exists k, 0 <= k /\ i = mem_id k.

(** A counter that counts exactly: the doubles of the code add 1 without
    rounding up to [MAX_SAFE_INTEGER + 1]. *)
Definition counter_exact (nextId : Z) : Prop := 1 <= nextId <= MAX_SAFE_INTEGER + 1.

Definition file_op_in_reach (op : FileOp) : Prop :=
  match op with
  | FRetrieve i | FDelete i => store_id i
  | _ => True
  end.

(** The run of a trace stays where the model stands for the store: the ids
    asked for are of the stores' form, and the counter counts exactly in
    every state the run passes. *)
Fixpoint file_trace_in_reach (trace : list (Z * FileOp)) (s : FileMemoryStore.t) : Prop :=
  counter_exact (FileMemoryStore.nextId s)
  /\ match trace with
     | [] => True
     | step :: rest =>
         file_op_in_reach (snd step)
         /\ file_trace_in_reach rest (apply_file_op (fst step) (snd step) s)
     end.

(** The row of the index says what the file of the entry says. *)
Definition row_matches (r : FileMemoryStore.IndexEntry) (e : MemoryEntry) : Prop :=
  id e = FileMemoryStore.ix_id r
  /\ type e = FileMemoryStore.ix_type r
  /\ importance (metadata e) = FileMemoryStore.ix_importance r
  /\ tags (metadata e) = FileMemoryStore.ix_tags r
  /\ createdAt (metadata e) = FileMemoryStore.ix_createdAt r
  /\ accessedAt (metadata e) = FileMemoryStore.ix_accessedAt r
  /\ accessCount (metadata e) = FileMemoryStore.ix_accessCount r.

(** The index and the files agree: no id twice in the index, every row has
    its file and matches it, every file has its row, and every id is one
    the store has handed out. *)
Definition index_consistent (s : FileMemoryStore.t) : Prop :=
  List.NoDup (index_ids (FileMemoryStore.index s))
  /\ (forall r, In r (FileMemoryStore.index s) ->
        exists e, FileMemoryStore.files s !! FileMemoryStore.ix_id r = Some e
                  /\ row_matches r e)
  /\ (forall i e, FileMemoryStore.files s !! i = Some e ->
        In i (index_ids (FileMemoryStore.index s)))
  /\ (forall r, In r (FileMemoryStore.index s) ->
        exists k, FileMemoryStore.ix_id r = mem_id k /\ k < FileMemoryStore.nextId s).

(** The calls that change a task, for traces of calls. *)
Inductive TaskOp : Type :=
| TUpdateStatus (st : TaskStatus)
| TSetResult (r : TaskResult).

Definition apply_task_op (now : Z) (op : TaskOp) (t : TimedTask) : TimedTask :=
  match op with
  | TUpdateStatus st => TimedTaskEntity.updateStatus st now t
  | TSetResult r => TimedTaskEntity.setResult r now t
  end.

Fixpoint run_task_ops (trace : list (Z * TaskOp)) (t : TimedTask) : TimedTask :=
  match trace with
  | [] => t
  | (now, op) :: rest => run_task_ops rest (apply_task_op now op t)
  end.

(** The readings of the clock do not decrease, from [t0] on. *)
Fixpoint readings_ascend (t0 : Z) (readings : list Z) : Prop :=
  match readings with
  | [] => True
  | now :: rest => t0 <= now /\ readings_ascend now rest
  end.

(** The calls the agent loop makes on its task when the model answers: the
    task is started, completed, and given its result. *)
Definition answered_task_trace : list (Z * TaskOp) :=
  [(10, TUpdateStatus Running);
   (25, TUpdateStatus Completed);
   (26, TSetResult {| task_success := true; task_output := Some (JString "hi hi");
                      task_error := None |})].

(** The answer of the registry for a name it does not know. *)
Definition tool_not_found (nm : string) : ToolResult :=
  {| success := false; output := None;
     error := Some ("Tool not found: " +:+ nm); result_metadata := None |}.

(** A second tool under the name of the echo tool. *)
Definition loud_echo_tool : Tool :=
  {| tool_id := "tool-loud-echo";
     name := "echo";
     description := "Echo back the input message, loudly.";
     schema := schema echo_tool;
     executor := executor echo_tool |}.

(** The records are numbered 1, 2, 3, ... *)
Definition numbered (its : list Iteration) : Prop :=
  map number its = map Z.of_nat (seq 1 (length its)).

(** The last record is a final answer with the text [text]. *)
Definition ends_with_answer (its : list Iteration) (text : string) : Prop :=
  exists init last,
    its = (init ++ [last])%list
    /\ action last = "final_answer"
    /\ thought last = text
    /\ observation last = Some text.

(** What holds of the variables of the agent loop between two iterations. *)
Definition loop_invariant {M : Type} (vars : ExecuteAgentUseCaseImpl.LoopVars M) : Prop :=
  ExecuteAgentUseCaseImpl.iterationCount vars
  = Z.of_nat (length (ExecuteAgentUseCaseImpl.recorded vars))
  /\ numbered (ExecuteAgentUseCaseImpl.recorded vars)
  /\ (if ExecuteAgentUseCaseImpl.completed vars
      then exists text,
             ExecuteAgentUseCaseImpl.finalOutput vars = Some text
             /\ ends_with_answer (ExecuteAgentUseCaseImpl.recorded vars) text
      else ExecuteAgentUseCaseImpl.finalOutput vars = None).



(** The predicates of a query that the file store tests on the row of the
    index: all but the text. *)
Definition row_satisfies (q : MemoryQuery) (now : Z) (r : FileMemoryStore.IndexEntry)
    : bool :=
  match q_type q with
  | Some ty => MemoryType_eqb (FileMemoryStore.ix_type r) ty
  | None => true
  end
  && match q_tags q with
     | Some (t :: ts) =>
         existsb (fun tag => list_includes (FileMemoryStore.ix_tags r) tag) (t :: ts)
     | _ => true
     end
  && match q_minImportance q with
     | Some mi => importance_value mi <=? importance_value (FileMemoryStore.ix_importance r)
     | None => true
     end
  && match truthy_number (q_maxAge q) with
     | Some maxAge => now - FileMemoryStore.ix_createdAt r <=? maxAge
     | None => true
     end.

(** The list a result carries, none for an error. *)
Definition answer {A : Type} (r : Result (list A)) : list A :=
  match r with
  | Ok l => l
  | Err _ => []
  end.

(** The operations of the manager, for traces of calls. *)
Inductive ManagerOp : Type :=
| MStore (ty : MemoryType) (c : JsonValue) (imp : MemoryImportance) (tgs : list string)
         (fault : FileMemoryStore.WriteFault)
         (faults : string -> FileMemoryStore.WriteFault)
| MRetrieve (i : string)
| MQuery (q : MemoryQuery)
| MDelete (i : string)
| MClear (ty : option MemoryType)
| MPrune (maxAge : option Z) (minImportance : option MemoryImportance)
| MConsolidate (faults : string -> FileMemoryStore.WriteFault).

Definition apply_manager_op (now : Z) (op : ManagerOp) (m : MemoryManager.t)
    : MemoryManager.t :=
  match op with
  | MStore ty c imp tgs fault faults =>
      snd (MemoryManager.store ty c imp tgs now fault faults m)
  | MRetrieve i => snd (MemoryManager.retrieve i now m)
  | MQuery q => snd (MemoryManager.query q now m)
  | MDelete i => snd (MemoryManager.delete i m)
  | MClear ty => snd (MemoryManager.clear ty m)
  | MPrune maxAge minImportance => snd (MemoryManager.prune maxAge minImportance now m)
  | MConsolidate faults => snd (MemoryManager.consolidate faults now m)
  end.

Fixpoint run_manager_ops (trace : list (Z * ManagerOp)) (m : MemoryManager.t)
    : MemoryManager.t :=
  match trace with
  | [] => m
  | (now, op) :: rest => run_manager_ops rest (apply_manager_op now op m)
  end.

Definition manager_op_in_reach (op : ManagerOp) : Prop :=
  match op with
  | MRetrieve i | MDelete i => store_id i
  | _ => True
  end.

(** The run of a trace stays where the model stands for the manager: the
    ids asked for are of the stores' form, and the counters of both tiers
    count exactly in every state the run passes. *)
Fixpoint manager_trace_in_reach (trace : list (Z * ManagerOp)) (m : MemoryManager.t)
    : Prop :=
  counter_exact (InMemoryMemoryStore.nextId (MemoryManager.shortTermStore m))
  /\ counter_exact (FileMemoryStore.nextId (MemoryManager.longTermStore m))
  /\ match trace with
     | [] => True
     | step :: rest =>
         manager_op_in_reach (snd step)
         /\ manager_trace_in_reach rest (apply_manager_op (fst step) (snd step) m)
     end.

(** The types the manager routes to each tier. *)
Definition short_term_type (ty : MemoryType) : bool :=
  match ty with
  | ShortTerm | Episodic => true
  | LongTerm | Semantic => false
  end.

Definition long_term_type (ty : MemoryType) : bool := negb (short_term_type ty).

(** Each tier holds entries of its own types only, and the index and the
    files of the long-term tier agree. *)
Definition tiers_apart (m : MemoryManager.t) : Prop :=
  (forall e, In e (InMemoryMemoryStore.memories (MemoryManager.shortTermStore m)) ->
     short_term_type (type e) = true)
  /\ (forall r, In r (FileMemoryStore.index (MemoryManager.longTermStore m)) ->
        long_term_type (FileMemoryStore.ix_type r) = true)
  /\ index_consistent (MemoryManager.longTermStore m).

(** The number of entries the manager holds, over both tiers. *)
Definition manager_size (m : MemoryManager.t) : Z :=
  InMemoryMemoryStore.totalEntries (MemoryManager.shortTermStore m)
  + FileMemoryStore.totalEntries (MemoryManager.longTermStore m).

Definition fresh_manager : MemoryManager.t :=
  MemoryManager.create InMemoryMemoryStore.empty FileMemoryStore.empty (Some 2) None.

(** The fresh manager after a short-term note and a semantic fact. *)
Definition stocked_manager : MemoryManager.t :=
  apply_manager_op 11
    (MStore Semantic (JString "fact") Low [] FileMemoryStore.NoFault no_faults)
    (apply_manager_op 10
       (MStore ShortTerm (JString "note") Medium [] FileMemoryStore.NoFault no_faults)
       fresh_manager).

Definition manager_trace : list (Z * ManagerOp) :=
  [(10, MStore ShortTerm (JString "note") High [] FileMemoryStore.NoFault no_faults);
   (11, MStore Semantic (JString "fact") Low [] FileMemoryStore.IndexWriteFails no_faults);
   (12, MStore Episodic (JString "lesson") Critical [] FileMemoryStore.NoFault no_faults);
   (13, MQuery {| q_type := None; q_tags := None; q_minImportance := None;
                  q_maxAge := None; q_limit := Some 1; q_searchText := None |});
   (14, MRetrieve "mem-1");
   (15, MPrune (Some 1) (Some High));
   (16, MClear (Some Episodic));
   (17, MDelete "mem-2");
   (18, MConsolidate no_faults)].

Definition file_trace : list (Z * FileOp) :=
  [(1000, FStore LongTerm (JString "apple") Medium [] FileMemoryStore.NoFault);
   (1001, FStore LongTerm (JString "banana") Medium [] FileMemoryStore.NoFault);
   (3000, FStore LongTerm (JString "cherry") High ["fruit"] FileMemoryStore.IndexWriteFails);
   (3001, FStore Semantic (JString "lost") Low [] FileMemoryStore.EntryWriteFails);
   (3002, FQuery one_apple);
   (3003, FRetrieve "mem-3");
   (3004, FDelete "mem-1");
   (3005, FPrune None (Some Medium));
   (3006, FClear (Some Semantic))].

(** The entry [store] builds at the clock reading [now] under the id
    [i]. *)
Definition new_entry (i : string) (ty : MemoryType) (c : JsonValue)
    (imp : MemoryImportance) (tgs : list string) (now : Z) : MemoryEntry :=
  {| id := i; type := ty; content := c;
     metadata := {| createdAt := now; accessedAt := now; accessCount := 0;
                    importance := imp; tags := tgs |} |}.

(** The types of the entries of [l'] are types of entries of [l]. *)
Definition types_from (l' l : list MemoryEntry) : Prop :=
  forall e, In e l' -> exists e0, In e0 l /\ type e = type e0.

Definition row_types_from (rows' rows : list FileMemoryStore.IndexEntry) : Prop :=
  forall r, In r rows' ->
    exists r0, In r0 rows /\ FileMemoryStore.ix_type r = FileMemoryStore.ix_type r0.

(** The tiers as a pair of stores. *)
Definition stores_apart (st : InMemoryMemoryStore.t) (lt : FileMemoryStore.t) : Prop :=
  (forall e, In e (InMemoryMemoryStore.memories st) -> short_term_type (type e) = true)
  /\ (forall r, In r (FileMemoryStore.index lt) ->
        long_term_type (FileMemoryStore.ix_type r) = true)
  /\ index_consistent lt.

(** What holds of a task whose times are no later than [last]. *)
Definition task_times_sound (last : Z) (t : TimedTask) : Prop :=
  let m := task_metadata t in
  (forall s, task_startedAt m = Some s -> s <= last)
  /\ (forall c, task_completedAt m = Some c -> c <= last)
  /\ (TimedTaskEntity.isComplete t = true -> exists c, task_completedAt m = Some c)
  /\ (forall d, task_duration m = Some d ->
        exists s c, task_startedAt m = Some s /\ task_completedAt m = Some c
                    /\ s <= c /\ d = c - s).

(** * Properties *)

(** ** The tool invoker *)






Lemma list_includes_In (xs : list string) (x : string) :
  list_includes xs x = true <-> In x xs.
Proof.
  unfold list_includes. rewrite existsb_exists. split.
  - intros (y & Hy & Heq). apply String.eqb_eq in Heq. now subst.
  - intros Hx. exists x. split; [assumption|]. apply String.eqb_refl.
Qed.

Lemma validation_errors_nil (t : Tool) (params : ToolParams) :
  ToolEntity.validation_errors t params = []
  <-> ~ missing_required t params /\ ~ unknown_key t params.
Proof.
  unfold ToolEntity.validation_errors, missing_required, unknown_key.
  split.
  - intros Hnil. apply app_eq_nil in Hnil as [Hm Hu].
    apply map_eq_nil in Hu. split.
    + intros (k & Hin & Hk). destruct (required (schema t)) as [req|]; [|contradiction].
      apply map_eq_nil in Hm. simpl in Hin.
      assert (In k (List.filter (fun p => negb (has_key p params)) req)) as Hf.
      { apply filter_In. split; [assumption|]. now rewrite Hk. }
      rewrite Hm in Hf. contradiction.
    + intros (k & Hin & Hk).
      assert (In k (List.filter (fun key => negb (has_key key (properties (schema t))))
                                (keys params))) as Hf.
      { apply filter_In. split; [assumption|]. now rewrite Hk. }
      rewrite Hu in Hf. contradiction.
  - intros [Hm Hu].
    assert (forall (f : string -> bool) (l : list string),
               (forall k, In k l -> f k = false) -> List.filter f l = []) as Hfilter.
    { intros f l Hall. induction l as [|a l IH]; [reflexivity|]. simpl.
      rewrite (Hall a (or_introl eq_refl)). apply IH.
      intros k Hk. apply Hall. now right. }
    rewrite (Hfilter _ (keys params)).
    + destruct (required (schema t)) as [req|]; [|reflexivity].
      rewrite (Hfilter _ req); [reflexivity|].
      intros k Hk. destruct (has_key k params) eqn:E; [reflexivity|].
      exfalso. apply Hm. exists k. split; assumption.
    + intros k Hk. destruct (has_key k (properties (schema t))) eqn:E; [reflexivity|].
      exfalso. apply Hu. exists k. split; assumption.
Qed.

Lemma validate_valid (t : Tool) (params : ToolParams) :
  valid (ToolEntity.validate t params) = true
  <-> ~ missing_required t params /\ ~ unknown_key t params.
Proof.
  rewrite <- validation_errors_nil. unfold ToolEntity.validate. simpl.
  destruct (ToolEntity.validation_errors t params); simpl; split; congruence.
Qed.

Lemma execute_invalid (t : Tool) (params : ToolParams) :
  valid (ToolEntity.validate t params) = false ->
  ToolEntity.execute t params = Normal (invalid_parameters t params).
Proof.
  intros Hv. unfold ToolEntity.execute. rewrite Hv. simpl.
  unfold invalid_parameters, failure, ToolEntity.joined_errors, ToolEntity.validate in *.
  simpl in *.
  destruct (ToolEntity.validation_errors t params); [discriminate|reflexivity].
Qed.

(** [Tool.execute] validates the parameters before it calls the executor.
    When a required name is not found in the parameters or a supplied key is
    not found among the properties of the schema, found as the [in]
    operator finds a name (an own key, or a name every record inherits),
    it returns the failure made of the joined validation messages, whatever
    the executor is (the executor is not called); otherwise it returns what
    the executor returns, or the failure made of what the executor
    throws. *)
Theorem tool_execute_validates_first (t : Tool) (params : ToolParams) :
  (missing_required t params \/ unknown_key t params ->
   ToolEntity.execute t params = Normal (invalid_parameters t params)
   /\ success (invalid_parameters t params) = false
   /\ forall ex : ToolExecutor,
        ToolEntity.execute (with_executor ex t) params
        = Normal (invalid_parameters t params))
  /\ (~ missing_required t params -> ~ unknown_key t params ->
      ToolEntity.execute t params
      = match executor t params with
        | Normal res => Normal res
        | Raise e => Normal (caught e)
        end).
Proof.
  split.
  - intros Hbad.
    assert (valid (ToolEntity.validate t params) = false) as Hv.
    { destruct (valid (ToolEntity.validate t params)) eqn:E; [|reflexivity].
      apply validate_valid in E as [Hm Hu]. destruct Hbad; contradiction. }
    split; [now apply execute_invalid|]. split; [reflexivity|].
    intros ex. apply (execute_invalid (with_executor ex t)). exact Hv.
  - intros Hm Hu.
    assert (valid (ToolEntity.validate t params) = true) as Hv
      by (apply validate_valid; split; assumption).
    unfold ToolEntity.execute. rewrite Hv. simpl.
    destruct (executor t params); reflexivity.
Qed.

Lemma tool_execute_validates_first_witness :
  ToolEntity.execute echo_tool [("message", JString "hi"); ("extra", JNull)]
  = Normal (failure "Invalid parameters: Unknown parameter: extra")
  /\ ToolEntity.execute echo_tool []
     = Normal (failure "Invalid parameters: Missing required parameter: message")
  /\ ToolEntity.execute echo_tool [("message", JString "hi")]
     = Normal {| success := true; output := Some (JString "hi");
                 error := None; result_metadata := None |}.
Proof.
  split; [|split].
  - apply (tool_execute_validates_first echo_tool
             [("message", JString "hi"); ("extra", JNull)]).
    right. exists "extra". split; [simpl; tauto | reflexivity].
  - apply (tool_execute_validates_first echo_tool []).
    left. exists "message". split; [simpl; tauto | reflexivity].
  - destruct (tool_execute_validates_first echo_tool [("message", JString "hi")])
      as [_ Hrun].
    apply Hrun.
    + intros (k & Hin & Hk). simpl in Hin. destruct Hin as [<-|[]]. discriminate Hk.
    + intros (k & Hin & Hk). simpl in Hin. destruct Hin as [<-|[]]. discriminate Hk.
Defined.

(** C4 at the failing inputs.  The echo tool declares the one property
    [message]; called with the further key [toString], which its schema
    does not declare, it passes validation and its executor runs.  A tool
    that requires [constructor], called without any parameter, passes
    validation and its executor runs.  [in] finds both names in every
    record. *)
Theorem validate_accepts_inherited_names :
  let params := [("message", JString "hi"); ("toString", JString "x")] in
  (In "toString" (keys params)
   /\ ~ In "toString" (keys (properties (schema echo_tool)))
   /\ valid (ToolEntity.validate echo_tool params) = true
   /\ ToolEntity.execute echo_tool params
      = Normal {| success := true; output := Some (JString "hi");
                  error := None; result_metadata := None |})
  /\ (required (schema class_tool) = Some ["constructor"]
      /\ valid (ToolEntity.validate class_tool []) = true
      /\ ToolEntity.execute class_tool []
         = Normal {| success := true; output := Some (JString "described");
                     error := None; result_metadata := None |}).
Proof.
  cbv zeta. split.
  - split; [right; now left|]. split; [|split; reflexivity].
    intros [Heq|[]]. discriminate Heq.
  - split; [reflexivity|]. split; reflexivity.
Qed.

(** ** The calculator tool *)

Lemma regex_test_forbidden (expression : string) :
  has_forbidden_char expression -> Calculator.regex_test expression = false.
Proof.
  intros (c & Hin & Hc). unfold Calculator.regex_test.
  destruct expression as [|a rest]; [reflexivity|].
  apply not_true_is_false. intros Hall.
  rewrite forallb_forall in Hall. specialize (Hall c Hin). congruence.
Qed.

Lemma regex_test_true (expression : string) :
  Calculator.regex_test expression = true
  <-> expression <> EmptyString
      /\ forall c, In c (list_ascii_of_string expression) -> Calculator.allowed_char c = true.
Proof.
  unfold Calculator.regex_test. destruct expression as [|a rest].
  - split; [discriminate|]. intros [Hne _]. now contradiction Hne.
  - rewrite forallb_forall. split.
    + intros Hall. split; [discriminate|exact Hall].
    + intros [_ Hall]. exact Hall.
Qed.

Lemma calculator_validation_passes (hostEval : string -> Exc JsonValue) (expression : string) :
  calculator hostEval expression
  = Calculator.calculatorExecutor hostEval [("expression", JString expression)].
Proof.
  unfold calculator, ToolEntity.execute. simpl.
  unfold Calculator.calculatorExecutor. simpl.
  destruct (Calculator.regex_test expression); simpl; [|reflexivity].
  destruct (hostEval expression); reflexivity.
Qed.

Lemma calculator_rejects (hostEval : string -> Exc JsonValue) (expression : string) :
  Calculator.regex_test expression = false ->
  calculator hostEval expression = Normal Calculator.invalid_expression.
Proof.
  intros Ht. rewrite calculator_validation_passes.
  unfold Calculator.calculatorExecutor. simpl. rewrite Ht. reflexivity.
Qed.

Lemma calculator_evaluates (hostEval : string -> Exc JsonValue) (expression : string) :
  Calculator.regex_test expression = true ->
  calculator hostEval expression
  = match hostEval expression with
    | Normal v => Normal (succeeded v)
    | Raise e => Normal (failure (thrown_message e))
    end.
Proof.
  intros Ht. rewrite calculator_validation_passes.
  unfold Calculator.calculatorExecutor. simpl. rewrite Ht. simpl.
  destruct (hostEval expression); reflexivity.
Qed.

Lemma referenceHost_agrees : Calculator.agrees Calculator.referenceHost.
Proof.
  intros expression. unfold Calculator.referenceHost.
  destruct (Calculator.evalArithmetic expression); eauto.
Qed.

Lemma calculator_dangling_operator (hostEval : string -> Exc JsonValue) :
  Calculator.agrees hostEval ->
  exists res, calculator hostEval "2 +" = Normal res /\ success res = false.
Proof.
  intros Hagree. rewrite calculator_evaluates by reflexivity.
  specialize (Hagree "2 +"). vm_compute in Hagree.
  destruct Hagree as (message & stack & ->).
  eexists. split; reflexivity.
Qed.

(** C9, as stated, fails: the expression "2 +" passes the character-class
    check, and on a host that evaluates arithmetic as JavaScript does the tool
    answers with a failure, not with a value. *)
Lemma calculator_accepted_expression_may_fail :
  Calculator.regex_test "2 +" = true
  /\ (exists res, calculator Calculator.referenceHost "2 +" = Normal res
                  /\ success res = false)
  /\ ~ (forall hostEval, Calculator.agrees hostEval ->
        forall expression, Calculator.regex_test expression = true ->
        exists res, calculator hostEval expression = Normal res /\ success res = true).
Proof.
  split; [reflexivity|]. split.
  - apply calculator_dangling_operator, referenceHost_agrees.
  - intros Hclaim.
    destruct (Hclaim Calculator.referenceHost referenceHost_agrees "2 +" eq_refl)
      as (res & Hres & Hsuccess).
    vm_compute in Hres. injection Hres as <-. discriminate Hsuccess.
Qed.

(** C9, amended.  An expression with a character outside the class is
    rejected with the "Invalid expression" failure, whatever the host would
    do with it (it is not evaluated).  An expression passes the check when
    it is not empty and all its characters are in the class; it is then
    handed to the host: the tool succeeds with the value the host
    returns and fails with the message of the exception the host throws.
    On a host that evaluates integer arithmetic as JavaScript does,
    "2 + 2" gives the success with output 4. *)
Theorem calculator_checks_then_evaluates
    (hostEval : string -> Exc JsonValue) (expression : string) :
  (has_forbidden_char expression ->
   (forall anyHost, calculator anyHost expression = Normal Calculator.invalid_expression)
   /\ success Calculator.invalid_expression = false
   /\ exists rest, error Calculator.invalid_expression
                   = Some ("Invalid expression" +:+ rest))
  /\ (Calculator.regex_test expression = true
      <-> expression <> EmptyString
          /\ forall c, In c (list_ascii_of_string expression) ->
                       Calculator.allowed_char c = true)
  /\ (Calculator.regex_test expression = true ->
      calculator hostEval expression
      = match hostEval expression with
        | Normal v => Normal (succeeded v)
        | Raise e => Normal (failure (thrown_message e))
        end)
  /\ (Calculator.agrees hostEval ->
      calculator hostEval "2 + 2" = Normal (succeeded (JNumber 4))).
Proof.
  split; [|split; [|split]].
  - intros Hbad. split; [|split].
    + intros anyHost. now apply calculator_rejects, regex_test_forbidden.
    + reflexivity.
    + eexists. reflexivity.
  - apply regex_test_true.
  - apply calculator_evaluates.
  - intros Hagree. rewrite calculator_evaluates by reflexivity.
    specialize (Hagree "2 + 2"). vm_compute in Hagree. rewrite Hagree. reflexivity.
Qed.

Lemma calculator_checks_then_evaluates_witness :
  calculator Calculator.referenceHost "2 + import('fs')"
  = Normal Calculator.invalid_expression
  /\ calculator Calculator.referenceHost "2 + 2" = Normal (succeeded (JNumber 4))
  /\ calculator Calculator.referenceHost "10 * (5 - 3)" = Normal (succeeded (JNumber 20)).
Proof.
  split; [|split].
  - destruct (calculator_checks_then_evaluates Calculator.referenceHost "2 + import('fs')")
      as (Hreject & _ & _ & _).
    apply Hreject. exists "i"%char. split; [simpl; tauto | reflexivity].
  - apply (calculator_checks_then_evaluates Calculator.referenceHost "2 + 2").
    exact referenceHost_agrees.
  - destruct (calculator_checks_then_evaluates Calculator.referenceHost "10 * (5 - 3)")
      as (_ & _ & Heval & _).
    rewrite Heval by reflexivity. reflexivity.
Defined.

(** ** The agent execution loop *)

Section AgentLoop.
Context {M : Type} `{MemoryStore M}.
Variable llmProvider : Z -> CompletionRequest -> Exc CompletionResponse.
Variable toolRegistry : ToolRegistryImpl.t.
Variable clock : Z -> Z.
Variable toISOString : Z -> string.
Variable newExecutionId : string.

Let iterate :=
  ExecuteAgentUseCaseImpl.iterate llmProvider toolRegistry clock toISOString newExecutionId.
Let agentLoop :=
  ExecuteAgentUseCaseImpl.agentLoop llmProvider toolRegistry clock toISOString
    newExecutionId.
Let execute :=
  ExecuteAgentUseCaseImpl.execute llmProvider toolRegistry clock toISOString
    newExecutionId.


Lemma iterate_threw agent task defs (vars vars' : ExecuteAgentUseCaseImpl.LoopVars M) e :
  iterate agent task defs vars = ExecuteAgentUseCaseImpl.Threw e vars' ->
  ExecuteAgentUseCaseImpl.recorded vars' = ExecuteAgentUseCaseImpl.recorded vars.
Proof.
  unfold iterate, ExecuteAgentUseCaseImpl.iterate.
  destruct (ExecuteAgentUseCaseImpl.buildMessages _ _ _ _ _) as [[msgs|e'] mem1].
  - destruct (llmProvider _ _) as [response|e''].
    + destruct (toolCalls response) as [[|toolCall rest]|]; try discriminate.
      destruct (ToolRegistryImpl.execute _ _ _) as [toolResult|e3]; [discriminate|].
      intros [= <- <-]. reflexivity.
    + intros [= <- <-]. reflexivity.
  - intros [= <- <-]. reflexivity.
Qed.







(** C2, amended.  Every response [execute] returns, and so every
    execution that fails by exhausting the iteration bound, carries the
    full sequence of iteration records accumulated.  An execution in
    which an iteration throws returns an error made of the exception
    thrown, and that error carries no iteration record. *)
Theorem failed_execution_iterations
    (request : ExecuteAgentUseCaseImpl.ExecuteAgentRequest) (mem : option M) :
  let run := execute request mem in
  (forall response,
      ExecuteAgentUseCaseImpl.returned run = Ok response ->
      carried_iterations (ExecuteAgentUseCaseImpl.returned run)
      = Some (ExecuteAgentUseCaseImpl.final_iterations run))
  /\ (forall agent task e vars,
        ExecuteAgentUseCaseImpl.found_agent request = Some agent ->
        TaskEntity.create (ExecuteAgentUseCaseImpl.taskDescription request)
        = Normal task ->
        agentLoop agent (TaskEntity.updateStatus Running task)
          (map ExecuteAgentUseCaseImpl.getToolDefinition
             (ExecuteAgentUseCaseImpl.availableTools toolRegistry request))
          (Z.to_nat (ExecuteAgentUseCaseImpl.requested_maxIterations request))
          (ExecuteAgentUseCaseImpl.initial_vars mem)
        = ExecuteAgentUseCaseImpl.Threw e vars ->
        ExecuteAgentUseCaseImpl.returned run = Err (as_error e)
        /\ ExecuteAgentUseCaseImpl.final_iterations run
           = ExecuteAgentUseCaseImpl.recorded vars
        /\ carried_iterations (ExecuteAgentUseCaseImpl.returned run) = None).
Proof.
  intros run. subst run. unfold execute, ExecuteAgentUseCaseImpl.execute. split.
  - intros response Hret.
    destruct (ExecuteAgentUseCaseImpl.found_agent request) as [agent|];
      [|discriminate].
    destruct (TaskEntity.create _) as [task0|e]; [|discriminate].
    destruct (ExecuteAgentUseCaseImpl.agentLoop _ _ _ _ _ _ _ _ _ _)
      as [vars|e vars]; [|discriminate].
    reflexivity.
  - intros agent task e vars -> -> Hloop.
    unfold agentLoop in Hloop. rewrite Hloop. simpl.
    repeat split.
Qed.

End AgentLoop.




(** C2, as stated, fails: the model requests a tool in the first iteration
    and its call fails in the second; one iteration record has been
    accumulated, and the value returned is the error alone. *)
Lemma exception_loses_iterations :
  ExecuteAgentUseCaseImpl.returned (run_example flaky_llm None None)
  = Err (ErrorObject "socket hang up" "Error: socket hang up")
  /\ length (ExecuteAgentUseCaseImpl.final_iterations (run_example flaky_llm None None))
     = 1%nat
  /\ carried_iterations (ExecuteAgentUseCaseImpl.returned (run_example flaky_llm None None))
     <> Some (ExecuteAgentUseCaseImpl.final_iterations (run_example flaky_llm None None)).
Proof.
  split; [reflexivity|]. split; [reflexivity|]. vm_compute. discriminate.
Qed.

Lemma failed_execution_iterations_witness :
  ExecuteAgentUseCaseImpl.returned (run_example flaky_llm None None)
  = Err (ErrorObject "socket hang up" "Error: socket hang up")
  /\ carried_iterations (ExecuteAgentUseCaseImpl.returned (run_example flaky_llm None None))
     = None
  /\ carried_iterations
       (ExecuteAgentUseCaseImpl.returned (run_example tool_loving_llm (Some 2) None))
     = Some (ExecuteAgentUseCaseImpl.final_iterations
               (run_example tool_loving_llm (Some 2) None)).
Proof.
  destruct (failed_execution_iterations flaky_llm example_registry example_clock pretty
              "exec-1" (example_request None) (@None InMemoryMemoryStore.t))
    as [_ Hthrow].
  destruct (failed_execution_iterations tool_loving_llm example_registry example_clock
              pretty "exec-1" (example_request (Some 2)) (@None InMemoryMemoryStore.t))
    as [Hok _].
  edestruct Hthrow as (Hret & _ & Hnone).
  - reflexivity.
  - vm_compute. reflexivity.
  - vm_compute. reflexivity.
  - split; [exact Hret|]. split; [exact Hnone|].
    eapply Hok. vm_compute. reflexivity.
Defined.

(** ** Pruning *)

Lemma shouldPrune_amended maxAge minImportance now created imp :
  shouldPrune maxAge minImportance now created imp = true
  <-> amended_prune maxAge minImportance now created imp.
Proof.
  unfold shouldPrune, amended_prune, below, truthy_number.
  destruct maxAge as [m|].
  - destruct (Z.eqb_spec m 0) as [->|Hm].
    + rewrite Z.ltb_lt. split.
      * intros Hlt. right. split; [now right | exact Hlt].
      * intros [(m & [= <-] & Hne & _)|[_ Hlt]]; [now contradiction Hne | exact Hlt].
    + rewrite andb_true_iff, !Z.ltb_lt. split.
      * intros [Hage Himp]. left. exists m. repeat split; assumption.
      * intros [(m' & [= <-] & _ & Hage & Himp)|[[Heq|Heq] _]];
          [split; assumption | discriminate | congruence].
  - rewrite Z.ltb_lt. split.
    + intros Hlt. right. split; [now left | exact Hlt].
    + intros [(m & Heq & _)|[_ Hlt]]; [discriminate | exact Hlt].
Qed.

Lemma shouldPrune_false_amended maxAge minImportance now created imp :
  shouldPrune maxAge minImportance now created imp = false
  <-> ~ amended_prune maxAge minImportance now created imp.
Proof.
  rewrite <- shouldPrune_amended.
  destruct (shouldPrune maxAge minImportance now created imp); split; congruence.
Qed.

Lemma unlink_all_lookup (ids : list string) :
  forall (fs : gmap string MemoryEntry) (i : string),
    snd (FileMemoryStore.unlink_all ids fs) !! i
    = if list_includes ids i then None else fs !! i.
Proof.
  induction ids as [|j ids IH]; intros fs i; simpl; [reflexivity|].
  destruct (String.eqb_spec i j) as [->|Hne]; simpl.
  - destruct (fs !! j) as [e|] eqn:Hj.
    + destruct (FileMemoryStore.unlink_all ids (base.delete j fs)) as [n fs'] eqn:Hu.
      simpl. change fs' with (snd (n, fs')). rewrite <- Hu, IH.
      rewrite lookup_delete_eq. now destruct (list_includes ids j).
    + rewrite IH, Hj. now destruct (list_includes ids j).
  - destruct (fs !! j) as [e|] eqn:Hj.
    + destruct (FileMemoryStore.unlink_all ids (base.delete j fs)) as [n fs'] eqn:Hu.
      simpl. change fs' with (snd (n, fs')). rewrite <- Hu, IH.
      rewrite lookup_delete_ne by congruence. reflexivity.
    + apply IH.
Qed.

Lemma prune_index_ids maxAge minImportance now (rows : list FileMemoryStore.IndexEntry)
    (r : FileMemoryStore.IndexEntry) :
  List.NoDup (index_ids rows) ->
  In r rows ->
  list_includes
    (map FileMemoryStore.ix_id
       (List.filter
          (fun x => shouldPrune maxAge minImportance now
                      (FileMemoryStore.ix_createdAt x) (FileMemoryStore.ix_importance x))
          rows))
    (FileMemoryStore.ix_id r)
  = shouldPrune maxAge minImportance now
      (FileMemoryStore.ix_createdAt r) (FileMemoryStore.ix_importance r).
Proof.
  intros Hnd Hin.
  destruct (shouldPrune maxAge minImportance now _ _) eqn:Hp.
  - apply list_includes_In, in_map, filter_In. split; assumption.
  - apply not_true_is_false. intros Hinc.
    apply list_includes_In, in_map_iff in Hinc as (x & Hid & Hx).
    apply filter_In in Hx as [Hx Hpx].
    assert (x = r) as ->; [|congruence].
    unfold index_ids in Hnd. clear Hp Hpx.
    induction rows as [|a rows IH]; [contradiction|].
    simpl in Hnd. apply NoDup_cons_iff in Hnd as [Hna Hnd].
    destruct Hx as [->|Hx], Hin as [->|Hin]; try reflexivity.
    + exfalso. apply Hna. rewrite Hid. now apply in_map.
    + exfalso. apply Hna. rewrite <- Hid. now apply in_map.
    + now apply IH.
Qed.

(** C6, as stated, fails: [prune(0, Medium)] run in the millisecond in which
    an entry of low importance was created removes the entry from either
    store, although a [maxAge] is given and the age, zero, does not exceed
    it. *)
Lemma prune_zero_age_bound :
  InMemoryMemoryStore.memories
    (snd (InMemoryMemoryStore.prune (Some 0) (Some Medium) 1000 fresh_low_memory)) = []
  /\ FileMemoryStore.index
       (snd (FileMemoryStore.prune (Some 0) (Some Medium) 1000 fresh_low_files)) = []
  /\ FileMemoryStore.files
       (snd (FileMemoryStore.prune (Some 0) (Some Medium) 1000 fresh_low_files))
     !! "mem-1" = None
  /\ length (InMemoryMemoryStore.memories fresh_low_memory) = 1%nat
  /\ ~ stated_prune (Some 0) (Some Medium) 1000 1000 Low.
Proof.
  repeat split; try reflexivity.
  intros [(m & [= <-] & Hage & _)|[Habsent _]]; [lia | discriminate].
Qed.

(** C6, amended.  In both stores [prune(maxAge, minImportance)] removes an
    entry if and only if (maxAge is given and is not zero, the age of the
    entry exceeds it and its importance is below minImportance) or (maxAge
    is absent or zero and its importance is below minImportance); the file
    store removes the row of the index and the file.  In particular
    [prune(undefined, Medium)] removes every entry of importance Low and
    keeps every entry of importance Medium or more, whatever their age. *)
Theorem prune_removes_iff (maxAge : option Z) (minImportance : option MemoryImportance)
    (now : Z) :
  (forall (s : InMemoryMemoryStore.t) (e : MemoryEntry),
      In e (InMemoryMemoryStore.memories s) ->
      (In e (InMemoryMemoryStore.memories
               (snd (InMemoryMemoryStore.prune maxAge minImportance now s)))
       <-> ~ amended_prune maxAge minImportance now
               (createdAt (metadata e)) (importance (metadata e))))
  /\ (forall (s : FileMemoryStore.t) (r : FileMemoryStore.IndexEntry),
        List.NoDup (index_ids (FileMemoryStore.index s)) ->
        In r (FileMemoryStore.index s) ->
        let s' := snd (FileMemoryStore.prune maxAge minImportance now s) in
        let removed :=
          amended_prune maxAge minImportance now
            (FileMemoryStore.ix_createdAt r) (FileMemoryStore.ix_importance r) in
        (In r (FileMemoryStore.index s') <-> ~ removed)
        /\ (removed ->
            FileMemoryStore.files s' !! FileMemoryStore.ix_id r = None)
        /\ (~ removed ->
            FileMemoryStore.files s' !! FileMemoryStore.ix_id r
            = FileMemoryStore.files s !! FileMemoryStore.ix_id r))
  /\ (forall (s : InMemoryMemoryStore.t) (e : MemoryEntry) (at_ : Z),
        In e (InMemoryMemoryStore.memories s) ->
        (In e (InMemoryMemoryStore.memories
                 (snd (InMemoryMemoryStore.prune None (Some Medium) at_ s)))
         <-> importance_value Medium <= importance_value (importance (metadata e))))
  /\ (forall (s : FileMemoryStore.t) (r : FileMemoryStore.IndexEntry) (at_ : Z),
        List.NoDup (index_ids (FileMemoryStore.index s)) ->
        In r (FileMemoryStore.index s) ->
        (In r (FileMemoryStore.index
                 (snd (FileMemoryStore.prune None (Some Medium) at_ s)))
         <-> importance_value Medium
             <= importance_value (FileMemoryStore.ix_importance r))).
Proof.
  assert (forall mA mI t (s : InMemoryMemoryStore.t) (e : MemoryEntry),
             In e (InMemoryMemoryStore.memories s) ->
             (In e (InMemoryMemoryStore.memories
                      (snd (InMemoryMemoryStore.prune mA mI t s)))
              <-> shouldPrune mA mI t (createdAt (metadata e))
                    (importance (metadata e)) = false)) as Hmem.
  { intros mA mI t s e Hin. simpl. rewrite filter_In, negb_true_iff. tauto. }
  assert (forall mA mI t (s : FileMemoryStore.t) (r : FileMemoryStore.IndexEntry),
             List.NoDup (index_ids (FileMemoryStore.index s)) ->
             In r (FileMemoryStore.index s) ->
             (In r (FileMemoryStore.index (snd (FileMemoryStore.prune mA mI t s)))
              <-> shouldPrune mA mI t (FileMemoryStore.ix_createdAt r)
                    (FileMemoryStore.ix_importance r) = false)
             /\ FileMemoryStore.files (snd (FileMemoryStore.prune mA mI t s))
                !! FileMemoryStore.ix_id r
                = if shouldPrune mA mI t (FileMemoryStore.ix_createdAt r)
                       (FileMemoryStore.ix_importance r)
                  then None
                  else FileMemoryStore.files s !! FileMemoryStore.ix_id r) as Hfile.
  { intros mA mI t s r Hnd Hin. unfold FileMemoryStore.prune.
    destruct (FileMemoryStore.unlink_all _ _) as [count fs] eqn:Hu. simpl.
    rewrite filter_In, negb_true_iff, (prune_index_ids mA mI t _ r Hnd Hin).
    split; [tauto|].
    change fs with (snd (count, fs)). rewrite <- Hu, unlink_all_lookup.
    now rewrite (prune_index_ids mA mI t _ r Hnd Hin). }
  assert (forall imp t c,
             shouldPrune None (Some Medium) t c imp = false
             <-> importance_value Medium <= importance_value imp) as Hlow.
  { intros imp t c. unfold shouldPrune. destruct imp; vm_compute; intuition congruence. }
  split; [|split; [|split]].
  - intros s e Hin. rewrite (Hmem _ _ _ _ _ Hin). apply shouldPrune_false_amended.
  - intros s r Hnd Hin s' removed. subst s' removed.
    destruct (Hfile maxAge minImportance now s r Hnd Hin) as [Hrow Hf].
    split; [|split].
    + rewrite Hrow. apply shouldPrune_false_amended.
    + intros Hp. apply shouldPrune_amended in Hp. now rewrite Hf, Hp.
    + intros Hp. apply shouldPrune_false_amended in Hp. now rewrite Hf, Hp.
  - intros s e at_ Hin. rewrite (Hmem _ _ _ _ _ Hin). apply Hlow.
  - intros s r at_ Hnd Hin.
    destruct (Hfile None (Some Medium) at_ s r Hnd Hin) as [Hrow _].
    rewrite Hrow. apply Hlow.
Qed.

Lemma prune_removes_iff_witness :
  ~ In fresh_low_entry
      (InMemoryMemoryStore.memories
         (snd (InMemoryMemoryStore.prune None (Some Medium) 5000 fresh_low_memory)))
  /\ In fresh_low_row
       (FileMemoryStore.index
          (snd (FileMemoryStore.prune (Some 10) (Some Medium) 1005 fresh_low_files)))
  /\ FileMemoryStore.files
       (snd (FileMemoryStore.prune (Some 10) (Some Medium) 1020 fresh_low_files))
     !! "mem-1" = None.
Proof.
  destruct (prune_removes_iff None (Some Medium) 5000) as (Hmem & _ & _ & _).
  destruct (prune_removes_iff (Some 10) (Some Medium) 1005) as (_ & Hkeep & _ & _).
  destruct (prune_removes_iff (Some 10) (Some Medium) 1020) as (_ & Hdrop & _ & _).
  assert (List.NoDup (index_ids (FileMemoryStore.index fresh_low_files))) as Hnd.
  { vm_compute. repeat constructor. intros []. }
  assert (In fresh_low_row (FileMemoryStore.index fresh_low_files)) as Hrow.
  { vm_compute. now left. }
  split; [|split].
  - intros Hin. apply (Hmem fresh_low_memory fresh_low_entry) in Hin.
    + apply Hin. right. split; [now left | reflexivity].
    + vm_compute. now left.
  - apply (Hkeep fresh_low_files fresh_low_row Hnd Hrow).
    intros [(m & [= <-] & _ & Hage & _)|[[Habsent|Hzero] _]];
      [vm_compute in Hage; discriminate | discriminate | discriminate].
  - apply (Hdrop fresh_low_files fresh_low_row Hnd Hrow).
    left. exists 10. repeat split; [discriminate | reflexivity..].
Defined.

(** ** Ids across the two tiers *)

Lemma map_has_delete (i : string) (l : list MemoryEntry) :
  InMemoryMemoryStore.map_has i (InMemoryMemoryStore.map_delete i l) = false.
Proof.
  unfold InMemoryMemoryStore.map_has, InMemoryMemoryStore.map_delete.
  apply not_true_is_false. intros Hex.
  apply existsb_exists in Hex as (e & Hin & Heq).
  apply filter_In in Hin as [_ Hne]. rewrite Heq in Hne. discriminate.
Qed.



(** ** Access metadata in the in-memory store *)

Lemma mem_id_inj (a b : Z) : mem_id a = mem_id b -> a = b.
Proof.
  unfold mem_id. intros Heq.
  apply (inj (String.append "mem-")) in Heq. now apply (inj pretty) in Heq.
Qed.

Lemma touch_nil (now : Z) (l : list MemoryEntry) :
  InMemoryMemoryStore.touch [] now l = l.
Proof. unfold InMemoryMemoryStore.touch. simpl. apply map_id. Qed.

Lemma fresh_id_absent (s : InMemoryMemoryStore.t) :
  ids_handed_out s ->
  InMemoryMemoryStore.map_has (mem_id (InMemoryMemoryStore.nextId s))
    (InMemoryMemoryStore.memories s) = false.
Proof.
  intros Hwf. apply not_true_is_false. intros Hhas.
  apply existsb_exists in Hhas as (e & Hin & Heq).
  apply String.eqb_eq in Heq.
  destruct (Hwf e Hin) as (k & Hk & Hlt). rewrite Hk in Heq.
  apply mem_id_inj in Heq. lia.
Qed.

(** What one operation does to the entries of the store: those it hits
    record an access, the others are unchanged, and [store] appends the new
    entry. *)
Lemma apply_op_memories (now : Z) (op : StoreOp) (s : InMemoryMemoryStore.t) :
  ids_handed_out s ->
  exists added,
    InMemoryMemoryStore.memories (snd (apply_op now op s))
    = (InMemoryMemoryStore.touch (fst (apply_op now op s)) now
         (InMemoryMemoryStore.memories s) ++ added)%list
    /\ accessed_by now added
    /\ InMemoryMemoryStore.nextId s <= InMemoryMemoryStore.nextId (snd (apply_op now op s))
    /\ (forall e, In e added ->
          id e = mem_id (InMemoryMemoryStore.nextId s)
          /\ InMemoryMemoryStore.nextId (snd (apply_op now op s))
             = InMemoryMemoryStore.nextId s + 1).
Proof.
  intros Hwf. destruct op as [ty c imp tgs|i|q]; simpl.
  - eexists [_]. unfold InMemoryMemoryStore.map_set. simpl.
    rewrite (fresh_id_absent s Hwf), touch_nil.
    split; [reflexivity|]. split.
    + constructor; [simpl; lia | constructor].
    + split; [lia|]. intros e [<-|[]]. split; reflexivity.
  - unfold InMemoryMemoryStore.retrieve.
    destruct (InMemoryMemoryStore.map_get i (InMemoryMemoryStore.memories s))
      as [entry|] eqn:Hget; simpl.
    + exists []. rewrite app_nil_r.
      assert (id entry = i) as ->.
      { unfold InMemoryMemoryStore.map_get in Hget. apply find_some in Hget as [_ Heq].
        now apply String.eqb_eq in Heq. }
      split; [reflexivity|]. split; [constructor|]. split; [lia|]. intros e [].
    + exists []. rewrite app_nil_r, touch_nil.
      split; [reflexivity|]. split; [constructor|]. split; [lia|]. intros e [].
  - exists []. rewrite app_nil_r, map_map. simpl.
    split; [reflexivity|]. split; [constructor|]. split; [lia|]. intros e [].
Qed.

Lemma touch_In (ids : list string) (now : Z) (l : list MemoryEntry) (e : MemoryEntry) :
  In e l ->
  In (if list_includes ids (id e) then recordAccess now e else e)
     (InMemoryMemoryStore.touch ids now l).
Proof.
  intros Hin. unfold InMemoryMemoryStore.touch.
  apply (in_map (fun e => if list_includes ids (id e) then recordAccess now e else e)).
  exact Hin.
Qed.

Lemma touch_accessed_by (ids : list string) (t now : Z) (l : list MemoryEntry) :
  t <= now -> accessed_by t l -> accessed_by now (InMemoryMemoryStore.touch ids now l).
Proof.
  intros Hle Hall. unfold accessed_by, InMemoryMemoryStore.touch in *.
  rewrite List.Forall_forall in *. intros e' Hin.
  apply in_map_iff in Hin as (e & <- & Hin). destruct (Hall e Hin) as [Hc Ha].
  destruct (list_includes ids (id e)); simpl; lia.
Qed.

Lemma touch_ids (ids : list string) (now : Z) (l : list MemoryEntry) :
  map id (InMemoryMemoryStore.touch ids now l) = map id l.
Proof.
  unfold InMemoryMemoryStore.touch. rewrite map_map. apply map_ext.
  intros e. now destruct (list_includes ids (id e)).
Qed.

Lemma apply_op_handed_out (now : Z) (op : StoreOp) (s : InMemoryMemoryStore.t) :
  ids_handed_out s -> ids_handed_out (snd (apply_op now op s)).
Proof.
  intros Hwf. destruct (apply_op_memories now op s Hwf) as (added & Hmem & _ & Hnext & Hadd).
  intros e Hin. rewrite Hmem in Hin. apply in_app_or in Hin as [Hin|Hin].
  - assert (In (id e) (map id (InMemoryMemoryStore.memories s))) as Hid.
    { rewrite <- (touch_ids (fst (apply_op now op s)) now). now apply in_map. }
    apply in_map_iff in Hid as (e0 & Heq & Hin0).
    destruct (Hwf e0 Hin0) as (k & Hk & Hlt). exists k. split; [congruence | lia].
  - destruct (Hadd e Hin) as [Hid Hn]. eexists. split; [exact Hid | lia].
Qed.

(** In the in-memory store, along every sequence of [store],
    [retrieve] and [query] operations read off a clock that does not run
    backwards: every entry has [accessedAt >= createdAt]; and an entry
    present at the start is still present, with the same id, content and
    creation time, an [accessCount] equal to its count at the start plus
    the number of operations that hit it, hence not smaller, and an
    [accessedAt] not smaller than at the start. *)
Theorem access_metadata_monotone (trace : list (Z * StoreOp)) :
  forall (s : InMemoryMemoryStore.t) (t0 : Z),
    ids_handed_out s ->
    accessed_by t0 (InMemoryMemoryStore.memories s) ->
    clock_monotone t0 trace ->
    Forall (fun e => createdAt (metadata e) <= accessedAt (metadata e))
           (InMemoryMemoryStore.memories (run_ops trace s))
    /\ forall e, In e (InMemoryMemoryStore.memories s) ->
         exists e',
           In e' (InMemoryMemoryStore.memories (run_ops trace s))
           /\ id e' = id e /\ type e' = type e /\ content e' = content e
           /\ createdAt (metadata e') = createdAt (metadata e)
           /\ accessCount (metadata e')
              = accessCount (metadata e) + hit_count (id e) trace s
           /\ accessCount (metadata e) <= accessCount (metadata e')
           /\ accessedAt (metadata e) <= accessedAt (metadata e').
Proof.
  induction trace as [|[now op] rest IH]; intros s t0 Hwf Htimes Hclock.
  - simpl. split.
    + unfold accessed_by in Htimes. rewrite List.Forall_forall in *.
      intros e Hin. now destruct (Htimes e Hin).
    + intros e Hin. exists e. repeat split; try assumption; lia.
  - destruct Hclock as [Hle Hclock]. simpl.
    destruct (apply_op_memories now op s Hwf) as (added & Hmem & Hadded & _ & _).
    assert (accessed_by now (InMemoryMemoryStore.memories (snd (apply_op now op s))))
      as Htimes'.
    { rewrite Hmem. apply List.Forall_app. split; [|exact Hadded].
      now apply touch_accessed_by with t0. }
    destruct (IH (snd (apply_op now op s)) now
                (apply_op_handed_out now op s Hwf) Htimes' Hclock) as [Hinv Hold].
    split; [exact Hinv|].
    intros e Hin.
    pose proof (touch_In (fst (apply_op now op s)) now _ e Hin) as Hstep.
    assert (In (if list_includes (fst (apply_op now op s)) (id e)
                then recordAccess now e else e)
               (InMemoryMemoryStore.memories (snd (apply_op now op s)))) as Hin1.
    { rewrite Hmem. apply in_or_app. now left. }
    destruct (Hold _ Hin1) as (e' & Hin' & Hid & Hty & Hcontent & Hcreated & Hcount
                               & Hmono & Haccess).
    assert (accessedAt (metadata e) <= now) as Hnow.
    { unfold accessed_by in Htimes. rewrite List.Forall_forall in Htimes.
      destruct (Htimes e Hin). lia. }
    exists e'. split; [exact Hin'|].
    destruct (list_includes (fst (apply_op now op s)) (id e)); simpl in *;
      repeat split; try congruence; lia.
Qed.

Lemma access_metadata_monotone_witness :
  exists e',
    In e' (InMemoryMemoryStore.memories (run_ops example_trace fresh_low_memory))
    /\ id e' = "mem-1"
    /\ accessCount (metadata e') = 0 + 2
    /\ 1000 <= accessedAt (metadata e').
Proof.
  destruct (access_metadata_monotone example_trace fresh_low_memory 1000)
    as [_ Hold].
  - intros e [<-|[]]. exists 1. split; reflexivity.
  - constructor; [simpl; lia | constructor].
  - simpl. lia.
  - destruct (Hold fresh_low_entry) as (e' & Hin & Hid & _ & _ & _ & Hcount & _ & Haccess).
    + vm_compute. now left.
    + exists e'. repeat split; assumption.
Defined.

(** ** Queries *)

Section SortFacts.
Context {A : Type} (key : A -> Z).

Lemma insert_desc_perm (x : A) (l : list A) :
  Permutation (insert_desc key x l) (x :: l).
Proof.
  induction l as [|y l IH]; simpl; [reflexivity|].
  destruct (key y <=? key x); [reflexivity|].
  rewrite IH. apply perm_swap.
Qed.

Lemma sort_desc_perm (l : list A) : Permutation (sort_desc key l) l.
Proof.
  induction l as [|x l IH]; simpl; [reflexivity|].
  rewrite insert_desc_perm. now apply perm_skip.
Qed.

Lemma sort_desc_In (l : list A) (x : A) : In x (sort_desc key l) <-> In x l.
Proof.
  split; apply Permutation_in; [|symmetry]; apply sort_desc_perm.
Qed.

Lemma insert_desc_sorted (x : A) (l : list A) :
  descending key l -> descending key (insert_desc key x l).
Proof.
  unfold descending. induction 1 as [|y l Hs IH Hall]; simpl.
  - constructor; constructor.
  - destruct (Z.leb_spec (key y) (key x)) as [Hle|Hgt].
    + constructor; [now constructor|].
      constructor; [exact Hle|].
      rewrite List.Forall_forall in *. intros z Hz. specialize (Hall z Hz). lia.
    + constructor; [exact IH|].
      rewrite List.Forall_forall in *. intros z Hz.
      apply (Permutation_in _ (insert_desc_perm x l)) in Hz.
      destruct Hz as [<-|Hz]; [lia | now apply Hall].
Qed.

Lemma sort_desc_sorted (l : list A) : descending key (sort_desc key l).
Proof.
  induction l as [|x l IH]; simpl; [constructor|].
  now apply insert_desc_sorted.
Qed.

End SortFacts.

Lemma filter_filter {A : Type} (f g : A -> bool) (l : list A) :
  List.filter f (List.filter g l) = List.filter (fun x => g x && f x) l.
Proof.
  induction l as [|x l IH]; simpl; [reflexivity|].
  destruct (g x); simpl; [|exact IH]. destruct (f x); now rewrite IH.
Qed.

Lemma firstn_In {A : Type} (n : nat) (l : list A) (x : A) :
  In x (firstn n l) -> In x l.
Proof.
  intros Hin. rewrite <- (firstn_skipn n l). apply in_or_app. now left.
Qed.

Lemma apply_limit_In {A : Type} (limit : option Z) (l : list A) (x : A) :
  In x (apply_limit limit l) -> In x l.
Proof.
  unfold apply_limit. destruct limit as [n|]; [|trivial].
  destruct (0 <? n); [apply firstn_In | trivial].
Qed.

Lemma filter_true {A : Type} (l : list A) : List.filter (fun _ => true) l = l.
Proof. induction l as [|x l IH]; simpl; [reflexivity | now rewrite IH]. Qed.

(** Each filter of [query] is a [filter] by its predicate, which holds of
    every entry when the query does not supply it. *)
Lemma optional_filter {A : Type} (o : bool) (f : A -> bool) (l : list A) :
  (if o then List.filter f l else l) = List.filter (fun e => if o then f e else true) l.
Proof. destruct o; [reflexivity | now rewrite filter_true]. Qed.

(** The five filters of the in-memory [query] keep the entries that satisfy
    the conjunction of the supplied predicates. *)
Lemma in_memory_filters (q : MemoryQuery) (now : Z) (l : list MemoryEntry) :
  InMemoryMemoryStore.filter_text q
    (InMemoryMemoryStore.filter_age q now
       (InMemoryMemoryStore.filter_importance q
          (InMemoryMemoryStore.filter_tags q
             (InMemoryMemoryStore.filter_type q l))))
  = List.filter (satisfies q now) l.
Proof.
  assert (forall l0, InMemoryMemoryStore.filter_type q l0
                     = List.filter (fun e => match q_type q with
                                             | Some ty => MemoryType_eqb (type e) ty
                                             | None => true
                                             end) l0) as Htype.
  { intros l0. unfold InMemoryMemoryStore.filter_type.
    destruct (q_type q); [reflexivity | now rewrite filter_true]. }
  assert (forall l0, InMemoryMemoryStore.filter_tags q l0
                     = List.filter
                         (fun e => match q_tags q with
                                   | Some (t :: ts) =>
                                       existsb (fun tag => list_includes (tags (metadata e)) tag)
                                               (t :: ts)
                                   | _ => true
                                   end) l0) as Htags.
  { intros l0. unfold InMemoryMemoryStore.filter_tags.
    destruct (q_tags q) as [[|t ts]|]; simpl; try reflexivity; now rewrite filter_true. }
  assert (forall l0, InMemoryMemoryStore.filter_importance q l0
                     = List.filter
                         (fun e => match q_minImportance q with
                                   | Some mi => importance_value mi
                                                <=? importance_value (importance (metadata e))
                                   | None => true
                                   end) l0) as Himp.
  { intros l0. unfold InMemoryMemoryStore.filter_importance.
    destruct (q_minImportance q); [reflexivity | now rewrite filter_true]. }
  assert (forall l0, InMemoryMemoryStore.filter_age q now l0
                     = List.filter
                         (fun e => match truthy_number (q_maxAge q) with
                                   | Some maxAge => now - createdAt (metadata e) <=? maxAge
                                   | None => true
                                   end) l0) as Hage.
  { intros l0. unfold InMemoryMemoryStore.filter_age.
    destruct (truthy_number (q_maxAge q)); [reflexivity | now rewrite filter_true]. }
  assert (forall l0, InMemoryMemoryStore.filter_text q l0
                     = List.filter
                         (fun e => match truthy_string (q_searchText q) with
                                   | Some searchText =>
                                       includes (toLowerCase (JSON_stringify (content e)))
                                                (toLowerCase searchText)
                                   | None => true
                                   end) l0) as Htext.
  { intros l0. unfold InMemoryMemoryStore.filter_text.
    destruct (truthy_string (q_searchText q)); [reflexivity | now rewrite filter_true]. }
  rewrite Htext, Hage, Himp, Htags, Htype, !filter_filter.
  apply filter_ext. intros e. unfold satisfies. now rewrite !andb_assoc.
Qed.

(** The in-memory [query] returns exactly the entries that satisfy the
    supplied predicates, most recently accessed first, cut to the limit
    after all the filters, each with its access recorded. *)
Lemma in_memory_query_exact (q : MemoryQuery) (now : Z) (s : InMemoryMemoryStore.t) :
  let matching := List.filter (satisfies q now) (InMemoryMemoryStore.memories s) in
  let ranked := sort_desc (fun e => accessedAt (metadata e)) matching in
  fst (InMemoryMemoryStore.query q now s)
  = Ok (map (recordAccess now) (apply_limit (q_limit q) ranked))
  /\ Permutation ranked matching
  /\ descending (fun e => accessedAt (metadata e)) ranked
  /\ Forall (fun e' => exists e, In e (InMemoryMemoryStore.memories s)
                          /\ satisfies q now e = true
                          /\ e' = recordAccess now e
                          /\ accessCount (metadata e') = accessCount (metadata e) + 1
                          /\ accessedAt (metadata e') = now)
            (map (recordAccess now) (apply_limit (q_limit q) ranked)).
Proof.
  intros matching ranked. subst matching ranked.
  unfold InMemoryMemoryStore.query. simpl. rewrite in_memory_filters.
  split; [reflexivity|]. split; [apply sort_desc_perm|].
  split; [apply sort_desc_sorted|].
  rewrite List.Forall_forall. intros e' Hin.
  apply in_map_iff in Hin as (e & <- & Hin).
  assert (In e (sort_desc (fun e => accessedAt (metadata e))
                  (List.filter (satisfies q now) (InMemoryMemoryStore.memories s))))
    as Hsorted.
  { eapply apply_limit_In. exact Hin. }
  apply sort_desc_In, filter_In in Hsorted as [Hmem Hsat].
  exists e. repeat split; assumption.
Qed.

(** C5 at the failing input: the file store holds "apple" and, accessed
    more recently, "banana".  The query [{ searchText: 'apple', limit: 1 }]
    cuts the candidates to the most recent one before it reads their
    content, so it returns nothing, although "apple" satisfies every
    supplied predicate; it records an access on "banana", which it does not
    return.  The in-memory store, on the same two entries, returns
    "apple". *)
Theorem file_query_limits_before_search :
  fst (FileMemoryStore.query one_apple 2000 fruit_files) = Ok []
  /\ FileMemoryStore.files fruit_files !! "mem-1" = Some apple_file
  /\ satisfies one_apple 2000 apple_file = true
  /\ FileMemoryStore.files (snd (FileMemoryStore.query one_apple 2000 fruit_files))
     !! "mem-2" = Some (recordAccess 2000 banana_file)
  /\ fst (InMemoryMemoryStore.query one_apple 2000 fruit_memory)
     = Ok [recordAccess 2000 apple_memory].
Proof.
  repeat split; vm_compute; reflexivity.
Qed.

(** C7 at the failing input: the file store holds "apple" and, accessed
    more recently, "banana", neither accessed yet.  The query
    [{ searchText: 'apple', limit: 1 }] returns nothing, so that it hits no
    entry; yet it has loaded "banana" through [retrieve], and the
    [accessCount] of "banana" is 1 afterwards, in its file and in its row
    of the index.  The in-memory store, on the same two entries, returns
    "apple" and records an access on "apple" alone. *)
Theorem file_query_counts_unreturned_access :
  let after := snd (FileMemoryStore.query one_apple 2000 fruit_files) in
  fst (FileMemoryStore.query one_apple 2000 fruit_files) = Ok []
  /\ FileMemoryStore.files fruit_files !! "mem-2" = Some banana_file
  /\ accessCount (metadata banana_file) = 0
  /\ (exists e',
        FileMemoryStore.files after !! "mem-2" = Some e'
        /\ accessCount (metadata e') = 1
        /\ accessedAt (metadata e') = 2000)
  /\ map (fun r => (FileMemoryStore.ix_id r, FileMemoryStore.ix_accessCount r))
         (FileMemoryStore.index after)
     = [("mem-1", 0); ("mem-2", 1)]
  /\ fst (InMemoryMemoryStore.query one_apple 2000 fruit_memory)
     = Ok [recordAccess 2000 apple_memory]
  /\ map (fun e => (id e, accessCount (metadata e)))
         (InMemoryMemoryStore.memories
            (snd (InMemoryMemoryStore.query one_apple 2000 fruit_memory)))
     = [("mem-1", 1); ("mem-2", 0)].
Proof.
  cbv zeta. split; [vm_compute; reflexivity|]. split; [vm_compute; reflexivity|].
  split; [reflexivity|]. split.
  - exists (recordAccess 2000 banana_file). split; [vm_compute; reflexivity|]. now split.
  - split; [vm_compute; reflexivity|]. split; vm_compute; reflexivity.
Qed.

(** ** Consolidation *)

Lemma satisfies_consolidation (m : MemoryManager.t) (now : Z) (e : MemoryEntry) :
  satisfies (MemoryManager.consolidation_query m) now e
  = selected (MemoryManager.consolidationImportance m) e.
Proof.
  unfold satisfies, selected. simpl. now rewrite !andb_true_r.
Qed.

(** A copy in the long-term store survives a later [store], whatever the
    file system does to that one. *)
Lemma store_keeps_copy ty c imp tgs now fault (lt : FileMemoryStore.t) (e : MemoryEntry) :
  long_term_copy lt e ->
  long_term_copy (snd (FileMemoryStore.store ty c imp tgs now fault lt)) e.
Proof.
  intros (k & d & r & Hk & Hfile & Hid & Hty & Hc & Hi & Ht & Hr & Hrid & Hrty & Hri & Hrt).
  exists k, d, r.
  assert (mem_id (FileMemoryStore.nextId lt) <> mem_id k) as Hne.
  { intros Heq. apply mem_id_inj in Heq. lia. }
  destruct fault; simpl; repeat split;
    first [ assumption
          | lia
          | rewrite lookup_insert_ne by exact Hne; exact Hfile
          | apply in_or_app; left; exact Hr ].
Qed.

(** A [store] the file system does not fail leaves a copy. *)
Lemma store_makes_copy (now : Z) (lt : FileMemoryStore.t) (e : MemoryEntry) :
  long_term_copy
    (snd (FileMemoryStore.store LongTerm (content e) (importance (metadata e))
            (tags (metadata e)) now FileMemoryStore.NoFault lt)) e.
Proof.
  eexists (FileMemoryStore.nextId lt), _, _. simpl.
  split; [lia|]. split; [apply lookup_insert_eq|].
  repeat (split; [reflexivity|]).
  split; [apply in_or_app; right; now left|].
  repeat split.
Qed.

Lemma filter_drop_ids (i : string) (ids : list string) (l : list MemoryEntry) :
  List.filter (fun e => negb (list_includes ids (id e)))
    (InMemoryMemoryStore.map_delete i l)
  = List.filter (fun e => negb (list_includes (i :: ids) (id e))) l.
Proof.
  unfold InMemoryMemoryStore.map_delete. rewrite filter_filter.
  apply filter_ext. intros e. unfold list_includes. simpl.
  rewrite negb_orb. now rewrite String.eqb_sym.
Qed.

(** The loop of [consolidate]: it counts the memories whose copy the file
    system lets through, deletes exactly those from the short-term store,
    and leaves a copy of each of them in the long-term store. *)
Lemma consolidate_loop_spec (faults : string -> FileMemoryStore.WriteFault) (now : Z)
    (memories : list MemoryEntry) :
  forall (st : InMemoryMemoryStore.t) (lt : FileMemoryStore.t) (n : Z),
    let moved := List.filter (fun x => write_ok (faults (id x))) memories in
    match MemoryManager.consolidate_loop faults now memories st lt n with
    | (n', st', lt') =>
        n' = n + Z.of_nat (length moved)
        /\ InMemoryMemoryStore.memories st'
           = List.filter (fun e => negb (list_includes (map id moved) (id e)))
               (InMemoryMemoryStore.memories st)
        /\ (forall x, In x moved -> long_term_copy lt' x)
        /\ (forall e, long_term_copy lt e -> long_term_copy lt' e)
    end.
Proof.
  induction memories as [|memory rest IH]; intros st lt n; simpl.
  - split; [lia|]. split.
    + symmetry. apply filter_true.
    + split; [intros x []|trivial].
  - destruct (faults (id memory)) eqn:Hfault; simpl.
    + specialize (IH (snd (InMemoryMemoryStore.delete (id memory) st))
                    (snd (FileMemoryStore.store LongTerm (content memory)
                            (importance (metadata memory)) (tags (metadata memory))
                            now FileMemoryStore.NoFault lt))
                    (n + 1)).
      simpl in IH.
      destruct (MemoryManager.consolidate_loop faults now rest _ _ _)
        as [[n' st'] lt'].
      destruct IH as (Hn & Hmem & Hmoved & Hkept).
      split; [lia|]. split; [|split].
      * rewrite Hmem. apply filter_drop_ids.
      * intros x [<-|Hx]; [|now apply Hmoved].
        apply Hkept. exact (store_makes_copy now lt memory).
      * intros e He. apply Hkept.
        exact (store_keeps_copy LongTerm (content memory) (importance (metadata memory))
                 (tags (metadata memory)) now FileMemoryStore.NoFault lt e He).
    + specialize (IH st
                    (snd (FileMemoryStore.store LongTerm (content memory)
                            (importance (metadata memory)) (tags (metadata memory))
                            now FileMemoryStore.EntryWriteFails lt))
                    n).
      simpl in IH.
      destruct (MemoryManager.consolidate_loop faults now rest _ _ _)
        as [[n' st'] lt'].
      destruct IH as (Hn & Hmem & Hmoved & Hkept).
      split; [lia|]. split; [exact Hmem|]. split; [exact Hmoved|].
      intros e He. apply Hkept.
      exact (store_keeps_copy LongTerm (content memory) (importance (metadata memory))
                 (tags (metadata memory)) now FileMemoryStore.EntryWriteFails lt e He).
    + specialize (IH st
                    (snd (FileMemoryStore.store LongTerm (content memory)
                            (importance (metadata memory)) (tags (metadata memory))
                            now FileMemoryStore.IndexWriteFails lt))
                    n).
      simpl in IH.
      destruct (MemoryManager.consolidate_loop faults now rest _ _ _)
        as [[n' st'] lt'].
      destruct IH as (Hn & Hmem & Hmoved & Hkept).
      split; [lia|]. split; [exact Hmem|]. split; [exact Hmoved|].
      intros e He. apply Hkept.
      exact (store_keeps_copy LongTerm (content memory) (importance (metadata memory))
                 (tags (metadata memory)) now FileMemoryStore.IndexWriteFails lt e He).
Qed.

Lemma query_unfold (q : MemoryQuery) (now : Z) (s : InMemoryMemoryStore.t) :
  let results :=
    apply_limit (q_limit q)
      (sort_desc (fun e => accessedAt (metadata e))
         (List.filter (satisfies q now) (InMemoryMemoryStore.memories s))) in
  InMemoryMemoryStore.query q now s
  = (Ok (map (recordAccess now) results),
     {| InMemoryMemoryStore.memories :=
          InMemoryMemoryStore.touch (map id results) now (InMemoryMemoryStore.memories s);
        InMemoryMemoryStore.nextId := InMemoryMemoryStore.nextId s |}).
Proof.
  simpl. unfold InMemoryMemoryStore.query. now rewrite in_memory_filters.
Qed.

Lemma filter_perm {A : Type} (f : A -> bool) (l l' : list A) :
  Permutation l l' -> Permutation (List.filter f l) (List.filter f l').
Proof.
  induction 1 as [|x l l' _ IH|x y l|l l' l'' _ IH1 _ IH2]; simpl.
  - constructor.
  - destruct (f x); [now apply perm_skip | exact IH].
  - destruct (f x), (f y); try reflexivity. apply perm_swap.
  - now transitivity (List.filter f l').
Qed.

Lemma filter_map_swap {A B : Type} (f : B -> bool) (g : A -> B) (l : list A) :
  List.filter f (map g l) = map g (List.filter (fun x => f (g x)) l).
Proof.
  induction l as [|x l IH]; simpl; [reflexivity|].
  destruct (f (g x)); simpl; now rewrite IH.
Qed.

Lemma same_id_same_entry (l : list MemoryEntry) (x y : MemoryEntry) :
  List.NoDup (map id l) -> In x l -> In y l -> id x = id y -> x = y.
Proof.
  induction l as [|a l IH]; intros Hnd Hx Hy Hid; [contradiction|].
  simpl in Hnd. apply NoDup_cons_iff in Hnd as [Hna Hnd].
  destruct Hx as [->|Hx], Hy as [->|Hy]; try reflexivity.
  - exfalso. apply Hna. rewrite Hid. now apply in_map.
  - exfalso. apply Hna. rewrite <- Hid. now apply in_map.
  - now apply IH.
Qed.

(** C1, as stated, fails: an episodic entry of importance High, held by the
    short-term store, is not moved by [consolidate]: it stays in the
    short-term store and the long-term store stays empty. *)
Lemma consolidate_skips_episodic :
  In episodic_lesson
     (InMemoryMemoryStore.memories (MemoryManager.shortTermStore episodic_manager))
  /\ importance_value (MemoryManager.consolidationImportance episodic_manager)
     <= importance_value (importance (metadata episodic_lesson))
  /\ fst (MemoryManager.consolidate no_faults 2000 episodic_manager) = Ok 0
  /\ InMemoryMemoryStore.memories
       (MemoryManager.shortTermStore
          (snd (MemoryManager.consolidate no_faults 2000 episodic_manager)))
     = [episodic_lesson]
  /\ FileMemoryStore.index
       (MemoryManager.longTermStore
          (snd (MemoryManager.consolidate no_faults 2000 episodic_manager)))
     = []
  /\ ~ long_term_copy
         (MemoryManager.longTermStore
            (snd (MemoryManager.consolidate no_faults 2000 episodic_manager)))
         episodic_lesson.
Proof.
  split; [vm_compute; now left|]. split; [vm_compute; discriminate|].
  split; [reflexivity|]. split; [reflexivity|]. split; [reflexivity|].
  intros (k & d & r & _ & _ & _ & _ & _ & _ & _ & Hr & _).
  vm_compute in Hr. exact Hr.
Qed.

(** C1, amended.  After [MemoryManager.consolidate], every entry of type
    short-term that the short-term store held with an importance at least
    the configured threshold (High by default) has, when the long-term
    write of its copy succeeded, a long-term entry with its content,
    importance and tags in the long-term store and no entry under its id in
    the short-term store; when that write failed it is still in the
    short-term store.  The count returned is the number of entries moved,
    and the entries that were not selected stay as they were. *)
Theorem consolidate_moves_short_term
    (faults : string -> FileMemoryStore.WriteFault) (now : Z) (m : MemoryManager.t) :
  let m' := snd (MemoryManager.consolidate faults now m) in
  let threshold := MemoryManager.consolidationImportance m in
  let held := InMemoryMemoryStore.memories (MemoryManager.shortTermStore m) in
  (forall st lt t,
      MemoryManager.consolidationImportance (MemoryManager.create st lt t None) = High)
  /\ (forall e,
        In e held ->
        selected threshold e = true ->
        (faults (id e) = FileMemoryStore.NoFault ->
         long_term_copy (MemoryManager.longTermStore m') e
         /\ InMemoryMemoryStore.map_has (id e)
              (InMemoryMemoryStore.memories (MemoryManager.shortTermStore m')) = false)
        /\ (faults (id e) <> FileMemoryStore.NoFault ->
            In (recordAccess now e)
               (InMemoryMemoryStore.memories (MemoryManager.shortTermStore m'))))
  /\ fst (MemoryManager.consolidate faults now m)
     = Ok (Z.of_nat
             (length (List.filter
                        (fun e => selected threshold e && write_ok (faults (id e)))
                        held)))
  /\ (List.NoDup (map id held) ->
      forall e, In e held -> selected threshold e = false ->
        In e (InMemoryMemoryStore.memories (MemoryManager.shortTermStore m'))).
Proof.
  intros m' threshold held. subst m'.
  split; [reflexivity|].
  unfold MemoryManager.consolidate.
  rewrite query_unfold. simpl apply_limit.
  set (ranked := sort_desc (fun e => accessedAt (metadata e))
                   (List.filter (satisfies (MemoryManager.consolidation_query m) now)
                      (InMemoryMemoryStore.memories (MemoryManager.shortTermStore m)))).
  assert (forall e, In e ranked <-> In e held /\ selected threshold e = true) as Hranked.
  { intros e. unfold ranked. rewrite sort_desc_In, filter_In, satisfies_consolidation.
    reflexivity. }
  pose proof (consolidate_loop_spec faults now (map (recordAccess now) ranked)
                {| InMemoryMemoryStore.memories :=
                     InMemoryMemoryStore.touch (map id ranked) now
                       (InMemoryMemoryStore.memories (MemoryManager.shortTermStore m));
                   InMemoryMemoryStore.nextId :=
                     InMemoryMemoryStore.nextId (MemoryManager.shortTermStore m) |}
                (MemoryManager.longTermStore m) 0) as Hloop.
  simpl in Hloop.
  destruct (MemoryManager.consolidate_loop faults now (map (recordAccess now) ranked) _ _ _)
    as [[n' st'] lt'].
  destruct Hloop as (Hn & Hmem & Hmoved & _). simpl.
  fold held in Hmem.
  assert (forall e, In e held -> selected threshold e = true ->
                    In (id e) (map id ranked)) as Hids.
  { intros e Hin Hsel. apply in_map. now apply Hranked. }
  assert (forall i,
             In i (map id (List.filter (fun x => write_ok (faults (id x)))
                             (map (recordAccess now) ranked)))
             -> write_ok (faults i) = true /\ In i (map id ranked)) as Hokids.
  { intros i Hi. apply in_map_iff in Hi as (x & <- & Hx).
    apply filter_In in Hx as [Hx Hok]. split; [exact Hok|].
    apply in_map_iff in Hx as (e & <- & He). simpl. now apply in_map. }
  split; [|split].
  - intros e Hin Hsel. split.
    + intros Hfault.
      assert (In (recordAccess now e)
                 (List.filter (fun x => write_ok (faults (id x)))
                    (map (recordAccess now) ranked))) as Hin'.
      { apply filter_In. split; [apply in_map; now apply Hranked|].
        simpl. now rewrite Hfault. }
      split; [exact (Hmoved _ Hin')|].
      apply not_true_is_false. intros Hhas.
      apply existsb_exists in Hhas as (x & Hx & Heq). apply String.eqb_eq in Heq.
      rewrite Hmem in Hx. apply filter_In in Hx as [_ Hx].
      apply negb_true_iff, not_true_iff_false in Hx. apply Hx.
      apply list_includes_In. rewrite Heq.
      change (id e) with (id (recordAccess now e)). now apply in_map.
    + intros Hfault. rewrite Hmem. apply filter_In. split.
      * pose proof (touch_In (map id ranked) now held e Hin) as Htouch.
        rewrite (proj2 (list_includes_In _ _) (Hids e Hin Hsel)) in Htouch.
        exact Htouch.
      * apply negb_true_iff, not_true_is_false. intros Hinc.
        apply list_includes_In, Hokids in Hinc as [Hok _]. simpl in Hok.
        destruct (faults (id e)); [now contradiction Hfault | discriminate..].
  - f_equal. rewrite Hn. simpl. f_equal.
    rewrite filter_map_swap, length_map. simpl.
    unfold ranked.
    rewrite (Permutation_length
               (filter_perm (fun x => write_ok (faults (id x))) _ _
                  (sort_desc_perm _ _))).
    rewrite filter_filter.
    rewrite (filter_ext _ (fun e => selected threshold e && write_ok (faults (id e))));
      [reflexivity|].
    intros e. now rewrite satisfies_consolidation.
  - intros Hnd e Hin Hsel.
    assert (~ In (id e) (map id ranked)) as Hnot.
    { intros Hid. apply in_map_iff in Hid as (x & Hid & Hx).
      apply Hranked in Hx as [Hx Hselx].
      rewrite (same_id_same_entry held x e Hnd Hx Hin Hid) in Hselx. congruence. }
    rewrite Hmem. apply filter_In. split.
    + pose proof (touch_In (map id ranked) now held e Hin) as Htouch.
      destruct (list_includes (map id ranked) (id e)) eqn:Hinc; [|exact Htouch].
      apply list_includes_In in Hinc. contradiction.
    + apply negb_true_iff, not_true_is_false. intros Hinc.
      apply list_includes_In, Hokids in Hinc as [_ Hinc]. contradiction.
Qed.

Lemma consolidate_moves_short_term_witness :
  long_term_copy
    (MemoryManager.longTermStore
       (snd (MemoryManager.consolidate second_write_fails 2000 busy_manager)))
    first_note
  /\ InMemoryMemoryStore.map_has "mem-1"
       (InMemoryMemoryStore.memories
          (MemoryManager.shortTermStore
             (snd (MemoryManager.consolidate second_write_fails 2000 busy_manager))))
     = false
  /\ In (recordAccess 2000 second_note)
        (InMemoryMemoryStore.memories
           (MemoryManager.shortTermStore
              (snd (MemoryManager.consolidate second_write_fails 2000 busy_manager)))).
Proof.
  destruct (consolidate_moves_short_term second_write_fails 2000 busy_manager)
    as (_ & Hselected & _ & _).
  destruct (Hselected first_note) as [Hmoved _].
  - vm_compute. now left.
  - reflexivity.
  - destruct (Hselected second_note) as [_ Hstays].
    + vm_compute. right. now left.
    + reflexivity.
    + destruct (Hmoved eq_refl) as [Hcopy Hgone].
      split; [exact Hcopy|]. split; [exact Hgone|].
      apply Hstays. discriminate.
Defined.

(** * Further properties of the modelled code *)

(** ** The file store keeps its index and its files in step *)

Lemma touch_index_as_map (i : string) (accessed count : Z)
    (rows : list FileMemoryStore.IndexEntry) :
  List.NoDup (index_ids rows) ->
  FileMemoryStore.touch_index i accessed count rows
  = map (fun r =>
           if String.eqb (FileMemoryStore.ix_id r) i
           then {| FileMemoryStore.ix_id := FileMemoryStore.ix_id r;
                   FileMemoryStore.ix_type := FileMemoryStore.ix_type r;
                   FileMemoryStore.ix_importance := FileMemoryStore.ix_importance r;
                   FileMemoryStore.ix_tags := FileMemoryStore.ix_tags r;
                   FileMemoryStore.ix_createdAt := FileMemoryStore.ix_createdAt r;
                   FileMemoryStore.ix_accessedAt := accessed;
                   FileMemoryStore.ix_accessCount := count |}
           else r) rows.
Proof.
  induction rows as [|r rows IH]; intros Hnd; simpl; [reflexivity|].
  simpl in Hnd. apply NoDup_cons_iff in Hnd as [Hnotin Hnd].
  destruct (String.eqb_spec (FileMemoryStore.ix_id r) i) as [Heq|Hne].
  - f_equal. symmetry. rewrite (map_ext_in _ (fun x => x)); [apply List.map_id|].
    intros x Hx. destruct (String.eqb_spec (FileMemoryStore.ix_id x) i) as [Hx'|]; [|reflexivity].
    exfalso. apply Hnotin. rewrite Heq, <- Hx'. now apply in_map.
  - f_equal. now apply IH.
Qed.

Lemma touch_index_ids (i : string) (accessed count : Z)
    (rows : list FileMemoryStore.IndexEntry) :
  index_ids (FileMemoryStore.touch_index i accessed count rows) = index_ids rows.
Proof.
  unfold index_ids. induction rows as [|r rows IH]; simpl; [reflexivity|].
  destruct (String.eqb (FileMemoryStore.ix_id r) i); simpl; [reflexivity|].
  now rewrite IH.
Qed.

Lemma retrieve_consistent (i : string) (now : Z) (s : FileMemoryStore.t) :
  index_consistent s -> index_consistent (snd (FileMemoryStore.retrieve i now s)).
Proof.
  intros (Hnd & Hrows & Hfiles & Hids). unfold FileMemoryStore.retrieve.
  destruct (FileMemoryStore.files s !! i) as [parsed|] eqn:Hi; simpl;
    [|repeat split; assumption].
  repeat split; simpl.
  - now rewrite touch_index_ids.
  - intros r' Hr'. rewrite touch_index_as_map in Hr' by assumption.
    apply in_map_iff in Hr' as (r & <- & Hr).
    destruct (Hrows r Hr) as (e & He & Hm).
    destruct (String.eqb_spec (FileMemoryStore.ix_id r) i) as [Heq|Hne]; simpl.
    + rewrite Heq, lookup_insert_eq. eexists. split; [reflexivity|].
      rewrite Heq, Hi in He. injection He as <-.
      destruct Hm as (H1 & H2 & H3 & H4 & H5 & _). repeat split; simpl; congruence.
    + rewrite lookup_insert_ne by congruence. eauto.
  - intros j e Hj. rewrite touch_index_ids.
    destruct (String.eqb_spec i j) as [<-|Hne].
    + now apply (Hfiles i parsed).
    + rewrite lookup_insert_ne in Hj by assumption. now apply (Hfiles j e).
  - intros r' Hr'.
    assert (In (FileMemoryStore.ix_id r') (index_ids (FileMemoryStore.index s))) as Hin.
    { rewrite <- (touch_index_ids i now (accessCount (metadata parsed) + 1)).
      now apply in_map. }
    apply in_map_iff in Hin as (r & Heq & Hr).
    destruct (Hids r Hr) as (k & Hk & Hlt). exists k. split; congruence.
Qed.

Lemma load_entries_consistent (q : MemoryQuery) (now : Z)
    (rows : list FileMemoryStore.IndexEntry) :
  forall s, index_consistent s ->
            index_consistent (snd (FileMemoryStore.load_entries q now rows s)).
Proof.
  induction rows as [|r rows IH]; intros s Hs; simpl; [exact Hs|].
  pose proof (retrieve_consistent (FileMemoryStore.ix_id r) now s Hs) as Hs1.
  destruct (FileMemoryStore.retrieve (FileMemoryStore.ix_id r) now s)
    as [[[entry|]|err] s1]; simpl in Hs1.
  - specialize (IH s1 Hs1).
    destruct (FileMemoryStore.load_entries q now rows s1) as [entries s2].
    now destruct (FileMemoryStore.text_matches q entry).
  - now apply IH.
  - now apply IH.
Qed.

Lemma filter_index_ids_NoDup (f : FileMemoryStore.IndexEntry -> bool)
    (rows : list FileMemoryStore.IndexEntry) :
  List.NoDup (index_ids rows) -> List.NoDup (index_ids (List.filter f rows)).
Proof.
  unfold index_ids. induction rows as [|r rows IH]; intros Hnd; simpl; [constructor|].
  simpl in Hnd. apply NoDup_cons_iff in Hnd as [Hnotin Hnd].
  destruct (f r); simpl; [|now apply IH].
  constructor; [|now apply IH].
  intros Hin. apply Hnotin. apply in_map_iff in Hin as (x & Hx & Hin).
  apply filter_In in Hin as [Hin _]. rewrite <- Hx. now apply in_map.
Qed.

(** Removing from a consistent store the rows a test selects, together
    with the files of exactly their ids, leaves a consistent store. *)
Lemma drop_rows_consistent (doomed : FileMemoryStore.IndexEntry -> bool)
    (s : FileMemoryStore.t) (fs : gmap string MemoryEntry) :
  index_consistent s ->
  (forall i, fs !! i
             = if list_includes
                    (map FileMemoryStore.ix_id
                       (List.filter doomed (FileMemoryStore.index s))) i
               then None else FileMemoryStore.files s !! i) ->
  index_consistent
    {| FileMemoryStore.index :=
         List.filter (fun r => negb (doomed r)) (FileMemoryStore.index s);
       FileMemoryStore.files := fs;
       FileMemoryStore.nextId := FileMemoryStore.nextId s |}.
Proof.
  intros (Hnd & Hrows & Hfiles & Hids) Hfs.
  assert (forall r, In r (FileMemoryStore.index s) ->
                    list_includes
                      (map FileMemoryStore.ix_id
                         (List.filter doomed (FileMemoryStore.index s)))
                      (FileMemoryStore.ix_id r) = doomed r) as Hdoomed.
  { intros r Hr. destruct (doomed r) eqn:Hd.
    - apply list_includes_In, in_map, filter_In. split; assumption.
    - apply not_true_is_false. intros Hinc.
      apply list_includes_In, in_map_iff in Hinc as (x & Hid & Hx).
      apply filter_In in Hx as [Hx Hdx].
      assert (x = r) as ->; [|congruence].
      clear Hd Hdx Hrows Hfiles Hids Hfs. unfold index_ids in Hnd.
      induction (FileMemoryStore.index s) as [|a rows IH]; [contradiction|].
      simpl in Hnd. apply NoDup_cons_iff in Hnd as [Hna Hnd].
      destruct Hx as [->|Hx], Hr as [->|Hr]; try reflexivity.
      + exfalso. apply Hna. rewrite Hid. now apply in_map.
      + exfalso. apply Hna. rewrite <- Hid. now apply in_map.
      + now apply IH. }
  repeat split; simpl.
  - now apply filter_index_ids_NoDup.
  - intros r Hr. apply filter_In in Hr as [Hr Hkeep].
    rewrite Hfs, (Hdoomed r Hr). apply negb_true_iff in Hkeep. rewrite Hkeep.
    now apply Hrows.
  - intros i e Hi. rewrite Hfs in Hi.
    destruct (list_includes _ i) eqn:Hinc; [discriminate|].
    pose proof (Hfiles i e Hi) as Hin.
    apply in_map_iff in Hin as (r & <- & Hr).
    apply in_map, filter_In. split; [exact Hr|].
    rewrite (Hdoomed r Hr) in Hinc. now rewrite Hinc.
  - intros r Hr. apply filter_In in Hr as [Hr _]. now apply Hids.
Qed.

Lemma unlink_all_snd (ids : list string) (fs : gmap string MemoryEntry) :
  forall n fs', FileMemoryStore.unlink_all ids fs = (n, fs') ->
    forall i, fs' !! i = if list_includes ids i then None else fs !! i.
Proof.
  intros n fs' Hu i. change fs' with (snd (n, fs')). rewrite <- Hu.
  apply unlink_all_lookup.
Qed.

Lemma NoDup_snoc {A : Type} (l : list A) (x : A) :
  List.NoDup l -> ~ In x l -> List.NoDup (l ++ [x]).
Proof.
  induction l as [|a l IH]; intros Hnd Hx; simpl.
  - constructor; [intros []|constructor].
  - apply NoDup_cons_iff in Hnd as [Ha Hnd]. constructor.
    + intros Hin. apply in_app_or in Hin as [Hin|[<-|[]]]; [contradiction|].
      apply Hx. now left.
    + apply IH; [exact Hnd|]. intros Hin. apply Hx. now right.
Qed.

(** Writing the file of a new entry and pushing its row keeps the store
    consistent. *)
Lemma add_entry_consistent ty c imp tgs now (s : FileMemoryStore.t) :
  index_consistent s ->
  index_consistent
    {| FileMemoryStore.index :=
         (FileMemoryStore.index s
          ++ [{| FileMemoryStore.ix_id := mem_id (FileMemoryStore.nextId s);
                 FileMemoryStore.ix_type := ty;
                 FileMemoryStore.ix_importance := imp;
                 FileMemoryStore.ix_tags := tgs;
                 FileMemoryStore.ix_createdAt := now;
                 FileMemoryStore.ix_accessedAt := now;
                 FileMemoryStore.ix_accessCount := 0 |}])%list;
       FileMemoryStore.files :=
         <[mem_id (FileMemoryStore.nextId s) :=
             {| id := mem_id (FileMemoryStore.nextId s); type := ty; content := c;
                metadata := {| createdAt := now; accessedAt := now; accessCount := 0;
                               importance := imp; tags := tgs |} |}]>
           (FileMemoryStore.files s);
       FileMemoryStore.nextId := FileMemoryStore.nextId s + 1 |}.
Proof.
  intros (Hnd & Hrows & Hfiles & Hids).
  assert (~ In (mem_id (FileMemoryStore.nextId s))
            (index_ids (FileMemoryStore.index s))) as Hfresh.
  { intros Hin. apply in_map_iff in Hin as (r & Heq & Hr).
    destruct (Hids r Hr) as (k & Hk & Hlt). rewrite Hk in Heq.
    apply mem_id_inj in Heq. lia. }
  repeat split; simpl.
  - unfold index_ids. rewrite map_app. simpl. now apply NoDup_snoc.
  - intros r Hr. apply in_app_or in Hr as [Hr|[<-|[]]].
    + destruct (Hrows r Hr) as (e & He & Hm). exists e. split; [|exact Hm].
      rewrite lookup_insert_ne; [exact He|].
      intros Heq. apply Hfresh. rewrite Heq. now apply in_map.
    + simpl. rewrite lookup_insert_eq. eexists. split; [reflexivity|].
      repeat split.
  - intros i e Hi. unfold index_ids. rewrite map_app. apply in_or_app.
    destruct (String.eqb_spec (mem_id (FileMemoryStore.nextId s)) i) as [<-|Hne].
    + right. now left.
    + left. rewrite lookup_insert_ne in Hi by assumption. now apply (Hfiles i e).
  - intros r Hr. apply in_app_or in Hr as [Hr|[<-|[]]].
    + destruct (Hids r Hr) as (k & Hk & Hlt). exists k. split; [exact Hk|lia].
    + simpl. eexists. split; [reflexivity|lia].
Qed.

(** A concrete run is in reach: each counter is computed and compared, each
    id is read as [mem-<k>]. *)
Ltac in_reach :=
  repeat match goal with
         | |- True => exact I
         | |- counter_exact _ =>
             unfold counter_exact; vm_compute; split; intros Hgt; discriminate Hgt
         | |- store_id "mem-1" => exists 1; split; [lia | reflexivity]
         | |- store_id "mem-2" => exists 2; split; [lia | reflexivity]
         | |- store_id "mem-3" => exists 3; split; [lia | reflexivity]
         | |- file_op_in_reach _ => cbn [file_op_in_reach snd]
         | |- manager_op_in_reach _ => cbn [manager_op_in_reach snd]
         | |- file_trace_in_reach _ _ => cbn [file_trace_in_reach fst snd]
         | |- manager_trace_in_reach _ _ => cbn [manager_trace_in_reach fst snd]
         | |- _ /\ _ => split
         end.

Lemma empty_index_consistent : index_consistent FileMemoryStore.empty.
Proof.
  split; [constructor|]. split; [intros r []|]. split; [|intros r []].
  intros i e Hi. simpl in Hi. rewrite lookup_empty in Hi. discriminate.
Qed.

Lemma file_op_consistent (now : Z) (op : FileOp) (s : FileMemoryStore.t) :
  index_consistent s -> index_consistent (apply_file_op now op s).
Proof.
  intros Hs.
  destruct op as [ty c imp tgs fault|i|q|i|maxAge minImportance|ty]; simpl.
  - destruct fault; simpl.
    + now apply add_entry_consistent.
    + destruct Hs as (Hnd & Hrows & Hfiles & Hids).
      repeat split; simpl; try assumption.
      intros r Hr. destruct (Hids r Hr) as (k & Hk & Hlt). exists k. split; [exact Hk|lia].
    + now apply add_entry_consistent.
  - now apply retrieve_consistent.
  - unfold FileMemoryStore.query.
    match goal with |- context [FileMemoryStore.load_entries q now ?rows s] =>
      pose proof (load_entries_consistent q now rows s Hs) as Hload;
      destruct (FileMemoryStore.load_entries q now rows s) as [entries s'] end.
    exact Hload.
  - unfold FileMemoryStore.delete.
    destruct (FileMemoryStore.files s !! i) as [e|] eqn:Hi; simpl; [|exact Hs].
    pose proof (drop_rows_consistent
                  (fun r => String.eqb (FileMemoryStore.ix_id r) i) s
                  (base.delete i (FileMemoryStore.files s)) Hs) as Hdrop.
    apply Hdrop. intros j.
    destruct (String.eqb_spec i j) as [<-|Hne].
    + rewrite lookup_delete_eq.
      destruct Hs as (_ & _ & Hfiles & _).
      pose proof (Hfiles i e Hi) as Hin.
      apply in_map_iff in Hin as (r & Hid & Hr).
      assert (list_includes
                (map FileMemoryStore.ix_id
                   (List.filter (fun r => String.eqb (FileMemoryStore.ix_id r) i)
                      (FileMemoryStore.index s))) i = true) as ->; [|reflexivity].
      apply list_includes_In, in_map_iff. exists r. split; [exact Hid|].
      apply filter_In. split; [exact Hr|]. now apply String.eqb_eq.
    + rewrite lookup_delete_ne by assumption.
      assert (list_includes
                (map FileMemoryStore.ix_id
                   (List.filter (fun r => String.eqb (FileMemoryStore.ix_id r) i)
                      (FileMemoryStore.index s))) j = false) as ->; [|reflexivity].
      apply not_true_is_false. intros Hinc.
      apply list_includes_In, in_map_iff in Hinc as (r & Hid & Hr).
      apply filter_In in Hr as [_ Heq]. apply String.eqb_eq in Heq. congruence.
  - unfold FileMemoryStore.prune.
    destruct (FileMemoryStore.unlink_all _ _) as [count fs] eqn:Hu. simpl.
    pose proof (unlink_all_snd _ _ _ _ Hu) as Hfs.
    pose proof (drop_rows_consistent
                  (fun r => shouldPrune maxAge minImportance now
                              (FileMemoryStore.ix_createdAt r)
                              (FileMemoryStore.ix_importance r)) s fs Hs Hfs) as Hdrop.
    destruct Hs as (Hnd & _).
    replace (List.filter _ (FileMemoryStore.index s))
      with (List.filter
              (fun r => negb (shouldPrune maxAge minImportance now
                                (FileMemoryStore.ix_createdAt r)
                                (FileMemoryStore.ix_importance r)))
              (FileMemoryStore.index s)); [exact Hdrop|].
    apply filter_ext_in. intros r Hr.
    now rewrite (prune_index_ids maxAge minImportance now _ r Hnd Hr).
  - unfold FileMemoryStore.clear. destruct ty as [ty|].
    + destruct (FileMemoryStore.unlink_all _ _) as [count fs] eqn:Hu. simpl.
      pose proof (unlink_all_snd _ _ _ _ Hu) as Hfs.
      exact (drop_rows_consistent
               (fun r => MemoryType_eqb (FileMemoryStore.ix_type r) ty) s fs Hs Hfs).
    + destruct (FileMemoryStore.unlink_all _ _) as [count fs] eqn:Hu. simpl.
      pose proof (unlink_all_snd _ _ _ _ Hu) as Hfs.
      destruct Hs as (_ & _ & Hfiles & _).
      split; [constructor|]. split; [intros r []|]. split; [|intros r []].
      simpl. intros i e Hi. rewrite Hfs in Hi.
      destruct (list_includes _ i) eqn:Hinc; [discriminate|].
      apply Hfiles in Hi. apply list_includes_In in Hi.
      unfold index_ids in Hi. congruence.
Qed.

Lemma fruit_files_consistent : index_consistent fruit_files.
Proof.
  exact (file_op_consistent 1001
           (FStore LongTerm (JString "banana") Medium [] FileMemoryStore.NoFault) _
           (file_op_consistent 1000
              (FStore LongTerm (JString "apple") Medium [] FileMemoryStore.NoFault) _
              empty_index_consistent)).
Qed.

(** Whatever is done to the file store, and whichever writes the file
    system fails, the index and the files agree afterwards: ids are unique,
    every row has its file with the same type, importance, tags and access
    metadata, and every file has its row.  The ids that [retrieve] and
    [delete] are asked for are ids of the stores' form, and the counter
    stays where it counts exactly. *)
Theorem file_store_stays_consistent (trace : list (Z * FileOp)) :
  forall s : FileMemoryStore.t,
    file_trace_in_reach trace s ->
    index_consistent s -> index_consistent (run_file_ops trace s).
Proof.
  induction trace as [|[now op] rest IH]; intros s Hreach Hs; simpl; [exact Hs|].
  destruct Hreach as (_ & _ & Hrest).
  apply IH; [exact Hrest | now apply file_op_consistent].
Qed.

Lemma file_store_stays_consistent_witness :
  file_trace_in_reach file_trace FileMemoryStore.empty
  /\ index_consistent (run_file_ops file_trace FileMemoryStore.empty).
Proof.
  assert (file_trace_in_reach file_trace FileMemoryStore.empty) as Hreach.
  { unfold file_trace. in_reach. }
  split; [exact Hreach|].
  apply (file_store_stays_consistent file_trace FileMemoryStore.empty Hreach).
  split; [constructor|]. split; [intros r []|]. split; [|intros r []].
  intros i e Hi. vm_compute in Hi. discriminate.
Defined.

(** ** Round trips through the stores *)

Lemma map_get_set (entry : MemoryEntry) (m : list MemoryEntry) :
  InMemoryMemoryStore.map_get (id entry) (InMemoryMemoryStore.map_set entry m)
  = Some entry.
Proof.
  unfold InMemoryMemoryStore.map_set, InMemoryMemoryStore.map_has,
    InMemoryMemoryStore.map_get.
  destruct (existsb _ m) eqn:Hhas.
  - induction m as [|a m IH]; [discriminate|]. simpl in *.
    destruct (String.eqb_spec (id a) (id entry)) as [Heq|Hne]; simpl.
    + now rewrite String.eqb_refl.
    + destruct (String.eqb_spec (id a) (id entry)); [contradiction|]. now apply IH.
  - induction m as [|a m IH]; simpl in *.
    + now rewrite String.eqb_refl.
    + apply orb_false_iff in Hhas as [Ha Hm]. rewrite Ha. now apply IH.
Qed.

(** An entry stored can be retrieved under the id [store] returned: both
    stores hand back the entry as stored, same type, content, importance,
    tags and creation time, with this first access recorded. *)
Theorem store_then_retrieve ty c imp tgs (t1 t2 : Z) :
  (forall s : InMemoryMemoryStore.t,
      let stored := new_entry (mem_id (InMemoryMemoryStore.nextId s)) ty c imp tgs t1 in
      fst (InMemoryMemoryStore.store ty c imp tgs t1 s) = Ok stored
      /\ fst (InMemoryMemoryStore.retrieve (id stored) t2
                (snd (InMemoryMemoryStore.store ty c imp tgs t1 s)))
         = Ok (Some (recordAccess t2 stored)))
  /\ (forall s : FileMemoryStore.t,
        let stored := new_entry (mem_id (FileMemoryStore.nextId s)) ty c imp tgs t1 in
        fst (FileMemoryStore.store ty c imp tgs t1 FileMemoryStore.NoFault s) = Ok stored
        /\ fst (FileMemoryStore.retrieve (id stored) t2
                  (snd (FileMemoryStore.store ty c imp tgs t1 FileMemoryStore.NoFault s)))
           = Ok (Some (recordAccess t2 stored))).
Proof.
  split.
  - intros s stored. split; [reflexivity|].
    pose proof (map_get_set stored (InMemoryMemoryStore.memories s)) as Hget.
    unfold InMemoryMemoryStore.retrieve, InMemoryMemoryStore.store.
    cbn [snd fst InMemoryMemoryStore.memories].
    unfold stored, new_entry in *. cbn [id] in *. rewrite Hget. reflexivity.
  - intros s stored. split; [reflexivity|].
    unfold FileMemoryStore.retrieve. simpl. rewrite lookup_insert_eq. reflexivity.
Qed.



(** ** Deleting *)

Lemma map_get_delete_eq (i : string) (m : list MemoryEntry) :
  InMemoryMemoryStore.map_get i (InMemoryMemoryStore.map_delete i m) = None.
Proof.
  unfold InMemoryMemoryStore.map_get, InMemoryMemoryStore.map_delete.
  induction m as [|a m IH]; simpl; [reflexivity|].
  destruct (String.eqb (id a) i) eqn:Ha; simpl; [exact IH|]. now rewrite Ha.
Qed.

Lemma map_get_delete_ne (i j : string) (m : list MemoryEntry) :
  j <> i ->
  InMemoryMemoryStore.map_get j (InMemoryMemoryStore.map_delete i m)
  = InMemoryMemoryStore.map_get j m.
Proof.
  intros Hne. unfold InMemoryMemoryStore.map_get, InMemoryMemoryStore.map_delete.
  induction m as [|a m IH]; simpl; [reflexivity|].
  destruct (String.eqb_spec (id a) i) as [Ha|Ha]; simpl.
  - destruct (String.eqb_spec (id a) j) as [Hj|Hj]; [congruence | exact IH].
  - destruct (String.eqb (id a) j); [reflexivity | exact IH].
Qed.

(** [delete] forgets the entry of the id and nothing else, in both stores:
    it answers whether there was such an entry, afterwards the id retrieves
    nothing and a second [delete] answers false, and what any other id
    names is unchanged.  In a file store whose index and files agree the
    row of the id is gone from the index as well.  For the file store the
    ids are ids of the stores' form. *)
Theorem delete_forgets_one_entry (i : string) (now : Z) :
  (forall s : InMemoryMemoryStore.t,
      let s' := snd (InMemoryMemoryStore.delete i s) in
      ((fst (InMemoryMemoryStore.delete i s) = Ok true)
       <-> (exists e, InMemoryMemoryStore.map_get i (InMemoryMemoryStore.memories s)
                      = Some e))
      /\ fst (InMemoryMemoryStore.retrieve i now s') = Ok None
      /\ fst (InMemoryMemoryStore.delete i s') = Ok false
      /\ (forall j, j <> i ->
            InMemoryMemoryStore.map_get j (InMemoryMemoryStore.memories s')
            = InMemoryMemoryStore.map_get j (InMemoryMemoryStore.memories s)))
  /\ (store_id i ->
      forall s : FileMemoryStore.t,
        let s' := snd (FileMemoryStore.delete i s) in
        ((fst (FileMemoryStore.delete i s) = Ok true)
         <-> (exists e, FileMemoryStore.files s !! i = Some e))
        /\ fst (FileMemoryStore.retrieve i now s') = Ok None
        /\ fst (FileMemoryStore.delete i s') = Ok false
        /\ (forall j, store_id j -> j <> i ->
              FileMemoryStore.files s' !! j = FileMemoryStore.files s !! j)
        /\ (index_consistent s -> ~ In i (index_ids (FileMemoryStore.index s')))).
Proof.
  split.
  - intros s s'. subst s'. simpl. split; [|split; [|split]].
    + unfold InMemoryMemoryStore.map_has, InMemoryMemoryStore.map_get. split.
      * intros [= Hex]. apply existsb_exists in Hex as (e & Hin & He).
        destruct (find (fun e0 => String.eqb (id e0) i) (InMemoryMemoryStore.memories s))
          as [e'|] eqn:Hf; [now exists e'|].
        apply (find_none _ _ Hf) in Hin. simpl in Hin. congruence.
      * intros (e & Hf). apply find_some in Hf as [Hin He].
        f_equal. apply existsb_exists. now exists e.
    + unfold InMemoryMemoryStore.retrieve. simpl. now rewrite map_get_delete_eq.
    + now rewrite map_has_delete.
    + intros j Hne. now apply map_get_delete_ne.
  - intros _ s s'. subst s'. unfold FileMemoryStore.delete.
    destruct (FileMemoryStore.files s !! i) as [e|] eqn:Hi; simpl.
    + split; [|split; [|split; [|split]]].
      * split; [now exists e | reflexivity].
      * unfold FileMemoryStore.retrieve. simpl. now rewrite lookup_delete_eq.
      * now rewrite lookup_delete_eq.
      * intros j _ Hne. apply lookup_delete_ne. congruence.
      * intros _ Hin. apply in_map_iff in Hin as (r & Hr & Hin).
        apply filter_In in Hin as [_ Hne]. rewrite Hr, String.eqb_refl in Hne.
        discriminate.
    + split; [|split; [|split; [|split]]].
      * split; [discriminate | intros (e & He); discriminate].
      * unfold FileMemoryStore.retrieve. now rewrite Hi.
      * now rewrite Hi.
      * reflexivity.
      * intros (_ & Hrows & _) Hin. apply in_map_iff in Hin as (r & Hr & Hin).
        destruct (Hrows r Hin) as (e & He & _). rewrite Hr, Hi in He. discriminate.
Qed.

Lemma delete_forgets_one_entry_witness :
  store_id "mem-1"
  /\ fst (FileMemoryStore.retrieve "mem-1" 2000
            (snd (FileMemoryStore.delete "mem-1" fruit_files))) = Ok None
  /\ FileMemoryStore.files (snd (FileMemoryStore.delete "mem-1" fruit_files)) !! "mem-2"
     = FileMemoryStore.files fruit_files !! "mem-2"
  /\ ~ In "mem-1" (index_ids (FileMemoryStore.index
                                (snd (FileMemoryStore.delete "mem-1" fruit_files)))).
Proof.
  assert (store_id "mem-1") as Hone by (exists 1; split; [lia | reflexivity]).
  assert (store_id "mem-2") as Htwo by (exists 2; split; [lia | reflexivity]).
  destruct (delete_forgets_one_entry "mem-1" 2000) as [_ Hfile].
  destruct (Hfile Hone fruit_files) as (_ & Hgone & _ & Hother & Hrow).
  split; [exact Hone|]. split; [exact Hgone|].
  split; [exact (Hother "mem-2" Htwo ltac:(discriminate)) |
          exact (Hrow fruit_files_consistent)].
Defined.

(** ** Pruning *)

Lemma shouldPrune_lowest maxAge minImportance now created imp :
  default Low minImportance = Low ->
  shouldPrune maxAge minImportance now created imp = false.
Proof.
  intros Hlow. unfold shouldPrune. rewrite Hlow.
  assert ((importance_value imp <? importance_value Low) = false) as ->
    by (destruct imp; reflexivity).
  destruct (truthy_number maxAge); [apply andb_false_r | reflexivity].
Qed.

Lemma shouldPrune_critical maxAge minImportance now created :
  shouldPrune maxAge minImportance now created Critical = false.
Proof.
  unfold shouldPrune.
  assert ((importance_value Critical <? importance_value (default Low minImportance)) = false)
    as -> by (destruct minImportance as [[]|]; reflexivity).
  destruct (truthy_number maxAge); [apply andb_false_r | reflexivity].
Qed.

Lemma filter_false {A : Type} (f : A -> bool) (l : list A) :
  (forall x, In x l -> f x = false) -> List.filter f l = [].
Proof.
  induction l as [|x l IH]; intros Hf; simpl; [reflexivity|].
  rewrite (Hf x) by now left. apply IH. intros y Hy. apply Hf. now right.
Qed.

Lemma filter_all {A : Type} (f : A -> bool) (l : list A) :
  (forall x, In x l -> f x = true) -> List.filter f l = l.
Proof.
  induction l as [|x l IH]; intros Hf; simpl; [reflexivity|].
  rewrite (Hf x) by now left. f_equal. apply IH. intros y Hy. apply Hf. now right.
Qed.

(** Pruning both stores with a test on the row or entry that selects
    nothing leaves them as they are and counts zero. *)
Lemma in_memory_prune_nothing maxAge minImportance now (s : InMemoryMemoryStore.t) :
  (forall e, In e (InMemoryMemoryStore.memories s) ->
     shouldPrune maxAge minImportance now (createdAt (metadata e))
       (importance (metadata e)) = false) ->
  InMemoryMemoryStore.prune maxAge minImportance now s = (Ok 0, s).
Proof.
  intros Hnone. unfold InMemoryMemoryStore.prune.
  rewrite (filter_false _ _ Hnone), filter_all.
  - now destruct s.
  - intros e He. now rewrite (Hnone e He).
Qed.

Lemma file_prune_nothing maxAge minImportance now (s : FileMemoryStore.t) :
  (forall r, In r (FileMemoryStore.index s) ->
     shouldPrune maxAge minImportance now (FileMemoryStore.ix_createdAt r)
       (FileMemoryStore.ix_importance r) = false) ->
  FileMemoryStore.prune maxAge minImportance now s = (Ok 0, s).
Proof.
  intros Hnone. unfold FileMemoryStore.prune.
  rewrite (filter_false _ _ Hnone). simpl. rewrite filter_true. now destruct s.
Qed.

(** [prune] without an importance threshold, or with the lowest one,
    removes nothing whichever age bound it is given: an entry is pruned
    only if its importance is below the threshold, and none is below
    [Low].  Both stores answer zero and stay as they are. *)
Theorem prune_by_age_alone_removes_nothing maxAge minImportance (now : Z) :
  default Low minImportance = Low ->
  (forall s : InMemoryMemoryStore.t,
      InMemoryMemoryStore.prune maxAge minImportance now s = (Ok 0, s))
  /\ (forall s : FileMemoryStore.t,
        FileMemoryStore.prune maxAge minImportance now s = (Ok 0, s)).
Proof.
  intros Hlow. split; intros s.
  - apply in_memory_prune_nothing. intros e _. now apply shouldPrune_lowest.
  - apply file_prune_nothing. intros r _. now apply shouldPrune_lowest.
Qed.

Lemma prune_by_age_alone_removes_nothing_witness :
  InMemoryMemoryStore.prune (Some 1) None 999999 fruit_memory = (Ok 0, fruit_memory)
  /\ FileMemoryStore.prune (Some 1) (Some Low) 999999 fruit_files = (Ok 0, fruit_files).
Proof.
  split.
  - apply (prune_by_age_alone_removes_nothing (Some 1) None 999999). reflexivity.
  - apply (prune_by_age_alone_removes_nothing (Some 1) (Some Low) 999999). reflexivity.
Defined.

(** No [prune] removes an entry of importance [Critical]: in the in-memory
    store the entry is still there, in the file store its row and its file
    are. *)
Theorem prune_keeps_critical maxAge minImportance (now : Z) :
  (forall (s : InMemoryMemoryStore.t) (e : MemoryEntry),
      In e (InMemoryMemoryStore.memories s) ->
      importance (metadata e) = Critical ->
      In e (InMemoryMemoryStore.memories
              (snd (InMemoryMemoryStore.prune maxAge minImportance now s))))
  /\ (forall (s : FileMemoryStore.t) (r : FileMemoryStore.IndexEntry) (e : MemoryEntry),
        index_consistent s ->
        In r (FileMemoryStore.index s) ->
        FileMemoryStore.ix_importance r = Critical ->
        FileMemoryStore.files s !! FileMemoryStore.ix_id r = Some e ->
        let s' := snd (FileMemoryStore.prune maxAge minImportance now s) in
        In r (FileMemoryStore.index s')
        /\ FileMemoryStore.files s' !! FileMemoryStore.ix_id r = Some e).
Proof.
  split.
  - intros s e Hin Hcrit. simpl. apply filter_In. split; [exact Hin|].
    now rewrite Hcrit, shouldPrune_critical.
  - intros s r e (Hnd & _) Hin Hcrit Hfile s'. subst s'.
    unfold FileMemoryStore.prune.
    destruct (FileMemoryStore.unlink_all _ (FileMemoryStore.files s)) as [n fs] eqn:Hu.
    simpl.
    pose proof (prune_index_ids maxAge minImportance now _ r Hnd Hin) as Hinc.
    rewrite Hcrit, shouldPrune_critical in Hinc. split.
    + apply filter_In. split; [exact Hin|]. now rewrite Hinc.
    + rewrite (unlink_all_snd _ _ _ _ Hu), Hinc. exact Hfile.
Qed.

Lemma prune_keeps_critical_witness :
  let vital := new_entry "mem-3" LongTerm (JString "cherry") Critical [] 1 in
  let s := snd (FileMemoryStore.store LongTerm (JString "cherry") Critical [] 1
                  FileMemoryStore.NoFault fruit_files) in
  FileMemoryStore.files
    (snd (FileMemoryStore.prune (Some 10) (Some Critical) 999999 s)) !! "mem-3"
  = Some vital.
Proof.
  intros vital s.
  assert (index_consistent s) as Hs.
  { exact (file_op_consistent 1
             (FStore LongTerm (JString "cherry") Critical [] FileMemoryStore.NoFault)
             fruit_files fruit_files_consistent). }
  refine (proj2 (proj2 (prune_keeps_critical (Some 10) (Some Critical) 999999) s
                   {| FileMemoryStore.ix_id := "mem-3";
                      FileMemoryStore.ix_type := LongTerm;
                      FileMemoryStore.ix_importance := Critical;
                      FileMemoryStore.ix_tags := [];
                      FileMemoryStore.ix_createdAt := 1;
                      FileMemoryStore.ix_accessedAt := 1;
                      FileMemoryStore.ix_accessCount := 0 |}
                   vital Hs _ _ _)).
  - vm_compute. right. right. now left.
  - reflexivity.
  - vm_compute. reflexivity.
Defined.

Lemma shouldPrune_same_time maxAge minImportance now later created imp :
  truthy_number maxAge = None \/ later = now ->
  shouldPrune maxAge minImportance later created imp
  = shouldPrune maxAge minImportance now created imp.
Proof.
  intros [Hnone| ->]; [|reflexivity]. unfold shouldPrune. now rewrite Hnone.
Qed.

(** Pruning twice removes nothing the second time: when [prune] is called
    again with the same bounds, at the same clock reading or, without an
    age bound, at any later one, it answers zero and leaves the store as
    the first call left it.  This holds of both stores. *)
Theorem prune_again_removes_nothing maxAge minImportance (now later : Z) :
  truthy_number maxAge = None \/ later = now ->
  (forall s : InMemoryMemoryStore.t,
      let s' := snd (InMemoryMemoryStore.prune maxAge minImportance now s) in
      InMemoryMemoryStore.prune maxAge minImportance later s' = (Ok 0, s'))
  /\ (forall s : FileMemoryStore.t,
        let s' := snd (FileMemoryStore.prune maxAge minImportance now s) in
        FileMemoryStore.prune maxAge minImportance later s' = (Ok 0, s')).
Proof.
  intros Htime. split; intros s s'; subst s'.
  - apply in_memory_prune_nothing. simpl. intros e He.
    apply filter_In in He as [_ He]. rewrite (shouldPrune_same_time _ _ now) by assumption.
    now apply negb_true_iff in He.
  - apply file_prune_nothing. intros r Hr.
    rewrite (shouldPrune_same_time _ _ now) by assumption.
    unfold FileMemoryStore.prune in Hr.
    destruct (FileMemoryStore.unlink_all _ (FileMemoryStore.files s)) as [n fs].
    simpl in Hr. apply filter_In in Hr as [Hin Hkept].
    apply negb_true_iff in Hkept. apply not_true_is_false. intros Hdoomed.
    apply not_true_iff_false in Hkept. apply Hkept.
    apply list_includes_In, in_map. apply filter_In. now split.
Qed.

Lemma prune_again_removes_nothing_witness :
  let s' := snd (InMemoryMemoryStore.prune (Some 5) (Some High) 2000 fruit_memory) in
  InMemoryMemoryStore.prune (Some 5) (Some High) 2000 s' = (Ok 0, s')
  /\ let f' := snd (FileMemoryStore.prune None (Some High) 2000 fruit_files) in
     FileMemoryStore.prune None (Some High) 9000 f' = (Ok 0, f').
Proof.
  split.
  - apply (prune_again_removes_nothing (Some 5) (Some High) 2000 2000). now right.
  - apply (prune_again_removes_nothing None (Some High) 2000 9000). now left.
Defined.

(** ** What [prune] and [clear] count *)

Lemma unlink_all_count (ids : list string) :
  forall fs : gmap string MemoryEntry,
    List.NoDup ids ->
    (forall i, In i ids -> exists e, fs !! i = Some e) ->
    fst (FileMemoryStore.unlink_all ids fs) = Z.of_nat (length ids).
Proof.
  induction ids as [|i ids IH]; intros fs Hnd Hall; [reflexivity|].
  apply NoDup_cons_iff in Hnd as [Hnotin Hnd].
  cbn [FileMemoryStore.unlink_all].
  destruct (Hall i (or_introl eq_refl)) as (e & ->).
  specialize (IH (base.delete i fs) Hnd).
  destruct (FileMemoryStore.unlink_all ids (base.delete i fs)) as [n fs'].
  cbn [fst] in *. rewrite IH; [cbn [length]; lia|].
  intros j Hj. destruct (Hall j (or_intror Hj)) as (e' & He'). exists e'.
  rewrite lookup_delete_ne; [exact He'|]. intros ->. contradiction.
Qed.

Lemma unlink_rows_count (f : FileMemoryStore.IndexEntry -> bool) (s : FileMemoryStore.t) :
  index_consistent s ->
  fst (FileMemoryStore.unlink_all
         (map FileMemoryStore.ix_id (List.filter f (FileMemoryStore.index s)))
         (FileMemoryStore.files s))
  = Z.of_nat (length (List.filter f (FileMemoryStore.index s))).
Proof.
  intros (Hnd & Hrows & _).
  rewrite unlink_all_count.
  - now rewrite length_map.
  - now apply (filter_index_ids_NoDup f).
  - intros i Hi. apply in_map_iff in Hi as (r & <- & Hr).
    apply filter_In in Hr as [Hr _]. destruct (Hrows r Hr) as (e & He & _). now exists e.
Qed.

Lemma filter_length_minus {A : Type} (f : A -> bool) (l : list A) :
  Z.of_nat (length (List.filter f l))
  = Z.of_nat (length l) - Z.of_nat (length (List.filter (fun x => negb (f x)) l)).
Proof. pose proof (List.filter_length f l). lia. Qed.

(** The number [prune] answers is the number of entries it removed: the
    size of the store before minus its size after.  For the file store,
    where the number counts the files unlinked, this needs the index and
    the files to agree. *)
Theorem prune_counts_what_it_removes maxAge minImportance (now : Z) :
  (forall s : InMemoryMemoryStore.t,
      fst (InMemoryMemoryStore.prune maxAge minImportance now s)
      = Ok (InMemoryMemoryStore.totalEntries s
            - InMemoryMemoryStore.totalEntries
                (snd (InMemoryMemoryStore.prune maxAge minImportance now s))))
  /\ (forall s : FileMemoryStore.t,
        index_consistent s ->
        fst (FileMemoryStore.prune maxAge minImportance now s)
        = Ok (FileMemoryStore.totalEntries s
              - FileMemoryStore.totalEntries
                  (snd (FileMemoryStore.prune maxAge minImportance now s)))).
Proof.
  split.
  - intros s. unfold InMemoryMemoryStore.prune, InMemoryMemoryStore.totalEntries.
    cbn [fst snd InMemoryMemoryStore.memories]. f_equal. apply filter_length_minus.
  - intros s Hs. unfold FileMemoryStore.prune, FileMemoryStore.totalEntries.
    pose proof (unlink_rows_count
                  (fun r => shouldPrune maxAge minImportance now
                              (FileMemoryStore.ix_createdAt r)
                              (FileMemoryStore.ix_importance r)) s Hs) as Hcount.
    destruct (FileMemoryStore.unlink_all _ (FileMemoryStore.files s)) as [n fs].
    cbn [fst snd FileMemoryStore.index] in *. subst n. f_equal.
    rewrite filter_length_minus. f_equal. f_equal. f_equal.
    apply filter_ext_in. intros r Hr. f_equal. symmetry.
    destruct Hs as (Hnd & _). now apply prune_index_ids.
Qed.

Lemma prune_counts_what_it_removes_witness :
  fst (FileMemoryStore.prune None (Some High) 2000 fruit_files)
  = Ok (FileMemoryStore.totalEntries fruit_files
        - FileMemoryStore.totalEntries
            (snd (FileMemoryStore.prune None (Some High) 2000 fruit_files))).
Proof.
  apply (prune_counts_what_it_removes None (Some High) 2000). exact fruit_files_consistent.
Defined.

Lemma MemoryType_eqb_eq (a b : MemoryType) : MemoryType_eqb a b = true <-> a = b.
Proof. destruct a, b; simpl; split; congruence. Qed.

Lemma in_memory_clear_In (ty : MemoryType) (s : InMemoryMemoryStore.t) (e : MemoryEntry) :
  In e (InMemoryMemoryStore.memories (snd (InMemoryMemoryStore.clear (Some ty) s)))
  <-> In e (InMemoryMemoryStore.memories s) /\ type e <> ty.
Proof.
  cbn [snd InMemoryMemoryStore.clear InMemoryMemoryStore.memories].
  rewrite filter_In, negb_true_iff, <- not_true_iff_false, MemoryType_eqb_eq. reflexivity.
Qed.

Lemma in_memory_clear_count (ty : MemoryType) (s : InMemoryMemoryStore.t) :
  fst (InMemoryMemoryStore.clear (Some ty) s)
  = Ok (InMemoryMemoryStore.totalEntries s
        - InMemoryMemoryStore.totalEntries (snd (InMemoryMemoryStore.clear (Some ty) s))).
Proof.
  unfold InMemoryMemoryStore.clear, InMemoryMemoryStore.totalEntries.
  cbn [fst snd InMemoryMemoryStore.memories]. f_equal. apply filter_length_minus.
Qed.

Lemma file_clear_rows (ty : MemoryType) (s : FileMemoryStore.t)
    (r : FileMemoryStore.IndexEntry) :
  In r (FileMemoryStore.index (snd (FileMemoryStore.clear (Some ty) s)))
  <-> In r (FileMemoryStore.index s) /\ FileMemoryStore.ix_type r <> ty.
Proof.
  unfold FileMemoryStore.clear.
  destruct (FileMemoryStore.unlink_all _ (FileMemoryStore.files s)) as [n fs].
  cbn [snd FileMemoryStore.index].
  rewrite filter_In, negb_true_iff, <- not_true_iff_false, MemoryType_eqb_eq. reflexivity.
Qed.

Lemma file_clear_files (ty : MemoryType) (s : FileMemoryStore.t) (i : string)
    (e : MemoryEntry) :
  index_consistent s ->
  FileMemoryStore.files (snd (FileMemoryStore.clear (Some ty) s)) !! i = Some e
  <-> FileMemoryStore.files s !! i = Some e /\ type e <> ty.
Proof.
  intros (Hnd & Hrows & Hfiles & _).
  pose proof (unlink_all_lookup
                (map FileMemoryStore.ix_id
                   (List.filter (fun r => MemoryType_eqb (FileMemoryStore.ix_type r) ty)
                      (FileMemoryStore.index s)))
                (FileMemoryStore.files s) i) as Hlook.
  unfold FileMemoryStore.clear.
  destruct (FileMemoryStore.unlink_all _ (FileMemoryStore.files s)) as [n fs].
  cbn [snd FileMemoryStore.files] in *. rewrite Hlook.
  destruct (list_includes _ i) eqn:Hinc.
  - split; [discriminate|]. intros [Hi Hty]. exfalso. apply Hty.
    apply list_includes_In, in_map_iff in Hinc as (r & Hid & Hr).
    apply filter_In in Hr as [Hr Hrty]. apply MemoryType_eqb_eq in Hrty.
    destruct (Hrows r Hr) as (e' & He' & Hm). rewrite Hid, Hi in He'.
    injection He' as <-. destruct Hm as (_ & Hmty & _). congruence.
  - split; [|now intros [Hi _]]. intros Hi. split; [exact Hi|]. intros Hty.
    apply not_true_iff_false in Hinc. apply Hinc.
    pose proof (Hfiles i e Hi) as Hin. apply in_map_iff in Hin as (r & Hid & Hr).
    apply list_includes_In, in_map_iff. exists r. split; [exact Hid|].
    apply filter_In. split; [exact Hr|]. apply MemoryType_eqb_eq.
    destruct (Hrows r Hr) as (e' & He' & Hm). rewrite Hid, Hi in He'.
    injection He' as <-. destruct Hm as (_ & Hmty & _). congruence.
Qed.

Lemma file_clear_count (ty : MemoryType) (s : FileMemoryStore.t) :
  index_consistent s ->
  fst (FileMemoryStore.clear (Some ty) s)
  = Ok (FileMemoryStore.totalEntries s
        - FileMemoryStore.totalEntries (snd (FileMemoryStore.clear (Some ty) s))).
Proof.
  intros Hs.
  pose proof (unlink_rows_count
                (fun r => MemoryType_eqb (FileMemoryStore.ix_type r) ty) s Hs) as Hcount.
  unfold FileMemoryStore.clear, FileMemoryStore.totalEntries.
  destruct (FileMemoryStore.unlink_all _ (FileMemoryStore.files s)) as [n fs].
  cbn [fst snd FileMemoryStore.index] in *. subst n. f_equal. apply filter_length_minus.
Qed.

Lemma file_clear_all (s : FileMemoryStore.t) :
  index_consistent s ->
  FileMemoryStore.clear None s
  = (Ok (FileMemoryStore.totalEntries s),
     {| FileMemoryStore.index := []; FileMemoryStore.files := ∅;
        FileMemoryStore.nextId := FileMemoryStore.nextId s |}).
Proof.
  intros (_ & _ & Hfiles & _).
  pose proof (unlink_all_lookup (map FileMemoryStore.ix_id (FileMemoryStore.index s))
                (FileMemoryStore.files s)) as Hall.
  unfold FileMemoryStore.clear, FileMemoryStore.totalEntries.
  destruct (FileMemoryStore.unlink_all _ (FileMemoryStore.files s)) as [n fs].
  cbn [snd] in Hall. f_equal. f_equal.
  apply map_eq. intros i. rewrite Hall, lookup_empty.
  destruct (list_includes _ i) eqn:Hinc; [reflexivity|].
  destruct (FileMemoryStore.files s !! i) as [e|] eqn:Hi; [|reflexivity].
  exfalso. apply not_true_iff_false in Hinc. apply Hinc.
  apply list_includes_In. exact (Hfiles i e Hi).
Qed.

(** [clear] with a type removes the entries of that type and no other, and
    answers how many they were; [clear] without a type empties the store
    and answers its size.  For the file store this needs the index and the
    files to agree. *)
Theorem clear_removes_the_type (ty : MemoryType) :
  (forall s : InMemoryMemoryStore.t,
      let s' := snd (InMemoryMemoryStore.clear (Some ty) s) in
      (forall e, In e (InMemoryMemoryStore.memories s')
                 <-> In e (InMemoryMemoryStore.memories s) /\ type e <> ty)
      /\ fst (InMemoryMemoryStore.clear (Some ty) s)
         = Ok (InMemoryMemoryStore.totalEntries s - InMemoryMemoryStore.totalEntries s')
      /\ InMemoryMemoryStore.clear None s
         = (Ok (InMemoryMemoryStore.totalEntries s),
            {| InMemoryMemoryStore.memories := [];
               InMemoryMemoryStore.nextId := InMemoryMemoryStore.nextId s |}))
  /\ (forall s : FileMemoryStore.t,
        index_consistent s ->
        let s' := snd (FileMemoryStore.clear (Some ty) s) in
        (forall r, In r (FileMemoryStore.index s')
                   <-> In r (FileMemoryStore.index s) /\ FileMemoryStore.ix_type r <> ty)
        /\ (forall i e, FileMemoryStore.files s' !! i = Some e
                        <-> FileMemoryStore.files s !! i = Some e /\ type e <> ty)
        /\ fst (FileMemoryStore.clear (Some ty) s)
           = Ok (FileMemoryStore.totalEntries s - FileMemoryStore.totalEntries s')
        /\ FileMemoryStore.clear None s
           = (Ok (FileMemoryStore.totalEntries s),
              {| FileMemoryStore.index := []; FileMemoryStore.files := ∅;
                 FileMemoryStore.nextId := FileMemoryStore.nextId s |})).
Proof.
  split.
  - intros s s'. subst s'. split; [|split].
    + intros e. apply in_memory_clear_In.
    + apply in_memory_clear_count.
    + reflexivity.
  - intros s Hs s'. subst s'. split; [|split; [|split]].
    + intros r. apply file_clear_rows.
    + intros i e. now apply file_clear_files.
    + now apply file_clear_count.
    + now apply file_clear_all.
Qed.

Lemma clear_removes_the_type_witness :
  fst (FileMemoryStore.clear (Some LongTerm) fruit_files) = Ok 2
  /\ snd (FileMemoryStore.clear None fruit_files)
     = {| FileMemoryStore.index := []; FileMemoryStore.files := ∅;
          FileMemoryStore.nextId := 3 |}.
Proof.
  destruct (clear_removes_the_type LongTerm) as [_ Hfile].
  destruct (Hfile fruit_files fruit_files_consistent) as (_ & _ & Hcount & Hall).
  split; [exact Hcount | now rewrite Hall].
Defined.

(** ** The manager keeps the tiers apart *)

Lemma types_from_filter (f : MemoryEntry -> bool) (l : list MemoryEntry) :
  types_from (List.filter f l) l.
Proof. intros e He. apply filter_In in He as [He _]. now exists e. Qed.

Lemma types_from_touch (ids : list string) (now : Z) (l : list MemoryEntry) :
  types_from (InMemoryMemoryStore.touch ids now l) l.
Proof.
  intros e He. apply in_map_iff in He as (e0 & <- & He0). exists e0.
  split; [exact He0|]. now destruct (list_includes ids (id e0)).
Qed.

Lemma map_set_In (entry e : MemoryEntry) (m : list MemoryEntry) :
  In e (InMemoryMemoryStore.map_set entry m) -> e = entry \/ In e m.
Proof.
  unfold InMemoryMemoryStore.map_set.
  destruct (InMemoryMemoryStore.map_has (id entry) m).
  - intros He. apply in_map_iff in He as (e0 & <- & He0).
    destruct (String.eqb (id e0) (id entry)); [now left | now right].
  - intros He. apply in_app_or in He as [He|[<-|[]]]; [now right | now left].
Qed.

Lemma in_memory_retrieve_types (i : string) (now : Z) (s : InMemoryMemoryStore.t) :
  types_from (InMemoryMemoryStore.memories (snd (InMemoryMemoryStore.retrieve i now s)))
    (InMemoryMemoryStore.memories s).
Proof.
  unfold InMemoryMemoryStore.retrieve.
  destruct (InMemoryMemoryStore.map_get i (InMemoryMemoryStore.memories s)); simpl.
  - apply types_from_touch.
  - intros e He. now exists e.
Qed.

Lemma in_memory_query_types (q : MemoryQuery) (now : Z) (s : InMemoryMemoryStore.t) :
  types_from (InMemoryMemoryStore.memories (snd (InMemoryMemoryStore.query q now s)))
    (InMemoryMemoryStore.memories s).
Proof. apply types_from_touch. Qed.

Lemma in_memory_clear_types (ty : option MemoryType) (s : InMemoryMemoryStore.t) :
  types_from (InMemoryMemoryStore.memories (snd (InMemoryMemoryStore.clear ty s)))
    (InMemoryMemoryStore.memories s).
Proof.
  destruct ty as [ty|]; simpl; [apply types_from_filter | intros e []].
Qed.

Lemma touch_index_types (i : string) (accessed count : Z)
    (rows : list FileMemoryStore.IndexEntry) :
  row_types_from (FileMemoryStore.touch_index i accessed count rows) rows.
Proof.
  induction rows as [|r rows IH]; intros x Hx; simpl in Hx; [destruct Hx|].
  destruct (String.eqb (FileMemoryStore.ix_id r) i).
  - destruct Hx as [Hx|Hx]; [exists r; subst x | exists x]; simpl; auto.
  - destruct Hx as [Hx|Hx]; [exists r; subst x; simpl; auto|].
    destruct (IH x Hx) as (r0 & Hr0 & Hty). exists r0. simpl. auto.
Qed.

Lemma row_types_from_trans (a b c : list FileMemoryStore.IndexEntry) :
  row_types_from a b -> row_types_from b c -> row_types_from a c.
Proof.
  intros Hab Hbc r Hr. destruct (Hab r Hr) as (r0 & Hr0 & H0).
  destruct (Hbc r0 Hr0) as (r1 & Hr1 & H1). exists r1. split; [exact Hr1 | congruence].
Qed.

Lemma row_types_from_filter (f : FileMemoryStore.IndexEntry -> bool)
    (rows : list FileMemoryStore.IndexEntry) :
  row_types_from (List.filter f rows) rows.
Proof. intros r Hr. apply filter_In in Hr as [Hr _]. now exists r. Qed.

Lemma file_retrieve_types (i : string) (now : Z) (s : FileMemoryStore.t) :
  row_types_from (FileMemoryStore.index (snd (FileMemoryStore.retrieve i now s)))
    (FileMemoryStore.index s).
Proof.
  unfold FileMemoryStore.retrieve. destruct (FileMemoryStore.files s !! i); simpl.
  - apply touch_index_types.
  - intros r Hr. now exists r.
Qed.

Lemma load_entries_types (q : MemoryQuery) (now : Z)
    (rows : list FileMemoryStore.IndexEntry) :
  forall s,
    row_types_from (FileMemoryStore.index (snd (FileMemoryStore.load_entries q now rows s)))
      (FileMemoryStore.index s).
Proof.
  induction rows as [|r rows IH]; intros s; simpl.
  - intros x Hx. now exists x.
  - pose proof (file_retrieve_types (FileMemoryStore.ix_id r) now s) as Hret.
    destruct (FileMemoryStore.retrieve (FileMemoryStore.ix_id r) now s) as [res s1].
    simpl in Hret. specialize (IH s1).
    destruct res as [[entry|]|err].
    + destruct (FileMemoryStore.load_entries q now rows s1) as [entries s2].
      simpl in IH.
      destruct (FileMemoryStore.text_matches q entry); simpl;
        exact (row_types_from_trans _ _ _ IH Hret).
    + exact (row_types_from_trans _ _ _ IH Hret).
    + exact (row_types_from_trans _ _ _ IH Hret).
Qed.

(** What an operation of the file store does to the types in its index:
    every row has the type of a row that was there, or is the row of the
    entry just stored. *)
Lemma file_op_types (now : Z) (op : FileOp) (s : FileMemoryStore.t) :
  forall r, In r (FileMemoryStore.index (apply_file_op now op s)) ->
    (exists r0, In r0 (FileMemoryStore.index s)
                /\ FileMemoryStore.ix_type r = FileMemoryStore.ix_type r0)
    \/ (exists c imp tgs fault, op = FStore (FileMemoryStore.ix_type r) c imp tgs fault).
Proof.
  destruct op as [ty c imp tgs fault|i|q|i|maxAge minImportance|ty]; simpl; intros r Hr.
  - destruct fault; simpl in Hr.
    + apply in_app_or in Hr as [Hr|[<-|[]]]; [left; now exists r|].
      right. simpl. now exists c, imp, tgs, FileMemoryStore.NoFault.
    + left. now exists r.
    + apply in_app_or in Hr as [Hr|[<-|[]]]; [left; now exists r|].
      right. simpl. now exists c, imp, tgs, FileMemoryStore.IndexWriteFails.
  - left. now apply file_retrieve_types in Hr.
  - left. unfold FileMemoryStore.query in Hr.
    match type of Hr with context [FileMemoryStore.load_entries q now ?rows s] =>
      pose proof (load_entries_types q now rows s) as Hload;
      destruct (FileMemoryStore.load_entries q now rows s) as [entries s'] end.
    now apply Hload in Hr.
  - left. unfold FileMemoryStore.delete in Hr.
    destruct (FileMemoryStore.files s !! i); simpl in Hr.
    + now apply row_types_from_filter in Hr.
    + now exists r.
  - left. unfold FileMemoryStore.prune in Hr.
    destruct (FileMemoryStore.unlink_all _ (FileMemoryStore.files s)) as [n fs].
    simpl in Hr. now apply row_types_from_filter in Hr.
  - left. unfold FileMemoryStore.clear in Hr. destruct ty as [ty|].
    + destruct (FileMemoryStore.unlink_all _ (FileMemoryStore.files s)) as [n fs].
      simpl in Hr. now apply row_types_from_filter in Hr.
    + destruct (FileMemoryStore.unlink_all _ (FileMemoryStore.files s)) as [n fs].
      destruct Hr.
Qed.

Lemma stores_apart_short (st st' : InMemoryMemoryStore.t) (lt : FileMemoryStore.t) :
  types_from (InMemoryMemoryStore.memories st') (InMemoryMemoryStore.memories st) ->
  stores_apart st lt -> stores_apart st' lt.
Proof.
  intros Hfrom (Hshort & Hlong & Hcons). split; [|split; assumption].
  intros e He. destruct (Hfrom e He) as (e0 & He0 & ->). now apply Hshort.
Qed.

Lemma stores_apart_long (now : Z) (op : FileOp) (st : InMemoryMemoryStore.t)
    (lt : FileMemoryStore.t) :
  (forall ty c imp tgs fault, op = FStore ty c imp tgs fault -> long_term_type ty = true) ->
  stores_apart st lt -> stores_apart st (apply_file_op now op lt).
Proof.
  intros Hop (Hshort & Hlong & Hcons). split; [exact Hshort|]. split.
  - intros r Hr. destruct (file_op_types now op lt r Hr) as [(r0 & Hr0 & ->)|Hstore].
    + now apply Hlong.
    + destruct Hstore as (c & imp & tgs & fault & Heq). exact (Hop _ _ _ _ _ Heq).
  - now apply file_op_consistent.
Qed.

Lemma consolidate_loop_apart (faults : string -> FileMemoryStore.WriteFault) (now : Z)
    (memories : list MemoryEntry) :
  forall (st : InMemoryMemoryStore.t) (lt : FileMemoryStore.t) (n : Z),
    stores_apart st lt ->
    match MemoryManager.consolidate_loop faults now memories st lt n with
    | (_, st', lt') => stores_apart st' lt'
    end.
Proof.
  induction memories as [|memory rest IH]; intros st lt n Hap; simpl; [exact Hap|].
  assert (stores_apart st
            (snd (FileMemoryStore.store LongTerm (content memory)
                    (importance (metadata memory)) (tags (metadata memory))
                    now (faults (id memory)) lt))) as Hlt.
  { apply (stores_apart_long now
             (FStore LongTerm (content memory) (importance (metadata memory))
                (tags (metadata memory)) (faults (id memory))) st lt); [|exact Hap].
    intros ty c imp tgs fault [= <- _ _ _ _]. reflexivity. }
  destruct (FileMemoryStore.store LongTerm (content memory)
              (importance (metadata memory)) (tags (metadata memory))
              now (faults (id memory)) lt) as [storeResult lt1].
  simpl in Hlt. destruct (isOk storeResult).
  - apply IH. refine (stores_apart_short st _ lt1 _ Hlt). apply types_from_filter.
  - now apply IH.
Qed.

Lemma consolidate_apart (faults : string -> FileMemoryStore.WriteFault) (now : Z)
    (m : MemoryManager.t) :
  tiers_apart m -> tiers_apart (snd (MemoryManager.consolidate faults now m)).
Proof.
  intros Hap. unfold MemoryManager.consolidate.
  pose proof (in_memory_query_types (MemoryManager.consolidation_query m) now
                (MemoryManager.shortTermStore m)) as Hq.
  destruct (InMemoryMemoryStore.query (MemoryManager.consolidation_query m) now
              (MemoryManager.shortTermStore m)) as [result st].
  simpl in Hq.
  pose proof (stores_apart_short _ st _ Hq Hap) as Hst.
  destruct result as [memories|e]; [|exact Hst].
  pose proof (consolidate_loop_apart faults now memories st
                (MemoryManager.longTermStore m) 0 Hst) as Hloop.
  destruct (MemoryManager.consolidate_loop faults now memories st
              (MemoryManager.longTermStore m) 0) as [[consolidated st'] lt'].
  exact Hloop.
Qed.

Lemma maybeConsolidate_apart (faults : string -> FileMemoryStore.WriteFault) (now : Z)
    (m : MemoryManager.t) :
  tiers_apart m -> tiers_apart (MemoryManager.maybeConsolidate faults now m).
Proof.
  intros Hap. unfold MemoryManager.maybeConsolidate.
  destruct (_ <=? _); [now apply consolidate_apart | exact Hap].
Qed.

Lemma manager_op_apart (now : Z) (op : ManagerOp) (m : MemoryManager.t) :
  tiers_apart m -> tiers_apart (apply_manager_op now op m).
Proof.
  intros Hap.
  destruct op as [ty c imp tgs fault faults|i|q|i|ty|maxAge minImportance|faults];
    cbn [apply_manager_op].
  - unfold MemoryManager.store. destruct ty.
    + assert (tiers_apart
                (MemoryManager.with_stores m
                   (snd (InMemoryMemoryStore.store ShortTerm c imp tgs now
                           (MemoryManager.shortTermStore m)))
                   (MemoryManager.longTermStore m))) as H1.
      { destruct Hap as (Hshort & Hlong & Hcons). split; [|split; assumption].
        intros e He. cbn in He. apply map_set_In in He as [->|He];
          [reflexivity | now apply Hshort]. }
      cbn [InMemoryMemoryStore.store isOk snd] in *.
      now apply maybeConsolidate_apart.
    + assert (tiers_apart
                (MemoryManager.with_stores m (MemoryManager.shortTermStore m)
                   (apply_file_op now (FStore LongTerm c imp tgs fault)
                      (MemoryManager.longTermStore m)))) as H1.
      { apply stores_apart_long; [|exact Hap]. now intros ty c' imp' tgs' f' [= <- _ _ _ _]. }
      cbn [apply_file_op] in H1.
      destruct (FileMemoryStore.store LongTerm c imp tgs now fault
                  (MemoryManager.longTermStore m)) as [r lt].
      cbn [snd] in H1. destruct (isOk r); [now apply maybeConsolidate_apart | exact H1].
    + assert (tiers_apart
                (MemoryManager.with_stores m
                   (snd (InMemoryMemoryStore.store Episodic c imp tgs now
                           (MemoryManager.shortTermStore m)))
                   (MemoryManager.longTermStore m))) as H1.
      { destruct Hap as (Hshort & Hlong & Hcons). split; [|split; assumption].
        intros e He. cbn in He. apply map_set_In in He as [->|He];
          [reflexivity | now apply Hshort]. }
      cbn [InMemoryMemoryStore.store isOk snd] in *.
      now apply maybeConsolidate_apart.
    + assert (tiers_apart
                (MemoryManager.with_stores m (MemoryManager.shortTermStore m)
                   (apply_file_op now (FStore Semantic c imp tgs fault)
                      (MemoryManager.longTermStore m)))) as H1.
      { apply stores_apart_long; [|exact Hap]. now intros ty c' imp' tgs' f' [= <- _ _ _ _]. }
      cbn [apply_file_op] in H1.
      destruct (FileMemoryStore.store Semantic c imp tgs now fault
                  (MemoryManager.longTermStore m)) as [r lt].
      cbn [snd] in H1. destruct (isOk r); [now apply maybeConsolidate_apart | exact H1].
  - unfold MemoryManager.retrieve.
    pose proof (in_memory_retrieve_types i now (MemoryManager.shortTermStore m)) as Hst.
    destruct (InMemoryMemoryStore.retrieve i now (MemoryManager.shortTermStore m))
      as [shortTermResult st].
    cbn [snd] in Hst. pose proof (stores_apart_short _ st _ Hst Hap) as H1.
    pose proof (stores_apart_long now (FRetrieve i) st (MemoryManager.longTermStore m)
                  ltac:(intros; discriminate) H1) as H2.
    cbn [apply_file_op] in H2.
    destruct (FileMemoryStore.retrieve i now (MemoryManager.longTermStore m))
      as [longTermResult lt].
    destruct shortTermResult as [[entry|]|err]; [exact H1 | exact H2 | exact H2].
  - unfold MemoryManager.query.
    assert (forall q', stores_apart
                         (snd (InMemoryMemoryStore.query q' now
                                 (MemoryManager.shortTermStore m)))
                         (MemoryManager.longTermStore m)) as Hst
      by (intros q'; exact (stores_apart_short _ _ _ (in_memory_query_types q' now _) Hap)).
    destruct (MemoryManager.shouldQueryShortTerm q).
    + match goal with |- context [InMemoryMemoryStore.query ?q' now _] =>
        specialize (Hst q');
        destruct (InMemoryMemoryStore.query q' now (MemoryManager.shortTermStore m))
          as [r1 st] end.
      cbn [snd] in Hst.
      destruct (MemoryManager.shouldQueryLongTerm q); [|exact Hst].
      match goal with |- context [FileMemoryStore.query ?q' now _] =>
        pose proof (stores_apart_long now (FQuery q') st (MemoryManager.longTermStore m)
                      ltac:(intros; discriminate) Hst) as H2;
        cbn [apply_file_op] in H2;
        destruct (FileMemoryStore.query q' now (MemoryManager.longTermStore m))
          as [r2 lt] end.
      exact H2.
    + destruct (MemoryManager.shouldQueryLongTerm q); [|exact Hap].
      match goal with |- context [FileMemoryStore.query ?q' now _] =>
        pose proof (stores_apart_long now (FQuery q') (MemoryManager.shortTermStore m)
                      (MemoryManager.longTermStore m)
                      ltac:(intros; discriminate) Hap) as H2;
        cbn [apply_file_op] in H2;
        destruct (FileMemoryStore.query q' now (MemoryManager.longTermStore m))
          as [r2 lt] end.
      exact H2.
  - unfold MemoryManager.delete.
    pose proof (stores_apart_short _
                  (snd (InMemoryMemoryStore.delete i (MemoryManager.shortTermStore m))) _
                  (types_from_filter _ _) Hap) as H1.
    pose proof (stores_apart_long 0 (FDelete i) _ (MemoryManager.longTermStore m)
                  ltac:(intros; discriminate) H1) as H2.
    cbn [apply_file_op InMemoryMemoryStore.delete snd] in *.
    destruct (FileMemoryStore.delete i (MemoryManager.longTermStore m))
      as [longTermResult lt].
    destruct (InMemoryMemoryStore.map_has i _); exact H2.
  - unfold MemoryManager.clear.
    pose proof (stores_apart_short _
                  (snd (InMemoryMemoryStore.clear ty (MemoryManager.shortTermStore m))) _
                  (in_memory_clear_types ty _) Hap) as H1.
    pose proof (stores_apart_long 0 (FClear ty) _ (MemoryManager.longTermStore m)
                  ltac:(intros; discriminate) H1) as H2.
    pose proof (stores_apart_long 0 (FClear ty) _ (MemoryManager.longTermStore m)
                  ltac:(intros; discriminate) Hap) as H3.
    cbn [apply_file_op] in *.
    destruct (InMemoryMemoryStore.clear ty (MemoryManager.shortTermStore m)) as [r1 st].
    destruct (FileMemoryStore.clear ty (MemoryManager.longTermStore m)) as [r2 lt].
    cbn [snd] in *. destruct ty as [[]|]; first [exact H1 | exact H2 | exact H3].
  - unfold MemoryManager.prune.
    pose proof (stores_apart_short _
                  (snd (InMemoryMemoryStore.prune maxAge (Some (default Low minImportance))
                          now (MemoryManager.shortTermStore m))) _
                  (types_from_filter _ _) Hap) as H1.
    pose proof (stores_apart_long now (FPrune maxAge (Some (default Low minImportance))) _
                  (MemoryManager.longTermStore m)
                  ltac:(intros; discriminate) H1) as H2.
    cbn [apply_file_op InMemoryMemoryStore.prune snd] in *.
    destruct (FileMemoryStore.prune maxAge (Some (default Low minImportance)) now
                (MemoryManager.longTermStore m)) as [r2 lt].
    exact H2.
  - now apply consolidate_apart.
Qed.

Lemma fresh_manager_apart : tiers_apart fresh_manager.
Proof.
  split; [intros e []|]. split; [intros r []|]. exact empty_index_consistent.
Qed.

Lemma stocked_manager_apart : tiers_apart stocked_manager.
Proof.
  unfold stocked_manager. apply manager_op_apart, manager_op_apart, fresh_manager_apart.
Qed.

(** Whatever is asked of the manager (storing, retrieving, querying,
    deleting, clearing, pruning, consolidating) and whichever writes fail,
    the tiers stay apart: the short-term store holds short-term and
    episodic entries only, the long-term store long-term and semantic ones
    only, and the index and the files of the long-term store agree.  The
    ids that [retrieve] and [delete] are asked for are ids of the stores'
    form, and the counters stay where they count exactly. *)
Theorem manager_keeps_tiers_apart (trace : list (Z * ManagerOp)) :
  forall m : MemoryManager.t,
    manager_trace_in_reach trace m ->
    tiers_apart m -> tiers_apart (run_manager_ops trace m).
Proof.
  induction trace as [|[now op] rest IH]; intros m Hreach Hap; simpl; [exact Hap|].
  destruct Hreach as (_ & _ & _ & Hrest).
  apply IH; [exact Hrest | now apply manager_op_apart].
Qed.

Lemma manager_keeps_tiers_apart_witness :
  manager_trace_in_reach manager_trace fresh_manager
  /\ tiers_apart (run_manager_ops manager_trace fresh_manager).
Proof.
  assert (manager_trace_in_reach manager_trace fresh_manager) as Hreach.
  { unfold manager_trace. in_reach. }
  split; [exact Hreach|].
  apply (manager_keeps_tiers_apart manager_trace fresh_manager Hreach).
  split; [intros e []|]. split; [intros r []|].
  split; [constructor|]. split; [intros r []|]. split; [|intros r []].
  intros i e Hi. vm_compute in Hi. discriminate.
Defined.

(** ** What the file store's [query] answers *)

Lemma file_filters (q : MemoryQuery) (now : Z) (l : list FileMemoryStore.IndexEntry) :
  FileMemoryStore.filter_age q now
    (FileMemoryStore.filter_importance q
       (FileMemoryStore.filter_tags q
          (FileMemoryStore.filter_type q l)))
  = List.filter (row_satisfies q now) l.
Proof.
  assert (forall l0, FileMemoryStore.filter_type q l0
                     = List.filter
                         (fun r => match q_type q with
                                   | Some ty => MemoryType_eqb (FileMemoryStore.ix_type r) ty
                                   | None => true
                                   end) l0) as Htype.
  { intros l0. unfold FileMemoryStore.filter_type.
    destruct (q_type q); [reflexivity | now rewrite filter_true]. }
  assert (forall l0, FileMemoryStore.filter_tags q l0
                     = List.filter
                         (fun r => match q_tags q with
                                   | Some (t :: ts) =>
                                       existsb
                                         (fun tag =>
                                            list_includes (FileMemoryStore.ix_tags r) tag)
                                         (t :: ts)
                                   | _ => true
                                   end) l0) as Htags.
  { intros l0. unfold FileMemoryStore.filter_tags.
    destruct (q_tags q) as [[|t ts]|]; simpl; try reflexivity; now rewrite filter_true. }
  assert (forall l0, FileMemoryStore.filter_importance q l0
                     = List.filter
                         (fun r => match q_minImportance q with
                                   | Some mi =>
                                       importance_value mi
                                       <=? importance_value (FileMemoryStore.ix_importance r)
                                   | None => true
                                   end) l0) as Himp.
  { intros l0. unfold FileMemoryStore.filter_importance.
    destruct (q_minImportance q); [reflexivity | now rewrite filter_true]. }
  assert (forall l0, FileMemoryStore.filter_age q now l0
                     = List.filter
                         (fun r => match truthy_number (q_maxAge q) with
                                   | Some maxAge =>
                                       now - FileMemoryStore.ix_createdAt r <=? maxAge
                                   | None => true
                                   end) l0) as Hage.
  { intros l0. unfold FileMemoryStore.filter_age.
    destruct (truthy_number (q_maxAge q)); [reflexivity | now rewrite filter_true]. }
  rewrite Hage, Himp, Htags, Htype, !filter_filter.
  apply filter_ext. intros r. unfold row_satisfies. now rewrite !andb_assoc.
Qed.

Lemma row_matches_satisfies (q : MemoryQuery) (now : Z)
    (r : FileMemoryStore.IndexEntry) (e : MemoryEntry) :
  row_matches r e ->
  satisfies q now e = row_satisfies q now r && FileMemoryStore.text_matches q e.
Proof.
  intros (_ & Hty & Himp & Htags & Hcreated & _).
  unfold satisfies, row_satisfies, FileMemoryStore.text_matches.
  now rewrite Hty, Himp, Htags, Hcreated.
Qed.

Lemma load_entries_spec (q : MemoryQuery) (now : Z)
    (rows : list FileMemoryStore.IndexEntry) :
  forall s : FileMemoryStore.t,
    List.NoDup (index_ids rows) ->
    (forall e', In e' (fst (FileMemoryStore.load_entries q now rows s)) ->
       exists r e, In r rows
                   /\ FileMemoryStore.files s !! FileMemoryStore.ix_id r = Some e
                   /\ e' = recordAccess now e
                   /\ FileMemoryStore.text_matches q e = true)
    /\ (length (fst (FileMemoryStore.load_entries q now rows s)) <= length rows)%nat.
Proof.
  induction rows as [|r rows IH]; intros s Hnd; [split; [intros e' []|reflexivity]|].
  simpl in Hnd. apply NoDup_cons_iff in Hnd as [Hnotin Hnd].
  cbn [FileMemoryStore.load_entries]. unfold FileMemoryStore.retrieve.
  destruct (FileMemoryStore.files s !! FileMemoryStore.ix_id r) as [parsed|] eqn:Hfile.
  - match goal with |- context [FileMemoryStore.load_entries q now rows ?s1] =>
      destruct (IH s1 Hnd) as [Hin Hlen];
      destruct (FileMemoryStore.load_entries q now rows s1) as [entries s2] end.
    cbn [fst FileMemoryStore.files] in Hin, Hlen.
    assert (forall e', In e' entries ->
              exists r0 e, In r0 (r :: rows)
                           /\ FileMemoryStore.files s !! FileMemoryStore.ix_id r0 = Some e
                           /\ e' = recordAccess now e
                           /\ FileMemoryStore.text_matches q e = true) as Hrest.
    { intros e' He'. destruct (Hin e' He') as (r0 & e & Hr0 & He & Heq & Htext).
      exists r0, e. split; [now right|]. split; [|now split].
      rewrite lookup_insert_ne in He; [exact He|].
      intros Hid. apply Hnotin. rewrite Hid. now apply in_map. }
    change (FileMemoryStore.text_matches q (recordAccess now parsed))
      with (FileMemoryStore.text_matches q parsed).
    destruct (FileMemoryStore.text_matches q parsed) eqn:Htext; cbn [fst length].
    + split; [|lia]. intros e' [<-|He']; [|now apply Hrest].
      exists r, parsed. split; [now left|]. now repeat split.
    + split; [exact Hrest | lia].
  - destruct (IH s Hnd) as [Hin Hlen]. split; [|cbn [length]; lia].
    intros e' He'. destruct (Hin e' He') as (r0 & e & Hr0 & He & Heq & Htext).
    exists r0, e. split; [now right|]. now repeat split.
Qed.

Lemma apply_limit_length {A : Type} (limit : Z) (l : list A) :
  0 < limit -> Z.of_nat (length (apply_limit (Some limit) l)) <= limit.
Proof.
  intros Hpos. unfold apply_limit.
  destruct (Z.ltb_spec 0 limit); [|lia].
  pose proof (firstn_le_length (Z.to_nat limit) l).
  rewrite length_firstn. lia.
Qed.

Lemma apply_limit_ids_NoDup (limit : option Z) (rows : list FileMemoryStore.IndexEntry) :
  List.NoDup (index_ids rows) -> List.NoDup (index_ids (apply_limit limit rows)).
Proof.
  intros Hnd. unfold apply_limit. destruct limit as [l|]; [|exact Hnd].
  destruct (0 <? l); [|exact Hnd].
  rewrite <- (firstn_skipn (Z.to_nat l) rows) in Hnd.
  unfold index_ids in *. rewrite map_app in Hnd.
  exact (NoDup_app_remove_r _ _ Hnd).
Qed.

(** The file store's [query], on a store whose index and files agree. *)
Lemma file_query_spec (q : MemoryQuery) (now : Z) (s : FileMemoryStore.t) :
  index_consistent s ->
  exists entries,
    fst (FileMemoryStore.query q now s) = Ok entries
    /\ (forall e', In e' entries ->
          exists e, FileMemoryStore.files s !! id e' = Some e
                    /\ satisfies q now e = true
                    /\ e' = recordAccess now e)
    /\ (forall limit, q_limit q = Some limit -> 0 < limit ->
          Z.of_nat (length entries) <= limit).
Proof.
  intros (Hnd & Hrows & _).
  unfold FileMemoryStore.query. rewrite file_filters.
  set (rows := apply_limit (q_limit q)
                 (sort_desc FileMemoryStore.ix_accessedAt
                    (List.filter (row_satisfies q now) (FileMemoryStore.index s)))).
  assert (List.NoDup (index_ids rows)) as Hrnd.
  { apply apply_limit_ids_NoDup.
    apply (Permutation_NoDup
             (l := index_ids (List.filter (row_satisfies q now) (FileMemoryStore.index s)))).
    - apply Permutation_map. symmetry. apply sort_desc_perm.
    - now apply filter_index_ids_NoDup. }
  destruct (load_entries_spec q now rows s Hrnd) as [Hin Hlen].
  destruct (FileMemoryStore.load_entries q now rows s) as [entries s'].
  cbn [fst] in *. exists entries. split; [reflexivity|]. split.
  - intros e' He'. destruct (Hin e' He') as (r & e & Hr & He & -> & Htext).
    apply apply_limit_In, sort_desc_In, filter_In in Hr as [Hr Hsat].
    destruct (Hrows r Hr) as (e0 & He0 & Hmatch).
    rewrite He in He0. injection He0 as <-.
    exists e. cbn [recordAccess id]. destruct Hmatch as (Hid & Hrest).
    rewrite Hid. split; [exact He|]. split; [|reflexivity].
    rewrite (row_matches_satisfies q now r e (conj Hid Hrest)), Hsat, Htext. reflexivity.
  - intros limit Hlimit Hpos.
    pose proof (apply_limit_length limit
                  (sort_desc FileMemoryStore.ix_accessedAt
                     (List.filter (row_satisfies q now) (FileMemoryStore.index s))) Hpos).
    subst rows. rewrite Hlimit in Hlen. lia.
Qed.

Lemma in_memory_query_members (q : MemoryQuery) (now : Z) (s : InMemoryMemoryStore.t) :
  forall e', In e' (answer (fst (InMemoryMemoryStore.query q now s))) ->
    exists e, In e (InMemoryMemoryStore.memories s)
              /\ satisfies q now e = true
              /\ e' = recordAccess now e.
Proof.
  destruct (in_memory_query_exact q now s) as (Heq & _ & _ & Hall).
  rewrite Heq. cbn [answer]. intros e' He'.
  rewrite List.Forall_forall in Hall.
  destruct (Hall e' He') as (e & He & Hsat & Hrec & _). now exists e.
Qed.

Lemma in_memory_query_length (q : MemoryQuery) (now : Z) (s : InMemoryMemoryStore.t)
    (limit : Z) :
  q_limit q = Some limit -> 0 < limit ->
  Z.of_nat (length (answer (fst (InMemoryMemoryStore.query q now s)))) <= limit.
Proof.
  intros Hlimit Hpos. destruct (in_memory_query_exact q now s) as (Heq & _).
  rewrite Heq. cbn [answer]. rewrite length_map, Hlimit. now apply apply_limit_length.
Qed.

Lemma manager_cut_length {A : Type} (limit : Z) (results : list A) :
  0 < limit ->
  Z.of_nat (length (if (0 <? limit) && (limit <? Z.of_nat (length results))
                    then firstn (Z.to_nat limit) results
                    else results)) <= limit.
Proof.
  intros Hpos. destruct (Z.ltb_spec 0 limit); [|lia]. cbn [andb].
  destruct (Z.ltb_spec limit (Z.of_nat (length results))); [|lia].
  rewrite length_firstn. lia.
Qed.

Lemma manager_cut_In {A : Type} (limit : option Z) (results : list A) (x : A) :
  In x (match truthy_number limit with
        | Some l =>
            if (0 <? l) && (l <? Z.of_nat (length results))
            then firstn (Z.to_nat l) results
            else results
        | None => results
        end) ->
  In x results.
Proof.
  destruct (truthy_number limit) as [l|]; [|trivial].
  destruct ((0 <? l) && (l <? Z.of_nat (length results))); [apply firstn_In | trivial].
Qed.

(** [query] answers only with entries held that satisfy every predicate
    the query supplies, each with this access recorded, and with no more
    entries than a positive [limit] allows.  This holds of the file store
    when its index and its files agree, and of the manager over the two
    stores: what it answers comes from the short-term store or from the
    files of the long-term store. *)
Theorem query_answers_satisfy (q : MemoryQuery) (now : Z) :
  (forall s : FileMemoryStore.t,
      index_consistent s ->
      exists entries,
        fst (FileMemoryStore.query q now s) = Ok entries
        /\ (forall e', In e' entries ->
              exists e, FileMemoryStore.files s !! id e' = Some e
                        /\ satisfies q now e = true
                        /\ e' = recordAccess now e)
        /\ (forall limit, q_limit q = Some limit -> 0 < limit ->
              Z.of_nat (length entries) <= limit))
  /\ (forall m : MemoryManager.t,
        index_consistent (MemoryManager.longTermStore m) ->
        exists entries,
          fst (MemoryManager.query q now m) = Ok entries
          /\ (forall e', In e' entries ->
                exists e,
                  (In e (InMemoryMemoryStore.memories (MemoryManager.shortTermStore m))
                   \/ FileMemoryStore.files (MemoryManager.longTermStore m) !! id e'
                      = Some e)
                  /\ satisfies q now e = true
                  /\ e' = recordAccess now e)
          /\ (forall limit, q_limit q = Some limit -> 0 < limit ->
                Z.of_nat (length entries) <= limit)).
Proof.
  split; [intros s Hs; now apply file_query_spec|].
  intros m Hcons.
  pose proof (in_memory_query_members q now (MemoryManager.shortTermStore m)) as Hshort.
  destruct (file_query_spec q now (MemoryManager.longTermStore m) Hcons)
    as (longs & Hlong_eq & Hlong & _).
  unfold MemoryManager.query.
  set (asked_short :=
         match q_type q with
         | Some LongTerm | Some Semantic => MemoryManager.with_type q None
         | _ => q
         end).
  set (asked_long :=
         match q_type q with
         | Some ShortTerm | Some Episodic => MemoryManager.with_type q None
         | _ => q
         end).
  assert (MemoryManager.shouldQueryShortTerm q = true -> asked_short = q) as Has.
  { unfold MemoryManager.shouldQueryShortTerm, asked_short.
    now destruct (q_type q) as [[]|]. }
  assert (MemoryManager.shouldQueryLongTerm q = true -> asked_long = q) as Hal.
  { unfold MemoryManager.shouldQueryLongTerm, asked_long.
    now destruct (q_type q) as [[]|]. }
  destruct (MemoryManager.shouldQueryShortTerm q) eqn:Hqs;
    destruct (MemoryManager.shouldQueryLongTerm q) eqn:Hql;
    rewrite ?(Has eq_refl), ?(Hal eq_refl).
  all: try (destruct (InMemoryMemoryStore.query q now (MemoryManager.shortTermStore m))
              as [r1 st] eqn:Hq1; cbn [fst] in Hshort).
  all: try (destruct (FileMemoryStore.query q now (MemoryManager.longTermStore m))
              as [r2 lt] eqn:Hq2; cbn [fst] in Hlong_eq; subst r2).
  all: cbn [fst MemoryManager.push_ok app].
  all: eexists; split; [reflexivity|]; split;
    [ intros e' He'; apply manager_cut_In, sort_desc_In in He'
    | intros limit Hlimit Hpos; rewrite Hlimit; unfold truthy_number;
      destruct (Z.eqb_spec limit 0); [lia|]; now apply manager_cut_length ].
  - destruct r1 as [shorts|err]; cbn [MemoryManager.push_ok app answer] in *.
    + apply in_app_or in He' as [He'|He'].
      * destruct (Hshort e' He') as (e & He & Hsat & Hrec). exists e. now repeat split; [left|..].
      * destruct (Hlong e' He') as (e & He & Hsat & Hrec). exists e. now repeat split; [right|..].
    + destruct (Hlong e' He') as (e & He & Hsat & Hrec). exists e. now repeat split; [right|..].
  - destruct r1 as [shorts|err]; cbn [MemoryManager.push_ok app answer] in *.
    + destruct (Hshort e' He') as (e & He & Hsat & Hrec). exists e. now repeat split; [left|..].
    + destruct He'.
  - destruct (Hlong e' He') as (e & He & Hsat & Hrec). exists e. now repeat split; [right|..].
  - destruct He'.
Qed.

Lemma query_answers_satisfy_witness :
  exists entries,
    fst (MemoryManager.query one_apple 2000 stocked_manager) = Ok entries
    /\ (forall limit, q_limit one_apple = Some limit -> 0 < limit ->
          Z.of_nat (length entries) <= limit).
Proof.
  destruct (query_answers_satisfy one_apple 2000) as [_ Hmanager].
  destruct (Hmanager stocked_manager) as (entries & Heq & _ & Hlimit).
  - destruct stocked_manager_apart as (_ & _ & Hcons). exact Hcons.
  - exists entries. split; assumption.
Defined.

(** ** Clearing and querying through the manager *)

Lemma long_files_typed (m : MemoryManager.t) (i : string) (e : MemoryEntry) :
  tiers_apart m ->
  FileMemoryStore.files (MemoryManager.longTermStore m) !! i = Some e ->
  long_term_type (type e) = true.
Proof.
  intros (_ & Hlong & (_ & Hrows & Hfiles & _)) Hi.
  pose proof (Hfiles i e Hi) as Hin. apply in_map_iff in Hin as (r & Hid & Hr).
  destruct (Hrows r Hr) as (e' & He' & (_ & Hty & _)).
  rewrite Hid, Hi in He'. injection He' as <-. rewrite Hty. now apply Hlong.
Qed.

(** [clear] with a type, through the manager, removes every entry of that
    type the manager holds, in whichever tier, keeps every other entry, and
    answers how many entries it removed.  The manager clears only the tier
    the type is routed to; the other tier holds no entry of the type when
    the tiers are apart. *)
Theorem manager_clear_removes_the_type (ty : MemoryType) (m : MemoryManager.t) :
  tiers_apart m ->
  let m' := snd (MemoryManager.clear (Some ty) m) in
  (forall e, In e (InMemoryMemoryStore.memories (MemoryManager.shortTermStore m'))
             <-> In e (InMemoryMemoryStore.memories (MemoryManager.shortTermStore m))
                 /\ type e <> ty)
  /\ (forall r, In r (FileMemoryStore.index (MemoryManager.longTermStore m'))
                <-> In r (FileMemoryStore.index (MemoryManager.longTermStore m))
                    /\ FileMemoryStore.ix_type r <> ty)
  /\ (forall i e, FileMemoryStore.files (MemoryManager.longTermStore m') !! i = Some e
                  <-> FileMemoryStore.files (MemoryManager.longTermStore m) !! i = Some e
                      /\ type e <> ty)
  /\ fst (MemoryManager.clear (Some ty) m) = Ok (manager_size m - manager_size m').
Proof.
  intros Hap m'. subst m'.
  pose proof (long_files_typed m) as Hfiles_typed.
  destruct Hap as (Hshort & Hlong & Hcons).
  pose proof (in_memory_clear_In ty (MemoryManager.shortTermStore m)) as HsIn.
  pose proof (in_memory_clear_count ty (MemoryManager.shortTermStore m)) as HsCount.
  pose proof (file_clear_rows ty (MemoryManager.longTermStore m)) as HlRows.
  pose proof (fun i e => file_clear_files ty (MemoryManager.longTermStore m) i e Hcons)
    as HlFiles.
  pose proof (file_clear_count ty (MemoryManager.longTermStore m) Hcons) as HlCount.
  unfold MemoryManager.clear, manager_size.
  destruct (InMemoryMemoryStore.clear (Some ty) (MemoryManager.shortTermStore m))
    as [r1 st].
  destruct (FileMemoryStore.clear (Some ty) (MemoryManager.longTermStore m))
    as [r2 lt].
  cbn [fst snd] in *. subst r1 r2.
  assert (short_term_type ty = true ->
          forall r, In r (FileMemoryStore.index (MemoryManager.longTermStore m)) ->
                    FileMemoryStore.ix_type r <> ty) as Hrow_other.
  { intros Hty r Hr Heq. apply Hlong in Hr. rewrite Heq in Hr.
    unfold long_term_type in Hr. rewrite Hty in Hr. discriminate. }
  assert (short_term_type ty = true ->
          forall i e, FileMemoryStore.files (MemoryManager.longTermStore m) !! i = Some e ->
                      type e <> ty) as Hfile_other.
  { intros Hty i e Hi Heq.
    pose proof (Hfiles_typed i e (conj Hshort (conj Hlong Hcons)) Hi) as Hl.
    rewrite Heq in Hl. unfold long_term_type in Hl. rewrite Hty in Hl. discriminate. }
  assert (short_term_type ty = false ->
          forall e, In e (InMemoryMemoryStore.memories (MemoryManager.shortTermStore m)) ->
                    type e <> ty) as Hentry_other.
  { intros Hty e He Heq. apply Hshort in He. rewrite Heq, Hty in He. discriminate. }
  destruct ty; cbn [MemoryManager.with_stores MemoryManager.shortTermStore
                      MemoryManager.longTermStore MemoryManager.add_ok fst snd];
    (split; [|split; [|split]]);
    first [ exact HsIn
          | exact HlRows
          | exact HlFiles
          | f_equal; lia
          | intros e; split; [intros He; split; [exact He | now apply Hentry_other]
                             | now intros [He _]]
          | intros r; split; [intros Hr; split; [exact Hr | now apply Hrow_other]
                             | now intros [Hr _]]
          | intros i e; split; [intros Hi; split; [exact Hi | now apply (Hfile_other eq_refl i)]
                               | now intros [Hi _]] ].
Qed.

Lemma manager_clear_removes_the_type_witness :
  fst (MemoryManager.clear (Some Semantic) stocked_manager) = Ok 1
  /\ manager_size (snd (MemoryManager.clear (Some Semantic) stocked_manager)) = 1.
Proof.
  pose proof (manager_clear_removes_the_type Semantic stocked_manager
                stocked_manager_apart) as (_ & _ & _ & Hcount).
  split; [exact Hcount | reflexivity].
Defined.

(** ** The records of the agent loop *)

Lemma numbered_snoc (its : list Iteration) (record : Iteration) :
  numbered its ->
  number record = Z.of_nat (length its) + 1 ->
  numbered (its ++ [record]).
Proof.
  unfold numbered. intros Hits Hrecord.
  rewrite map_app, length_app, seq_app, map_app, Hits. cbn [length seq map Nat.add].
  rewrite Hrecord. do 2 f_equal. lia.
Qed.

Section AgentLoopRecords.
Context {M : Type} `{MemoryStore M}.
Variable llmProvider : Z -> CompletionRequest -> Exc CompletionResponse.
Variable toolRegistry : ToolRegistryImpl.t.
Variable clock : Z -> Z.
Variable toISOString : Z -> string.
Variable newExecutionId : string.

Let iterate :=
  ExecuteAgentUseCaseImpl.iterate llmProvider toolRegistry clock toISOString newExecutionId.
Let agentLoop :=
  ExecuteAgentUseCaseImpl.agentLoop llmProvider toolRegistry clock toISOString
    newExecutionId.
Let execute :=
  ExecuteAgentUseCaseImpl.execute llmProvider toolRegistry clock toISOString
    newExecutionId.

(** One iteration either appends one record, keeping the invariant, or
    throws before it has recorded anything. *)
Lemma iterate_records agent task defs (vars : ExecuteAgentUseCaseImpl.LoopVars M) :
  loop_invariant vars ->
  ExecuteAgentUseCaseImpl.completed vars = false ->
  match iterate agent task defs vars with
  | ExecuteAgentUseCaseImpl.Finished vars' =>
      loop_invariant vars'
      /\ length (ExecuteAgentUseCaseImpl.recorded vars')
         = S (length (ExecuteAgentUseCaseImpl.recorded vars))
  | ExecuteAgentUseCaseImpl.Threw e vars' =>
      ExecuteAgentUseCaseImpl.recorded vars' = ExecuteAgentUseCaseImpl.recorded vars
  end.
Proof.
  intros (Hcount & Hnum & Hout) Hrunning. rewrite Hrunning in Hout.
  unfold iterate, ExecuteAgentUseCaseImpl.iterate.
  destruct (ExecuteAgentUseCaseImpl.buildMessages _ _ _ _ _) as [[msgs|e] mem1];
    [|reflexivity].
  destruct (llmProvider _ _) as [response|e]; [|reflexivity].
  assert (forall record,
             number record = ExecuteAgentUseCaseImpl.iterationCount vars + 1 ->
             numbered (ExecuteAgentUseCaseImpl.recorded vars ++ [record])) as Hsnoc.
  { intros record Hrecord. apply numbered_snoc; [exact Hnum|]. now rewrite Hrecord, Hcount. }
  assert (forall record : Iteration,
             ExecuteAgentUseCaseImpl.iterationCount vars + 1
             = Z.of_nat (length (ExecuteAgentUseCaseImpl.recorded vars ++ [record])))
    as Hlen.
  { intros record. rewrite length_app. cbn [length]. lia. }
  assert (forall record : Iteration,
             length (ExecuteAgentUseCaseImpl.recorded vars ++ [record])
             = S (length (ExecuteAgentUseCaseImpl.recorded vars))) as Hone.
  { intros record. rewrite length_app. cbn [length]. lia. }
  assert (forall text : string,
             loop_invariant
               {| ExecuteAgentUseCaseImpl.iterationCount :=
                    ExecuteAgentUseCaseImpl.iterationCount vars + 1;
                  ExecuteAgentUseCaseImpl.completed := true;
                  ExecuteAgentUseCaseImpl.finalOutput := Some text;
                  ExecuteAgentUseCaseImpl.recorded :=
                    (ExecuteAgentUseCaseImpl.recorded vars
                     ++ [{| number := ExecuteAgentUseCaseImpl.iterationCount vars + 1;
                            thought := text;
                            action := "final_answer"; actionInput := [];
                            observation := Some text;
                            timestamp :=
                              clock (ExecuteAgentUseCaseImpl.iterationCount vars + 1) |}])%list;
                  ExecuteAgentUseCaseImpl.memory := mem1 |}) as Hanswer.
  { intros text. split; [apply Hlen|]. split; [now apply Hsnoc|].
    cbn. exists text. split; [reflexivity|]. eexists _, _. now repeat split. }
  destruct (toolCalls response) as [[|toolCall rest]|].
  - split; [apply Hanswer | apply Hone].
  - destruct (ToolRegistryImpl.execute toolRegistry (call_name toolCall)
                (arguments toolCall)) as [toolResult|e]; [|reflexivity].
    split; [|apply Hone]. split; [apply Hlen|]. split; [now apply Hsnoc|]. exact Hout.
  - split; [apply Hanswer | apply Hone].
Qed.

Lemma agentLoop_records agent task defs (remaining : nat) :
  forall vars : ExecuteAgentUseCaseImpl.LoopVars M,
    loop_invariant vars ->
    match agentLoop agent task defs remaining vars with
    | ExecuteAgentUseCaseImpl.Finished vars' =>
        loop_invariant vars'
        /\ (length (ExecuteAgentUseCaseImpl.recorded vars')
            <= length (ExecuteAgentUseCaseImpl.recorded vars) + remaining)%nat
        /\ (ExecuteAgentUseCaseImpl.completed vars = false ->
            ExecuteAgentUseCaseImpl.completed vars' = false ->
            length (ExecuteAgentUseCaseImpl.recorded vars')
            = (length (ExecuteAgentUseCaseImpl.recorded vars) + remaining)%nat)
    | ExecuteAgentUseCaseImpl.Threw e vars' =>
        numbered (ExecuteAgentUseCaseImpl.recorded vars')
        /\ (length (ExecuteAgentUseCaseImpl.recorded vars')
            < length (ExecuteAgentUseCaseImpl.recorded vars) + remaining)%nat
    end.
Proof.
  induction remaining as [|remaining IH]; intros vars Hinv.
  - cbn. split; [exact Hinv|]. split; intros; lia.
  - unfold agentLoop in *. cbn [ExecuteAgentUseCaseImpl.agentLoop].
    destruct (ExecuteAgentUseCaseImpl.completed vars) eqn:Hdone.
    + split; [exact Hinv|]. split; [lia | discriminate].
    + pose proof (iterate_records agent task defs vars Hinv Hdone) as Hstep.
      unfold iterate in Hstep.
      destruct (ExecuteAgentUseCaseImpl.iterate _ _ _ _ _ _ _ _ vars) as [vars1|e vars1].
      * destruct Hstep as [Hinv1 Hlen1]. specialize (IH vars1 Hinv1).
        destruct (ExecuteAgentUseCaseImpl.agentLoop _ _ _ _ _ _ _ _ remaining vars1)
          as [vars'|e vars'] eqn:Hloop.
        -- destruct IH as (Hinv' & Hle & Hexact). split; [exact Hinv'|]. split; [lia|].
           intros _ Hrunning.
           destruct (ExecuteAgentUseCaseImpl.completed vars1) eqn:Hdone1.
           ++ exfalso. clear Hexact Hle.
              assert (ExecuteAgentUseCaseImpl.agentLoop llmProvider toolRegistry clock
                        toISOString newExecutionId agent task defs remaining vars1
                      = ExecuteAgentUseCaseImpl.Finished vars1) as Hstop
                by (destruct remaining; cbn; [reflexivity | now rewrite Hdone1]).
              congruence.
           ++ rewrite (Hexact eq_refl Hrunning). lia.
        -- destruct IH as [Hnum Hlt]. split; [exact Hnum | lia].
      * rewrite Hstep. destruct Hinv as (_ & Hnum & _). split; [exact Hnum | lia].
Qed.

(** Whatever the model and the tools do, the records [execute] leaves are
    numbered 1, 2, 3, ... and are no more than [maxIterations].  When it
    returns a response, the response carries these records and counts
    them; a successful one ends with the final answer, which is its output,
    and an unsuccessful one has used every iteration the bound allows. *)
Theorem iteration_records_numbered
    (request : ExecuteAgentUseCaseImpl.ExecuteAgentRequest) (mem : option M) :
  let ex := execute request mem in
  let bound := Z.max 0 (ExecuteAgentUseCaseImpl.requested_maxIterations request) in
  numbered (ExecuteAgentUseCaseImpl.final_iterations ex)
  /\ Z.of_nat (length (ExecuteAgentUseCaseImpl.final_iterations ex)) <= bound
  /\ (forall response,
        ExecuteAgentUseCaseImpl.returned ex = Ok response ->
        iterations response = ExecuteAgentUseCaseImpl.final_iterations ex
        /\ metadata_iterations response = Z.of_nat (length (iterations response))
        /\ if response_success response
           then exists text,
                  response_output response = JString text
                  /\ response_error response = None
                  /\ ends_with_answer (iterations response) text
           else response_output response = JNull
                /\ response_error response = Some "Maximum iterations reached"
                /\ Z.of_nat (length (iterations response)) = bound)
  /\ (forall e,
        ExecuteAgentUseCaseImpl.returned ex = Err e ->
        Z.of_nat (length (ExecuteAgentUseCaseImpl.final_iterations ex)) < bound
        \/ ExecuteAgentUseCaseImpl.final_task ex = None).
Proof.
  intros ex bound. subst ex bound.
  unfold execute, ExecuteAgentUseCaseImpl.execute.
  assert (numbered []) as Hnil by reflexivity.
  destruct (ExecuteAgentUseCaseImpl.found_agent request) as [agent|].
  2:{ cbn. split; [exact Hnil|]. split; [lia|]. split; [discriminate|]. intros; now right. }
  destruct (TaskEntity.create _) as [task0|e0].
  2:{ cbn. split; [exact Hnil|]. split; [lia|]. split; [discriminate|]. intros; now right. }
  set (n := ExecuteAgentUseCaseImpl.requested_maxIterations request).
  assert (loop_invariant (ExecuteAgentUseCaseImpl.initial_vars mem)) as Hinit
    by (split; [reflexivity|]; split; reflexivity).
  pose proof (agentLoop_records agent (TaskEntity.updateStatus Running task0)
                (map ExecuteAgentUseCaseImpl.getToolDefinition
                   (ExecuteAgentUseCaseImpl.availableTools toolRegistry request))
                (Z.to_nat n) _ Hinit) as Hloop.
  unfold agentLoop in Hloop.
  destruct (ExecuteAgentUseCaseImpl.agentLoop _ _ _ _ _ _ _ _ _ _) as [vars|e vars].
  - destruct Hloop as ((Hcount & Hnum & Hout) & Hle & Hexact).
    cbn [ExecuteAgentUseCaseImpl.final_iterations ExecuteAgentUseCaseImpl.returned
         ExecuteAgentUseCaseImpl.initial_vars ExecuteAgentUseCaseImpl.recorded
         ExecuteAgentUseCaseImpl.completed length Nat.add] in *.
    split; [exact Hnum|]. split; [lia|]. split; [|discriminate].
    intros response [= <-].
    cbn [iterations metadata_iterations response_success response_output response_error].
    split; [reflexivity|]. split; [exact Hcount|].
    destruct (ExecuteAgentUseCaseImpl.completed vars).
    + destruct Hout as (text & -> & Hends). exists text. now repeat split.
    + rewrite Hout. split; [reflexivity|]. split; [reflexivity|].
      rewrite (Hexact eq_refl eq_refl). lia.
  - destruct Hloop as [Hnum Hlt].
    cbn [ExecuteAgentUseCaseImpl.final_iterations ExecuteAgentUseCaseImpl.returned
         ExecuteAgentUseCaseImpl.initial_vars ExecuteAgentUseCaseImpl.recorded
         length Nat.add] in *.
    split; [exact Hnum|]. split; [lia|]. split; [discriminate|]. intros _ _. left. lia.
Qed.


End AgentLoopRecords.


Section AgentAnswers.
Context {M : Type} `{MemoryStore M}.
Variable llmProvider : Z -> CompletionRequest -> Exc CompletionResponse.
Variable toolRegistry : ToolRegistryImpl.t.
Variable clock : Z -> Z.
Variable toISOString : Z -> string.
Variable newExecutionId : string.

Let execute :=
  ExecuteAgentUseCaseImpl.execute llmProvider toolRegistry clock toISOString
    newExecutionId.


End AgentAnswers.


(** ** The tool registry *)

Lemma ordered_get_set_eq (k : string) (v : Tool) (m : list (string * Tool)) :
  ToolRegistryImpl.ordered_get k (ToolRegistryImpl.ordered_set k v m) = Some v.
Proof.
  induction m as [|[k' v'] m IH]; simpl; [now rewrite String.eqb_refl|].
  destruct (String.eqb k' k) eqn:Hk; simpl; [now rewrite String.eqb_refl|].
  now rewrite Hk.
Qed.

Lemma ordered_get_set_ne (k j : string) (v : Tool) (m : list (string * Tool)) :
  j <> k ->
  ToolRegistryImpl.ordered_get j (ToolRegistryImpl.ordered_set k v m)
  = ToolRegistryImpl.ordered_get j m.
Proof.
  intros Hne. induction m as [|[k' v'] m IH]; simpl.
  - destruct (String.eqb_spec k j); [congruence | reflexivity].
  - destruct (String.eqb_spec k' k) as [->|Hk]; simpl.
    + destruct (String.eqb_spec k j); [congruence | reflexivity].
    + destruct (String.eqb k' j); [reflexivity | exact IH].
Qed.

Lemma ordered_has_get (k : string) (m : list (string * Tool)) :
  ToolRegistryImpl.ordered_has k m = true
  <-> exists v, ToolRegistryImpl.ordered_get k m = Some v.
Proof.
  unfold ToolRegistryImpl.ordered_has.
  induction m as [|[k' v'] m IH]; simpl.
  - split; [discriminate | intros [v Hv]; discriminate].
  - destruct (String.eqb k' k); simpl; [|exact IH]. split; [now exists v' | reflexivity].
Qed.

Lemma ordered_get_delete_eq (k : string) (m : list (string * Tool)) :
  ToolRegistryImpl.ordered_get k (ToolRegistryImpl.ordered_delete k m) = None.
Proof.
  unfold ToolRegistryImpl.ordered_delete.
  induction m as [|[k' v'] m IH]; simpl; [reflexivity|].
  destruct (String.eqb k' k) eqn:Hk; simpl; [exact IH|]. now rewrite Hk.
Qed.

Lemma ordered_get_delete_ne (k j : string) (m : list (string * Tool)) :
  j <> k ->
  ToolRegistryImpl.ordered_get j (ToolRegistryImpl.ordered_delete k m)
  = ToolRegistryImpl.ordered_get j m.
Proof.
  intros Hne. unfold ToolRegistryImpl.ordered_delete.
  induction m as [|[k' v'] m IH]; simpl; [reflexivity|].
  destruct (String.eqb_spec k' k) as [->|Hk]; simpl.
  - destruct (String.eqb_spec k j); [congruence | exact IH].
  - destruct (String.eqb k' j); [reflexivity | exact IH].
Qed.

Lemma ordered_get_In (k : string) (v : Tool) (m : list (string * Tool)) :
  ToolRegistryImpl.ordered_get k m = Some v -> In v (map snd m).
Proof.
  induction m as [|[k' v'] m IH]; simpl; [discriminate|].
  destruct (String.eqb k' k); [intros [= ->]; now left | intros Hv; right; now apply IH].
Qed.

Lemma has_false_get (k : string) (m : list (string * Tool)) :
  ToolRegistryImpl.ordered_get k m = None -> ToolRegistryImpl.ordered_has k m = false.
Proof.
  intros Hnone. apply not_true_is_false. intros Hhas.
  apply ordered_has_get in Hhas as [v Hv]. congruence.
Qed.

(** A tool registered is found under its id and under its name, is listed,
    and is the tool [execute] runs for its name, whatever was registered
    before; unregistering it answers true, and then neither its id nor its
    name finds it: [execute] answers that the tool is not found.  Tools of
    another id and another name are found as before, throughout. *)
Theorem register_then_unregister (tool : Tool) (r : ToolRegistryImpl.t)
    (params : ToolParams) :
  let r1 := ToolRegistryImpl.register tool r in
  let r2 := snd (ToolRegistryImpl.unregister (tool_id tool) r1) in
  (ToolRegistryImpl.get (tool_id tool) r1 = Some tool
   /\ ToolRegistryImpl.has (tool_id tool) r1 = true
   /\ ToolRegistryImpl.getByName (name tool) r1 = Some tool
   /\ In tool (ToolRegistryImpl.list r1)
   /\ ToolRegistryImpl.execute r1 (name tool) params
      = ToolRegistryImpl.execute
          (ToolRegistryImpl.register tool ToolRegistryImpl.empty) (name tool) params)
  /\ (fst (ToolRegistryImpl.unregister (tool_id tool) r1) = true
      /\ ToolRegistryImpl.get (tool_id tool) r2 = None
      /\ ToolRegistryImpl.has (tool_id tool) r2 = false
      /\ ToolRegistryImpl.getByName (name tool) r2 = None
      /\ ToolRegistryImpl.execute r2 (name tool) params
         = Normal (tool_not_found (name tool))
      /\ fst (ToolRegistryImpl.unregister (tool_id tool) r2) = false)
  /\ (forall i, i <> tool_id tool ->
        ToolRegistryImpl.get i r1 = ToolRegistryImpl.get i r
        /\ ToolRegistryImpl.get i r2 = ToolRegistryImpl.get i r)
  /\ (forall nm, nm <> name tool ->
        ToolRegistryImpl.getByName nm r1 = ToolRegistryImpl.getByName nm r
        /\ ToolRegistryImpl.getByName nm r2 = ToolRegistryImpl.getByName nm r).
Proof.
  intros r1 r2. subst r1 r2.
  pose proof (ordered_get_set_eq (tool_id tool) tool (ToolRegistryImpl.tools r)) as Hget.
  assert (ToolRegistryImpl.ordered_has (tool_id tool)
            (ToolRegistryImpl.ordered_set (tool_id tool) tool (ToolRegistryImpl.tools r))
          = true) as Hhas by (apply ordered_has_get; now exists tool).
  unfold ToolRegistryImpl.unregister, ToolRegistryImpl.get, ToolRegistryImpl.has,
    ToolRegistryImpl.getByName, ToolRegistryImpl.execute, ToolRegistryImpl.list.
  cbn [ToolRegistryImpl.register ToolRegistryImpl.tools ToolRegistryImpl.toolsByName
       ToolRegistryImpl.empty].
  rewrite Hget. cbn [fst snd ToolRegistryImpl.tools ToolRegistryImpl.toolsByName].
  rewrite !lookup_insert_eq, lookup_delete_eq, ordered_get_delete_eq.
  split; [|split; [|split]].
  - split; [reflexivity|]. split; [exact Hhas|]. split; [reflexivity|].
    split; [|reflexivity]. now apply (ordered_get_In (tool_id tool)).
  - split; [exact Hhas|]. split; [reflexivity|].
    split; [apply has_false_get, ordered_get_delete_eq|]. now repeat split.
  - intros i Hne.
    rewrite ordered_get_delete_ne, ordered_get_set_ne by assumption. now split.
  - intros nm Hne.
    rewrite lookup_delete_ne, lookup_insert_ne by congruence. now split.
Qed.

(** Unregistering a tool removes its name from the registry even when the
    name has since been given to another tool: of two tools registered
    under one name, unregistering the first leaves the second registered
    and listed, found under its id, but no longer found under the name, so
    that [execute] answers that the tool is not found. *)
Theorem unregister_hides_namesake (first second : Tool) (r : ToolRegistryImpl.t)
    (params : ToolParams) :
  name first = name second ->
  tool_id first <> tool_id second ->
  let both := ToolRegistryImpl.register second (ToolRegistryImpl.register first r) in
  let r' := snd (ToolRegistryImpl.unregister (tool_id first) both) in
  ToolRegistryImpl.getByName (name second) both = Some second
  /\ fst (ToolRegistryImpl.unregister (tool_id first) both) = true
  /\ ToolRegistryImpl.get (tool_id second) r' = Some second
  /\ ToolRegistryImpl.has (tool_id second) r' = true
  /\ In second (ToolRegistryImpl.list r')
  /\ ToolRegistryImpl.getByName (name second) r' = None
  /\ ToolRegistryImpl.execute r' (name second) params
     = Normal (tool_not_found (name second)).
Proof.
  intros Hname Hid both r'. subst both r'.
  assert (ToolRegistryImpl.ordered_get (tool_id first)
            (ToolRegistryImpl.ordered_set (tool_id second) second
               (ToolRegistryImpl.ordered_set (tool_id first) first
                  (ToolRegistryImpl.tools r))) = Some first) as Hfirst.
  { rewrite ordered_get_set_ne by assumption. apply ordered_get_set_eq. }
  assert (ToolRegistryImpl.ordered_get (tool_id second)
            (ToolRegistryImpl.ordered_delete (tool_id first)
               (ToolRegistryImpl.ordered_set (tool_id second) second
                  (ToolRegistryImpl.ordered_set (tool_id first) first
                     (ToolRegistryImpl.tools r)))) = Some second) as Hsecond.
  { rewrite ordered_get_delete_ne by congruence. apply ordered_get_set_eq. }
  unfold ToolRegistryImpl.unregister, ToolRegistryImpl.get, ToolRegistryImpl.has,
    ToolRegistryImpl.getByName, ToolRegistryImpl.execute, ToolRegistryImpl.list.
  cbn [ToolRegistryImpl.register ToolRegistryImpl.tools ToolRegistryImpl.toolsByName].
  rewrite Hfirst. cbn [fst snd ToolRegistryImpl.tools ToolRegistryImpl.toolsByName].
  rewrite Hname, lookup_insert_eq, lookup_delete_eq, Hsecond.
  split; [reflexivity|]. split.
  { apply ordered_has_get. now exists first. }
  split; [reflexivity|]. split.
  { apply ordered_has_get. now exists second. }
  split; [now apply (ordered_get_In (tool_id second))|]. now split.
Qed.

Lemma unregister_hides_namesake_witness :
  let r' := snd (ToolRegistryImpl.unregister "tool-echo"
                   (ToolRegistryImpl.register loud_echo_tool example_registry)) in
  ToolRegistryImpl.has "tool-loud-echo" r' = true
  /\ ToolRegistryImpl.execute r' "echo" [("message", JString "hi")]
     = Normal (tool_not_found "echo").
Proof.
  destruct (unregister_hides_namesake echo_tool loud_echo_tool
              (ToolRegistryImpl.register throwing_tool ToolRegistryImpl.empty)
              [("message", JString "hi")] eq_refl ltac:(discriminate))
    as (_ & _ & _ & Hhas & _ & _ & Hexec).
  split; [exact Hhas | exact Hexec].
Defined.

(** ** The agent step of a workflow *)

Section AgentSteps.
Context {M : Type} `{MemoryStore M}.
Variable llmProvider : Z -> CompletionRequest -> Exc CompletionResponse.
Variable toolRegistry : ToolRegistryImpl.t.
Variable clock : Z -> Z.
Variable toISOString : Z -> string.
Variable newExecutionId : string.
Variable findById : string -> option Agent.

(** A response of the use case either succeeds with a text as its output
    and no error, or fails with the error of the exhausted bound. *)
Lemma execute_response_shape
    (request : ExecuteAgentUseCaseImpl.ExecuteAgentRequest) (mem : option M)
    (response : ExecuteAgentResponse) :
  ExecuteAgentUseCaseImpl.returned
    (ExecuteAgentUseCaseImpl.execute llmProvider toolRegistry clock toISOString
       newExecutionId request mem) = Ok response ->
  if response_success response
  then response_error response = None
       /\ exists text, response_output response = JString text
  else response_error response = Some "Maximum iterations reached"
       /\ response_output response = JNull.
Proof.
  unfold ExecuteAgentUseCaseImpl.execute.
  destruct (ExecuteAgentUseCaseImpl.found_agent request) as [agent|]; [|discriminate].
  destruct (TaskEntity.create _) as [task0|e0]; [|discriminate].
  assert (loop_invariant (ExecuteAgentUseCaseImpl.initial_vars mem)) as Hinit
    by (split; [reflexivity|]; split; reflexivity).
  pose proof (agentLoop_records llmProvider toolRegistry clock toISOString newExecutionId
                agent (TaskEntity.updateStatus Running task0)
                (map ExecuteAgentUseCaseImpl.getToolDefinition
                   (ExecuteAgentUseCaseImpl.availableTools toolRegistry request))
                (Z.to_nat (ExecuteAgentUseCaseImpl.requested_maxIterations request))
                _ Hinit) as Hloop.
  destruct (ExecuteAgentUseCaseImpl.agentLoop _ _ _ _ _ _ _ _ _ _) as [vars|e vars];
    [|discriminate].
  destruct Hloop as ((_ & _ & Hout) & _).
  cbn [ExecuteAgentUseCaseImpl.returned]. intros [= <-].
  cbn [response_success response_error response_output].
  destruct (ExecuteAgentUseCaseImpl.completed vars).
  - destruct Hout as (text & -> & _). split; [reflexivity | now exists text].
  - rewrite Hout. now split.
Qed.

(** The agent step never throws, whatever its configuration, the model and
    the tools do.  Its result carries the id of the step and is either
    completed, with a text as output and no error, or failed, with an error
    message; without an agent id or a task description in the configuration
    it fails with the message that says so, before any agent is looked
    up. *)
Theorem agent_step_reports (step : AgentStepExecutor.WorkflowStepConfig)
    (startedAt completedAt : Z) (mem : option M) :
  exists res,
    fst (AgentStepExecutor.execute llmProvider toolRegistry clock toISOString
           newExecutionId findById step startedAt completedAt mem) = Normal res
    /\ stepId res = AgentStepExecutor.step_id step
    /\ ((step_status res = StepCompleted
         /\ step_error res = None
         /\ exists text, step_output res = Some (JString text))
        \/ (step_status res = StepFailed /\ exists message, step_error res = Some message))
    /\ (truthy_string (AgentStepExecutor.config step ≫= AgentStepExecutor.cfg_agentId) = None ->
        step_status res = StepFailed
        /\ step_error res = Some "Agent step requires agentId in config"
        /\ snd (AgentStepExecutor.execute llmProvider toolRegistry clock toISOString
                  newExecutionId findById step startedAt completedAt mem) = mem)
    /\ (forall agentId,
          truthy_string (AgentStepExecutor.config step ≫= AgentStepExecutor.cfg_agentId)
          = Some agentId ->
          is_blank agentId = false ->
          truthy_string (AgentStepExecutor.config step ≫= AgentStepExecutor.cfg_taskDescription)
          = None ->
          step_status res = StepFailed
          /\ step_error res = Some "Agent step requires taskDescription in config"
          /\ snd (AgentStepExecutor.execute llmProvider toolRegistry clock toISOString
                    newExecutionId findById step startedAt completedAt mem) = mem).
Proof.
  unfold AgentStepExecutor.execute, AgentStepExecutor.attempt, AgentId_from.
  destruct (truthy_string (AgentStepExecutor.config step ≫= AgentStepExecutor.cfg_agentId))
    as [agentIdStr|].
  2:{ eexists. cbn. split; [reflexivity|]. split; [reflexivity|].
      split; [right; split; [reflexivity | eauto]|]. split; [now repeat split | discriminate]. }
  destruct (is_blank agentIdStr) eqn:Hblank.
  { eexists. cbn. split; [reflexivity|]. split; [reflexivity|].
    split; [right; split; [reflexivity | eauto]|]. split; [discriminate|].
    intros agentId [= <-]. congruence. }
  destruct (truthy_string
              (AgentStepExecutor.config step ≫= AgentStepExecutor.cfg_taskDescription))
    as [taskDescription|].
  2:{ eexists. cbn. split; [reflexivity|]. split; [reflexivity|].
      split; [right; split; [reflexivity | eauto]|]. split; [discriminate|].
      intros agentId _ _ _. now repeat split. }
  pose proof (execute_response_shape
                (AgentStepExecutor.agent_request findById step agentIdStr taskDescription)
                mem) as Hshape.
  destruct (ExecuteAgentUseCaseImpl.returned _) as [response|error].
  - specialize (Hshape response eq_refl).
    eexists. cbn. split; [reflexivity|]. split; [reflexivity|].
    split; [|split; discriminate].
    destruct (response_success response).
    + destruct Hshape as [Herr (text & Hout)]. left. rewrite Herr, Hout. eauto.
    + destruct Hshape as [Herr _]. right. rewrite Herr. eauto.
  - eexists. cbn. split; [reflexivity|]. split; [reflexivity|].
    split; [right; split; [reflexivity | eauto]|]. split; discriminate.
Qed.

End AgentSteps.

(** ** The times of a task *)

Lemma update_times_started (st : TaskStatus) (now : Z) (m : TaskMetadata) (s : Z) :
  task_startedAt m = Some s ->
  task_startedAt (TimedTaskEntity.update_times st now m) = Some s.
Proof.
  intros Hs. unfold TimedTaskEntity.update_times. rewrite Hs.
  destruct (is_terminal st && absent (task_completedAt m)); now destruct st.
Qed.

Lemma update_times_completed (st : TaskStatus) (now : Z) (m : TaskMetadata) (c : Z) :
  task_completedAt m = Some c ->
  task_completedAt (TimedTaskEntity.update_times st now m) = Some c
  /\ task_duration (TimedTaskEntity.update_times st now m) = task_duration m.
Proof.
  intros Hc. unfold TimedTaskEntity.update_times. rewrite Hc. cbn [absent].
  rewrite andb_false_r. now split.
Qed.

Lemma apply_task_op_times (now : Z) (op : TaskOp) (t : TimedTask) :
  exists st,
    task_metadata (apply_task_op now op t)
    = TimedTaskEntity.update_times st now (task_metadata t)
    /\ status (entity (apply_task_op now op t)) = st.
Proof.
  destruct op as [st|r]; cbn.
  - now exists st.
  - exists (if task_success r then Completed else Failed). now destruct (task_success r).
Qed.

(** The start and the completion of a task are recorded once: whatever
    calls follow, a recorded start time stays, and a recorded completion
    time stays together with the duration, measured or not, that went with
    it. *)
Theorem task_times_recorded_once (trace : list (Z * TaskOp)) :
  forall t : TimedTask,
    (forall s, task_startedAt (task_metadata t) = Some s ->
       task_startedAt (task_metadata (run_task_ops trace t)) = Some s)
    /\ (forall c, task_completedAt (task_metadata t) = Some c ->
          task_completedAt (task_metadata (run_task_ops trace t)) = Some c
          /\ task_duration (task_metadata (run_task_ops trace t))
             = task_duration (task_metadata t)).
Proof.
  induction trace as [|[now op] rest IH]; intros t; cbn [run_task_ops].
  - split; [trivial | now split].
  - destruct (apply_task_op_times now op t) as (st & Hm & _).
    destruct (IH (apply_task_op now op t)) as [IHs IHc]. split.
    + intros s Hs. apply IHs. rewrite Hm. now apply update_times_started.
    + intros c Hc. destruct (update_times_completed st now _ c Hc) as [Hc' Hd'].
      rewrite <- Hm in Hc', Hd'. destruct (IHc c Hc') as [Hc'' Hd''].
      split; [exact Hc''|]. now rewrite Hd'', Hd'.
Qed.

Lemma apply_task_op_sound (last now : Z) (op : TaskOp) (t : TimedTask) :
  last <= now -> task_times_sound last t -> task_times_sound now (apply_task_op now op t).
Proof.
  intros Hle (Hs & Hc & Hdone & Hd).
  destruct (apply_task_op_times now op t) as (st & Hm & Hst).
  unfold task_times_sound, TimedTaskEntity.isComplete. rewrite Hm, Hst. clear Hm Hst Hdone.
  unfold TimedTaskEntity.update_times.
  destruct (task_startedAt (task_metadata t)) as [s|] eqn:Hstart;
    destruct (task_completedAt (task_metadata t)) as [c|] eqn:Hcomp;
    destruct (task_duration (task_metadata t)) as [d|] eqn:Hdur;
    try (destruct (Hd _ eq_refl) as (s0 & c0 & [= <-] & [= <-] & Hsc & ->));
    try (destruct (Hd _ eq_refl) as (s0 & c0 & Hno & _); discriminate Hno);
    try (destruct (Hd _ eq_refl) as (s0 & c0 & _ & Hno & _); discriminate Hno);
    try (specialize (Hs _ eq_refl)); try (specialize (Hc _ eq_refl));
    destruct st; cbn;
    (split; [intros ? [= <-]; lia|]);
    (split; [intros ? [= <-]; lia|]);
    (split; [first [ discriminate | intros _; eauto ]|]);
    intros ? Hdd; try discriminate Hdd; injection Hdd as <-;
    eexists _, _; (split; [reflexivity|]); (split; [reflexivity|]); lia.
Qed.

(** On a task created and then updated while the clock does not run
    backwards: a task that is complete has its completion time; a duration,
    when the task has one, is the time from its recorded start to its
    recorded completion, and is not negative. *)
Theorem task_duration_is_start_to_completion (description : string) (created : Z)
    (trace : list (Z * TaskOp)) (t0 : TimedTask) :
  TimedTaskEntity.create description created = Normal t0 ->
  readings_ascend created (map fst trace) ->
  let t := run_task_ops trace t0 in
  (TimedTaskEntity.isComplete t = true ->
   exists c, task_completedAt (task_metadata t) = Some c)
  /\ (forall d, task_duration (task_metadata t) = Some d ->
        0 <= d
        /\ exists s c, task_startedAt (task_metadata t) = Some s
                       /\ task_completedAt (task_metadata t) = Some c
                       /\ d = c - s).
Proof.
  intros Hcreate Hclock t. subst t.
  assert (task_times_sound created t0) as Hsound.
  { unfold TimedTaskEntity.create, TaskEntity.create in Hcreate.
    destruct (is_blank description); [discriminate|]. injection Hcreate as <-.
    repeat split; cbn; discriminate. }
  clear Hcreate.
  assert (exists last, task_times_sound last (run_task_ops trace t0)) as (last & Hfinal).
  { revert created t0 Hclock Hsound.
    induction trace as [|[now op] rest IH]; intros created t0 Hclock Hsound.
    - now exists created.
    - destruct Hclock as [Hle Hrest]. apply (IH now); [exact Hrest|].
      now apply (apply_task_op_sound created). }
  destruct Hfinal as (_ & _ & Hdone & Hd). split; [exact Hdone|].
  intros d Hdur. destruct (Hd d Hdur) as (s & c & Hs & Hc & Hsc & ->).
  split; [lia|]. now exists s, c.
Qed.

Lemma task_duration_is_start_to_completion_witness :
  exists t0,
    TimedTaskEntity.create "Say hi twice" 5 = Normal t0
    /\ task_duration (task_metadata (run_task_ops answered_task_trace t0)) = Some 15
    /\ exists s c,
         task_startedAt (task_metadata (run_task_ops answered_task_trace t0)) = Some s
         /\ task_completedAt (task_metadata (run_task_ops answered_task_trace t0)) = Some c
         /\ 15 = c - s.
Proof.
  eexists. split; [reflexivity|]. split; [reflexivity|].
  refine (proj2 (proj2 (task_duration_is_start_to_completion "Say hi twice" 5
                          answered_task_trace _ eq_refl _) 15 eq_refl)).
  cbn. lia.
Defined.

(** ** Results *)

(** Results and calls that may throw are two forms of the same thing:
    [trySync] of a call that unwraps a result gives the result back, and
    unwrapping [trySync] of a call does what the call does.  On results,
    [flatMap] chains like a call sequence does: an error ends the chain with
    that error, [ok] is neutral on both sides, chaining is associative, and
    [map] is [flatMap] with the value wrapped. *)
Theorem result_chaining {A B C : Type} (r : Result A) (call : Exc A) (value : A)
    (f : A -> Exc (Result B)) (g : B -> Exc (Result C)) (h : A -> Exc B) (error : Thrown) :
  ResultType.trySync (ResultType.unwrap r) = r
  /\ ResultType.unwrap (ResultType.trySync call) = call
  /\ ResultType.flatMap f (Ok value) = f value
  /\ ResultType.flatMap f (Err error) = Normal (Err error)
  /\ ResultType.flatMap (fun v => Normal (Ok v)) r = Normal r
  /\ (rb <- ResultType.flatMap f r ;; ResultType.flatMap g rb)
     = ResultType.flatMap (fun v => rb <- f v ;; ResultType.flatMap g rb) r
  /\ ResultType.map h r = ResultType.flatMap (fun v => y <- h v ;; Normal (Ok y)) r
  /\ (isOk r = true ->
      forall rb, ResultType.map h r = Normal rb ->
                 isOk rb = true
                 /\ h (ResultType.unwrapOr value r) = ResultType.unwrap rb).
Proof.
  split; [now destruct r|]. split; [now destruct call|].
  split; [reflexivity|]. split; [reflexivity|]. split; [now destruct r|].
  split; [now destruct r|]. split; [now destruct r|].
  destruct r as [v|e]; [|discriminate]. intros _ rb. cbn.
  destruct (h v) as [y|e]; cbn; [|discriminate]. intros [= <-]. now split.
Qed.

(** ** The file store continues its numbering when it starts *)

Lemma digit_value_pretty (d : N) :
  (d < 10)%N -> digit_value (pretty_N_char d) = Some (Z.of_N d).
Proof.
  intros Hd.
  assert (d = 0 \/ d = 1 \/ d = 2 \/ d = 3 \/ d = 4 \/ d = 5 \/ d = 6 \/ d = 7
          \/ d = 8 \/ d = 9)%N as Hcases by lia.
  repeat (destruct Hcases as [->|Hcases]; [reflexivity|]). now subst d.
Qed.

(** Reading the digits [pretty_N_go] writes gives the number back. *)
Lemma parse_pretty_N_go (x : N) :
  exists m : Z,
    forall (acc : Z) (s : string),
      parse_digits acc (pretty_N_go x s) = parse_digits (acc * m + Z.of_N x) s.
Proof.
  induction (N.lt_wf_0 x) as [x _ IH].
  assert (x = 0 \/ 0 < x)%N as [->|Hpos] by lia.
  - exists 1. intros acc s. rewrite pretty_N_go_0. f_equal. lia.
  - destruct (IH (x `div` 10)%N) as (m & Hm); [now apply N.div_lt|].
    exists (m * 10). intros acc s.
    rewrite pretty_N_go_step by assumption. rewrite Hm.
    cbn [parse_digits]. rewrite digit_value_pretty by (apply N.mod_lt; lia).
    f_equal. pose proof (N.div_mod x 10 ltac:(lia)) as Hdiv. lia.
Qed.

Lemma pretty_N_go_head (x : N) (s : string) :
  (0 < x)%N ->
  exists c rest, pretty_N_go x s = String c rest
                 /\ (exists d, digit_value c = Some d)
                 /\ is_space c = false /\ c <> "-"%char /\ c <> "+"%char.
Proof.
  revert s. induction (N.lt_wf_0 x) as [x _ IH]. intros s Hpos.
  rewrite pretty_N_go_step by assumption.
  destruct (N.eq_0_gt_0_cases (x `div` 10)) as [Hz|Hbig].
  - rewrite Hz, pretty_N_go_0. eexists _, _. split; [reflexivity|].
    assert (x `mod` 10 < 10)%N as Hd by (apply N.mod_lt; lia).
    remember (x `mod` 10)%N as d eqn:Hdeq. clear Hdeq.
    assert (d = 0 \/ d = 1 \/ d = 2 \/ d = 3 \/ d = 4 \/ d = 5 \/ d = 6 \/ d = 7
            \/ d = 8 \/ d = 9)%N as Hcases by lia.
    repeat (destruct Hcases as [->|Hcases];
            [split; [eexists; reflexivity|]; split; [reflexivity|]; split; discriminate|]).
    rewrite Hcases. split; [eexists; reflexivity|]. split; [reflexivity|]. split; discriminate.
  - apply IH; [now apply N.div_lt | assumption].
Qed.

Lemma pretty_N_go_no_dash (x : N) (s : string) :
  split_dash s = [s] -> split_dash (pretty_N_go x s) = [pretty_N_go x s].
Proof.
  revert s. induction (N.lt_wf_0 x) as [x _ IH]. intros s Hs.
  assert (x = 0 \/ 0 < x)%N as [->|Hpos] by lia; [now rewrite pretty_N_go_0|].
  rewrite pretty_N_go_step by assumption. apply IH; [now apply N.div_lt|].
  cbn [split_dash]. rewrite Hs.
  assert (x `mod` 10 < 10)%N as Hd by (apply N.mod_lt; lia).
  assert (Ascii.eqb (pretty_N_char (x `mod` 10)) "-" = false) as ->; [|reflexivity].
  unfold pretty_N_char. now repeat case_match.
Qed.

(** The number of an id the store has handed out is read back from it. *)
Lemma idNum_mem_id (k : Z) :
  0 < k -> FileMemoryStoreStart.idNum (mem_id k) = Some k.
Proof.
  intros Hk. destruct k as [|p|p]; try lia.
  unfold FileMemoryStoreStart.idNum, mem_id.
  change (pretty (Z.pos p)) with (pretty (N.pos p)).
  unfold pretty, pretty_N. destruct (decide (N.pos p = 0%N)) as [Hz|_]; [discriminate|].
  assert (split_dash ("mem-" +:+ pretty_N_go (N.pos p) "")
          = ["mem"; pretty_N_go (N.pos p) ""]) as ->.
  { pose proof (pretty_N_go_no_dash (N.pos p) "" eq_refl) as Hdigits.
    simpl. f_equal. exact Hdigits. }
  cbn [nth].
  destruct (pretty_N_go_head (N.pos p) "" ltac:(lia))
    as (c & rest & Heq & (d & Hd) & Hspace & Hdash & Hplus).
  destruct (parse_pretty_N_go (N.pos p)) as (m & Hm).
  specialize (Hm 0 ""). rewrite Heq in Hm.
  unfold parseInt. rewrite Heq. cbn [skip_space]. rewrite Hspace.
  destruct (Ascii.eqb_spec c "-"); [contradiction|].
  destruct (Ascii.eqb_spec c "+"); [contradiction|].
  cbn [starts_with_digit]. rewrite Hd. rewrite Hm. cbn [parse_digits]. f_equal; lia.
Qed.

(** The number read from an id of the store's form is the number of the
    id, and none when the number is negative. *)
Lemma idNum_mem_id_cases (k n : Z) :
  FileMemoryStoreStart.idNum (mem_id k) = Some n -> 0 <= k /\ n = k.
Proof.
  intros Hn. destruct k as [|p|p].
  - change (FileMemoryStoreStart.idNum (mem_id 0)) with (Some 0) in Hn.
    injection Hn as <-. lia.
  - rewrite (idNum_mem_id (Z.pos p)) in Hn by lia. injection Hn as <-. lia.
  - exfalso. unfold FileMemoryStoreStart.idNum, mem_id in Hn.
    change (pretty (Z.neg p)) with ("-" +:+ pretty (N.pos p)) in Hn.
    cbn in Hn. destruct (split_dash (pretty (N.pos p))); discriminate Hn.
Qed.

Lemma next_after_bounds (rows : list FileMemoryStore.IndexEntry) :
  (forall r n, In r rows ->
     FileMemoryStoreStart.idNum (FileMemoryStore.ix_id r) = Some n ->
     isSafeInteger n = true) ->
  forall nextId : Z,
    nextId <= MAX_SAFE_INTEGER + 1 ->
    exists next,
      FileMemoryStoreStart.next_after rows nextId = Some next
      /\ nextId <= next <= MAX_SAFE_INTEGER + 1
      /\ (forall r n, In r rows ->
            FileMemoryStoreStart.idNum (FileMemoryStore.ix_id r) = Some n -> n < next)
      /\ (next = nextId
          \/ exists r, In r rows
                       /\ FileMemoryStoreStart.idNum (FileMemoryStore.ix_id r)
                          = Some (next - 1)).
Proof.
  induction rows as [|r rows IH]; intros Hsafe nextId Hmax;
    cbn [FileMemoryStoreStart.next_after].
  - exists nextId. split; [reflexivity|]. split; [lia|]. split; [intros r n []|now left].
  - assert (exists next1,
              FileMemoryStoreStart.next_step nextId r = Some next1
              /\ nextId <= next1 <= MAX_SAFE_INTEGER + 1
              /\ (forall n, FileMemoryStoreStart.idNum (FileMemoryStore.ix_id r) = Some n ->
                     n < next1)
              /\ (next1 = nextId
                  \/ FileMemoryStoreStart.idNum (FileMemoryStore.ix_id r)
                     = Some (next1 - 1))) as (next1 & Hstep & Hle1 & Hr1 & Hlast1).
    { unfold FileMemoryStoreStart.next_step.
      destruct (FileMemoryStoreStart.idNum (FileMemoryStore.ix_id r)) as [n|] eqn:Hn.
      - pose proof (Hsafe r n (or_introl eq_refl) Hn) as Hn_safe. rewrite Hn_safe.
        unfold isSafeInteger in Hn_safe.
        apply andb_true_iff in Hn_safe as [_ Hn_max]. apply Z.leb_le in Hn_max.
        destruct (Z.leb_spec nextId n) as [Hcmp|Hcmp].
        + exists (n + 1). split; [reflexivity|]. split; [lia|].
          split; [intros n' [= <-]; lia|]. right. f_equal. lia.
        + exists nextId. split; [reflexivity|]. split; [lia|].
          split; [intros n' [= <-]; lia | now left].
      - exists nextId. split; [reflexivity|]. split; [lia|].
        split; [discriminate | now left]. }
    rewrite Hstep.
    destruct (IH (fun r' n Hin => Hsafe r' n (or_intror Hin)) next1 ltac:(lia))
      as (next & Hnext & Hle & Hall & Hlast).
    exists next. split; [exact Hnext|]. split; [lia|]. split.
    + intros r' n [<-|Hin] Hn; [|now apply (Hall r')].
      pose proof (Hr1 n Hn). lia.
    + destruct Hlast as [->|(r' & Hin & Hn)].
      * destruct Hlast1 as [->|Hn]; [now left|].
        right. exists r. split; [now left | exact Hn].
      * right. exists r'. split; [now right | exact Hn].
Qed.

(** When the file store starts on an index whose ids are ids a store has
    handed out, with numbers among the safe integers, its counter ends
    above the number of every id in the index, so no id of the index is
    handed out again; the counter is 1 for an index without positive
    numbers and otherwise one more than a number in the index.  A store
    that starts on rows and files that agree is in agreement, whatever the
    counter had reached before. *)
Theorem initialize_continues_numbering (rows : list FileMemoryStore.IndexEntry)
    (fs : gmap string MemoryEntry) :
  (forall r, In r rows ->
     exists k, FileMemoryStore.ix_id r = mem_id k /\ k <= MAX_SAFE_INTEGER) ->
  exists s,
    FileMemoryStoreStart.initialize (Some rows) fs = Some s
    /\ FileMemoryStore.index s = rows
    /\ FileMemoryStore.files s = fs
    /\ 1 <= FileMemoryStore.nextId s <= MAX_SAFE_INTEGER + 1
    /\ (forall r, In r rows ->
          exists k, FileMemoryStore.ix_id r = mem_id k /\ k < FileMemoryStore.nextId s)
    /\ ~ In (mem_id (FileMemoryStore.nextId s)) (index_ids rows)
    /\ (FileMemoryStore.nextId s = 1
        \/ In (mem_id (FileMemoryStore.nextId s - 1)) (index_ids rows))
    /\ (forall n, index_consistent {| FileMemoryStore.index := rows;
                                      FileMemoryStore.files := fs;
                                      FileMemoryStore.nextId := n |} ->
                  index_consistent s).
Proof.
  intros Hids. cbn [FileMemoryStoreStart.initialize].
  assert (forall r n, In r rows ->
            FileMemoryStoreStart.idNum (FileMemoryStore.ix_id r) = Some n ->
            isSafeInteger n = true) as Hsafe.
  { intros r n Hr Hn. destruct (Hids r Hr) as (k & Hk & Hmax). rewrite Hk in Hn.
    apply idNum_mem_id_cases in Hn as [Hpos ->].
    unfold isSafeInteger. apply andb_true_iff.
    split; apply Z.leb_le; [unfold MAX_SAFE_INTEGER|]; lia. }
  destruct (next_after_bounds rows Hsafe 1 ltac:(unfold MAX_SAFE_INTEGER; lia))
    as (next & Hnext & Hle & Hall & Hlast).
  rewrite Hnext. eexists. split; [reflexivity|]. cbn.
  assert (forall r, In r rows ->
            exists k, FileMemoryStore.ix_id r = mem_id k /\ k < next) as Hbelow.
  { intros r Hr. destruct (Hids r Hr) as (k & Hk & _). exists k. split; [exact Hk|].
    destruct (Z.lt_ge_cases 0 k) as [Hpos|Hneg]; [|lia].
    apply (Hall r k Hr). rewrite Hk. now apply idNum_mem_id. }
  split; [reflexivity|]. split; [reflexivity|]. split; [exact Hle|].
  split; [exact Hbelow|]. split; [|split].
  - intros Hin. apply in_map_iff in Hin as (r & Hid & Hr).
    destruct (Hbelow r Hr) as (k & Hk & Hlt). rewrite Hk in Hid.
    apply mem_id_inj in Hid. lia.
  - destruct Hlast as [Hone|(r & Hr & Hn)]; [now left|]. right.
    destruct (Hids r Hr) as (k & Hk & _).
    apply in_map_iff. exists r. split; [|exact Hr]. rewrite Hk. f_equal.
    rewrite Hk in Hn. apply idNum_mem_id_cases in Hn as [_ Hn]. symmetry. exact Hn.
  - intros n (Hnd & Hrows & Hfiles & _). split; [exact Hnd|]. split; [exact Hrows|].
    split; [exact Hfiles | exact Hbelow].
Qed.

Lemma initialize_continues_numbering_witness :
  exists s,
    FileMemoryStoreStart.initialize (Some (FileMemoryStore.index fruit_files))
      (FileMemoryStore.files fruit_files) = Some s
    /\ FileMemoryStore.nextId s = 3
    /\ index_consistent s.
Proof.
  destruct (initialize_continues_numbering (FileMemoryStore.index fruit_files)
              (FileMemoryStore.files fruit_files))
    as (s & Hs & _ & _ & _ & _ & _ & _ & Hagree).
  - intros r [<-|[<-|[]]]; [exists 1 | exists 2]; (split; [reflexivity|]);
      unfold MAX_SAFE_INTEGER; lia.
  - exists s. split; [exact Hs|]. split.
    + cbn in Hs. injection Hs as <-. reflexivity.
    + exact (Hagree 3 fruit_files_consistent).
Defined.

(** Where the index holds an id whose number is not a safe integer, the
    model gives the store no counter. *)
Lemma initialize_beyond_safe_integers :
  FileMemoryStoreStart.initialize
    (Some [{| FileMemoryStore.ix_id := "mem-9007199254740992";
              FileMemoryStore.ix_type := LongTerm;
              FileMemoryStore.ix_importance := Medium;
              FileMemoryStore.ix_tags := [];
              FileMemoryStore.ix_createdAt := 1000;
              FileMemoryStore.ix_accessedAt := 1000;
              FileMemoryStore.ix_accessCount := 0 |}]) ∅
  = None.
Proof. vm_compute. reflexivity. Qed.
